(** * MrRSS feed fetcher: script runner, article normaliser and the
      bounded fetch orchestrator

    The development embeds three pieces of the Go sources:

    - [internal/feed] script executor ([ExecuteScript]) together with the
      lexical path functions of the Go standard library it relies on;
    - [Fetcher.FetchFeed]: source resolution, image fallback chain,
      persistence and the post-fetch rule hook, as a function that yields the
      ordered trace of effects it performs on its collaborators;
    - [Fetcher.FetchAll] and [Fetcher.GetProgress]: a small-step interleaving
      semantics with one program counter per source line that touches shared
      state (the mutex, the progress struct, the wait group, the semaphore
      channel and the cancellation context).

    Around them it embeds the functions that create subscriptions
    ([AddSubscription], [AddScriptSubscription], [ImportSubscription] and
    the handler [HandleAddFeed]), the set-up of the scripts directory
    ([GetScriptsDir], [ValidateScriptPath], [NewFetcher]), the HTML clean-up
    [CleanHTML], and the FreshRSS client and synchronisation ([NewClient],
    [Login], [MarkAsRead], [SyncService.Sync] and the two handlers). *)

From Stdlib Require Import ZArith Ascii String List Lia Bool.
From stdpp Require Import base list gmap strings pretty.

Local Open Scope Z_scope.
Local Open Scope nat_scope.

(** ** Byte strings *)

Module Str.

Definition chars (s : string) : list ascii := String.list_ascii_of_string s.
Definition pack (l : list ascii) : string := String.string_of_list_ascii l.

(** [strings.HasPrefix(s, prefix)] *)
Definition HasPrefix (s pre : string) : bool := String.prefix pre s.

Definition lower_char (c : ascii) : ascii :=
  let n := nat_of_ascii c in
  if (65 <=? n) && (n <=? 90) then ascii_of_nat (n + 32) else c.

(** [strings.ToLower], on the ASCII range (the only range the extension
    switch of the script executor distinguishes). *)
Definition ToLower (s : string) : string := pack (map lower_char (chars s)).

Definition is_empty (s : string) : bool :=
  match s with EmptyString => true | _ => false end.

(** [strings.Join(elems, sep)] *)
Fixpoint Join (elems : list string) (sep : string) : string :=
  match elems with
  | [] => ""
  | [e] => e
  | e :: rest => e +:+ sep +:+ Join rest sep
  end.

(** [s] contains [sub] as a contiguous substring. *)
Definition contains (s sub : string) : Prop :=
  ∃ pre post : string, s = pre +:+ sub +:+ post.

End Str.

(** ** [path/filepath] on a host whose separator is the slash

    [Clean], [Join] and [Ext] belong to the Go standard library.  They are
    modelled element-wise, following the library's algorithm: the output
    buffer of [Clean] is the stack [out] of elements kept so far (most recent
    first), and the library's condition [out.w > dotdot] ("there is a real
    element to back up over") reads "the stack is non-empty and its top is
    not a leading dot-dot". *)

Module filepath.

Definition Separator : ascii := "/"%char.

Fixpoint split_acc (cur : list ascii) (s : list ascii) : list string :=
  match s with
  | [] => [Str.pack (rev cur)]
  | c :: s' =>
      if Ascii.eqb c Separator
      then Str.pack (rev cur) :: split_acc [] s'
      else split_acc (c :: cur) s'
  end.

(** The elements of a path between separators (empty elements included). *)
Definition elements (path : string) : list string :=
  split_acc [] (Str.chars path).

Definition rooted (path : string) : bool :=
  match path with
  | String c _ => Ascii.eqb c Separator
  | EmptyString => false
  end.

Definition can_backtrack (out : list string) : bool :=
  match out with
  | top :: _ => negb (String.eqb top "..")
  | [] => false
  end.

Definition clean_step (is_rooted : bool) (out : list string) (el : string)
  : list string :=
  if String.eqb el "" then out
  else if String.eqb el "." then out
  else if String.eqb el ".." then
    if can_backtrack out then tail out
    else if negb is_rooted then ".." :: out
    else out
  else el :: out.

Definition Clean (path : string) : string :=
  if Str.is_empty path then "."
  else
    let r := rooted path in
    let out := fold_left (clean_step r) (elements path) [] in
    let body := Str.Join (rev out) "/" in
    if r then "/" +:+ body
    else if Str.is_empty body then "." else body.

(** [filepath.Join(a, b)]: empty elements are ignored, the rest is joined
    with the separator from the first non-empty element on and cleaned. *)
Definition Join (a b : string) : string :=
  if negb (Str.is_empty a) then Clean (a +:+ "/" +:+ b)
  else if negb (Str.is_empty b) then Clean b
  else "".

Fixpoint ext_scan (s : list ascii) (cur : list ascii) : list ascii :=
  match s with
  | [] => cur
  | c :: s' =>
      if Ascii.eqb c Separator then ext_scan s' []
      else if Ascii.eqb c "."%char then ext_scan s' (c :: s')
      else ext_scan s' cur
  end.

(** [filepath.Ext]: the suffix starting at the last dot of the last
    element, empty when that element has no dot. *)
Definition Ext (path : string) : string :=
  Str.pack (ext_scan (Str.chars path) []).

(** The non-empty elements of a cleaned path. *)
Definition components (path : string) : list string :=
  filter (λ el, el ≠ "") (elements (Clean path)).

(** Containment of a path in a directory, element by element: what "the
    path resolves inside the root" means on the file system. *)
Definition within (root path : string) : bool :=
  bool_decide (components root `prefix_of` components path).

End filepath.

(** ** Data model *)

(** Results of fallible collaborator calls: a value or the error's text
    (what Go's [err.Error()] returns). *)
Inductive result (A : Type) : Type :=
| Ok (a : A)
| Err (msg : string).
Arguments Ok {A} a.
Arguments Err {A} msg.

(** [gofeed.Image], [gofeed.Enclosure], [gofeed.Item], [gofeed.Feed]: the
    fields the fetcher reads. *)
Record Image := mkImage { img_URL : string }.

Record Enclosure := mkEnclosure { enc_URL : string; enc_Type : string }.

Record Item := mkItem {
  it_Title : string;
  it_Link : string;
  it_Description : string;
  it_Content : string;
  it_Image : option Image;
  it_Enclosures : list Enclosure;
  it_PublishedParsed : option Z
}.

Record ParsedFeed := mkParsedFeed {
  pf_Title : string;
  pf_Link : string;
  pf_Description : string;
  pf_Image : option Image;
  pf_Items : list Item
}.

(** [models.Feed]: a subscription. *)
Record Feed := mkFeed {
  fd_ID : Z;
  fd_Title : string;
  fd_URL : string;
  fd_Link : string;
  fd_ImageURL : string;
  fd_ScriptPath : string
}.

(** [models.Article] as built by [FetchFeed]; the remaining fields keep
    their zero values. *)
Record Article := mkArticle {
  ar_FeedID : Z;
  ar_Title : string;
  ar_URL : string;
  ar_ImageURL : string;
  ar_Content : string;
  ar_PublishedAt : Z;
  ar_TranslatedTitle : string
}.

(** The translator chosen by [FetchAll] from the settings. *)
Inductive Translator :=
| DeepLTranslator (apiKey : string)
| GoogleFreeTranslator.

Record ScriptExecutor := mkScriptExecutor { scriptsDir : string }.

(** An [exec.Cmd]: program, arguments and working directory. *)
Record Cmd := mkCmd {
  cmd_Name : string;
  cmd_Args : list string;
  cmd_Dir : string
}.

(** Outcome of [cmd.Run()] with both output streams captured. *)
Inductive RunResult :=
| RunOk (stdout : string)
| RunFailed (err : string) (stderr : string).

(** The effects the fetcher performs on its collaborators, in call order. *)
Inductive Event :=
| EvRun (c : Cmd)                                 (* cmd.Run() *)
| EvUpdateFeedError (id : Z) (msg : string)       (* db.UpdateFeedError *)
| EvUpdateFeedImage (id : Z) (url : string)       (* db.UpdateFeedImage *)
| EvUpdateFeedLink (id : Z) (url : string)        (* db.UpdateFeedLink *)
| EvSaveArticles (arts : list Article) (ok : bool)  (* db.SaveArticles *)
| EvApplyRules (arts : list Article)              (* engine.ApplyRulesToArticles *)
| EvSetSetting (key value : string).              (* db.SetSetting *)

(** What the outside world answers when the fetcher calls it.  One value of
    this record is the world as it stands during one step. *)
Record Env := mkEnv {
  runtime_GOOS : string;
  time_Now : Z;
  time_NowRFC3339 : string;
  db_GetSetting : string → string;
  db_GetFeeds : result (list Feed);
  db_SaveArticles : list Article → result unit;
  db_GetArticles : Z → nat → result (list Article);
  fp_ParseURLWithContext : string → result ParsedFeed;
  fp_ParseString : string → result ParsedFeed;
  os_Run : Cmd → RunResult;
  tr_Translate : Translator → string → string → result string
}.

(** ** Script runner: [ScriptExecutor.ExecuteScript] *)

Definition is_windows (env : Env) : bool := String.eqb (runtime_GOOS env) "windows".

(** The extension switch: program and arguments, or the platform error. *)
Definition script_command (env : Env) (ext fullPath : string)
  : result (string * list string) :=
  if String.eqb ext ".py" then
    Ok (if is_windows env then "python" else "python3", [fullPath])
  else if String.eqb ext ".sh" then
    if is_windows env then Err "shell scripts are not supported on Windows"
    else Ok ("bash", [fullPath])
  else if String.eqb ext ".ps1" then
    if negb (is_windows env) then Ok ("pwsh", ["-File"; fullPath])
    else Ok ("powershell.exe", ["-ExecutionPolicy"; "Bypass"; "-File"; fullPath])
  else if String.eqb ext ".js" then Ok ("node", [fullPath])
  else if String.eqb ext ".rb" then Ok ("ruby", [fullPath])
  else Ok (fullPath, []).

Definition invalid_script_path : string :=
  "invalid script path: script must be within scripts directory".

(** The resolved path and the security check of [ExecuteScript]. *)
Definition script_fullPath (e : ScriptExecutor) (scriptPath : string) : string :=
  filepath.Clean (filepath.Join (scriptsDir e) scriptPath).

Definition script_path_accepted (e : ScriptExecutor) (scriptPath : string) : bool :=
  Str.HasPrefix (script_fullPath e scriptPath) (filepath.Clean (scriptsDir e)).

Definition ExecuteScript (env : Env) (e : ScriptExecutor) (scriptPath : string)
  : list Event * result ParsedFeed :=
  let fullPath := script_fullPath e scriptPath in
  if negb (script_path_accepted e scriptPath) then ([], Err invalid_script_path)
  else
    let ext := Str.ToLower (filepath.Ext fullPath) in
    match script_command env ext fullPath with
    | Err m => ([], Err m)
    | Ok (name, args) =>
        let cmd := mkCmd name args (scriptsDir e) in
        match os_Run env cmd with
        | RunFailed err stderr =>
            if negb (Str.is_empty stderr) then
              ([EvRun cmd],
               Err ("script execution failed: " +:+ err +:+ ", stderr: " +:+ stderr))
            else
              ([EvRun cmd], Err ("script execution failed: " +:+ err))
        | RunOk stdout =>
            match fp_ParseString env stdout with
            | Err m =>
                ([EvRun cmd], Err ("failed to parse script output as feed: " +:+ m))
            | Ok feed => ([EvRun cmd], Ok feed)
            end
        end
    end.

(** [utils.ValidateScriptPath], with the scripts directory and the file
    system's answer to [os.Stat] as arguments: [exists_ p] is false exactly
    when [os.Stat p] fails with an error of which [os.IsNotExist] holds,
    the only outcome the function turns away.  [filepath.HasPrefix] is the
    library's plain string-prefix test. *)
Definition ValidateScriptPath (scriptsDir : string) (exists_ : string → bool)
    (scriptPath : string) : result string :=
  let absScriptPath := filepath.Clean (filepath.Join scriptsDir scriptPath) in
  if negb (Str.HasPrefix absScriptPath scriptsDir) then Err "permission denied"
  else if negb (exists_ absScriptPath) then Err "file does not exist"
  else Ok absScriptPath.

(** ** The regular expression of the image fallback

    Go's [regexp] package matches leftmost-first: the leftmost start
    position wins and, there, the match a backtracking engine finds first.
    The matcher below is that engine for the operators the pattern uses; it
    works on bytes, which is exact for a pattern whose literals and excluded
    characters are all ASCII. *)

Module regexp.

Inductive re :=
| Lit (s : string)          (* a literal string *)
| PlusNot (excl : string)   (* [^...]+, greedy *)
| Seq (r1 r2 : re)
| Group (r : re).           (* the capturing group *)

Definition outside (excl : string) (c : ascii) : bool :=
  negb (existsb (Ascii.eqb c) (Str.chars excl)).

Fixpoint strip (lit s : list ascii) : option (list ascii) :=
  match lit, s with
  | [], _ => Some s
  | a :: lit', c :: s' => if Ascii.eqb a c then strip lit' s' else None
  | _ :: _, [] => None
  end.

(** One or more characters satisfying [p], longest run first. *)
Fixpoint plus_class {R} (p : ascii → bool) (s : list ascii)
    (k : list ascii → option R) : option R :=
  match s with
  | c :: s' =>
      if p c then
        match plus_class p s' k with
        | Some r => Some r
        | None => k s'
        end
      else None
  | [] => None
  end.

(** [run r s cap k]: match [r] at the head of [s], then continue with [k]
    on the rest of the input and the text of the group. *)
Fixpoint run {R} (r : re) (s : list ascii) (cap : string)
    (k : list ascii → string → option R) : option R :=
  match r with
  | Lit l =>
      match strip (Str.chars l) s with
      | Some s' => k s' cap
      | None => None
      end
  | PlusNot excl => plus_class (outside excl) s (λ s', k s' cap)
  | Seq r1 r2 => run r1 s cap (λ s' cap', run r2 s' cap' k)
  | Group r1 =>
      run r1 s cap
        (λ s' _, k s' (Str.pack (take (length s - length s') s)))
  end.

Definition match_here (r : re) (s : list ascii) : option (list string) :=
  run r s "" (λ s' cap, Some [Str.pack (take (length s - length s') s); cap]).

Fixpoint find (r : re) (s : list ascii) : list string :=
  match match_here r s with
  | Some m => m
  | None =>
      match s with
      | [] => []
      | _ :: s' => find r s'
      end
  end.

(** [re.FindStringSubmatch(s)]: the whole match followed by the group's
    text, or the empty (nil) slice when nothing matches. *)
Definition FindStringSubmatch (r : re) (s : string) : list string :=
  find r (Str.chars s).

End regexp.

Definition dquote : string := String "034"%char EmptyString.

(** The pattern compiled in [FetchFeed]: an [img] tag, a run of characters
    other than the closing bracket, [src=], and the quoted value captured up
    to the next quote or bracket. *)
Definition img_src_pattern : regexp.re :=
  regexp.Seq (regexp.Lit "<img")
    (regexp.Seq (regexp.PlusNot ">")
      (regexp.Seq (regexp.Lit ("src=" +:+ dquote))
        (regexp.Seq (regexp.Group (regexp.PlusNot (dquote +:+ ">")))
          (regexp.Lit dquote)))).

(** ** Article normaliser: the body of the item loop of [FetchFeed] *)

(** [content := item.Content; if content == "" { content = item.Description }] *)
Definition item_content (item : Item) : string :=
  if Str.is_empty (it_Content item) then it_Description item else it_Content item.

(** Image resolution of one entry. *)
Definition item_imageURL (item : Item) : string :=
  let imageURL :=
    match it_Image item with
    | Some img => img_URL img
    | None =>
        match it_Enclosures item with
        | e0 :: _ =>
            if String.eqb (enc_Type e0) "image/jpeg" then enc_URL e0 else ""
        | [] => ""
        end
    end in
  if Str.is_empty imageURL then
    let matches := regexp.FindStringSubmatch img_src_pattern (item_content item) in
    if 1 <? length matches then nth 1 matches "" else imageURL
  else imageURL.

(** The fields of the fetcher that [FetchFeed] reads. *)
Record Fetcher := mkFetcher {
  f_scriptExecutor : option ScriptExecutor;
  f_translator : option Translator
}.

Definition item_translatedTitle (env : Env) (F : Fetcher)
    (translationEnabled : bool) (targetLang : string) (item : Item) : string :=
  if translationEnabled then
    match f_translator F with
    | Some tr =>
        match tr_Translate env tr (it_Title item) targetLang with
        | Ok t => t
        | Err _ => ""
        end
    | None => ""
    end
  else "".

Definition make_article (env : Env) (F : Fetcher) (feed : Feed)
    (translationEnabled : bool) (targetLang : string) (item : Item) : Article :=
  let published :=
    match it_PublishedParsed item with
    | Some t => t
    | None => time_Now env
    end in
  {| ar_FeedID := fd_ID feed;
     ar_Title := it_Title item;
     ar_URL := it_Link item;
     ar_ImageURL := item_imageURL item;
     ar_Content := item_content item;
     ar_PublishedAt := published;
     ar_TranslatedTitle :=
       item_translatedTitle env F translationEnabled targetLang item |}.

(** ** Per-source fetch: [Fetcher.FetchFeed] *)

(** Source resolution (the script branch or the URL branch).  On failure
    the error text is recorded on the subscription and the function
    returns. *)
Definition FetchFeed_resolve (env : Env) (F : Fetcher) (feed : Feed)
  : list Event * option ParsedFeed :=
  if negb (Str.is_empty (fd_ScriptPath feed)) then
    match f_scriptExecutor F with
    | None =>
        ([EvUpdateFeedError (fd_ID feed) "Script executor not initialized"], None)
    | Some ex =>
        match ExecuteScript env ex (fd_ScriptPath feed) with
        | (evs, Err msg) => (evs ++ [EvUpdateFeedError (fd_ID feed) msg], None)
        | (evs, Ok parsedFeed) => (evs, Some parsedFeed)
        end
    end
  else
    match fp_ParseURLWithContext env (fd_URL feed) with
    | Err msg => ([EvUpdateFeedError (fd_ID feed) msg], None)
    | Ok parsedFeed => ([], Some parsedFeed)
    end.

(** After a successful resolution: clear the error, fill in the cached
    image and link when unset, and normalise every entry. *)
Definition FetchFeed_update (env : Env) (F : Fetcher) (feed : Feed)
    (parsedFeed : ParsedFeed) : list Event * list Article :=
  let clear := [EvUpdateFeedError (fd_ID feed) ""] in
  let image :=
    match pf_Image parsedFeed with
    | Some img =>
        if Str.is_empty (fd_ImageURL feed)
        then [EvUpdateFeedImage (fd_ID feed) (img_URL img)] else []
    | None => []
    end in
  let link :=
    if Str.is_empty (fd_Link feed) && negb (Str.is_empty (pf_Link parsedFeed))
    then [EvUpdateFeedLink (fd_ID feed) (pf_Link parsedFeed)] else [] in
  let translationEnabled :=
    String.eqb (db_GetSetting env "translation_enabled") "true" in
  let targetLang := db_GetSetting env "target_language" in
  (clear ++ image ++ link,
   map (make_article env F feed translationEnabled targetLang)
       (pf_Items parsedFeed)).

(** Everything before the pre-write cancellation check: the effects so far
    and, when the source resolved, the articles to save. *)
Definition FetchFeed_prepare (env : Env) (F : Fetcher) (feed : Feed)
  : list Event * option (list Article) :=
  match FetchFeed_resolve env F feed with
  | (evs, None) => (evs, None)
  | (evs, Some parsedFeed) =>
      let '(evs', articlesToSave) := FetchFeed_update env F feed parsedFeed in
      (evs ++ evs', Some articlesToSave)
  end.

(** Everything after the check: the bulk save and, when it succeeds, the
    rule hook on the re-queried articles. *)
Definition FetchFeed_persist (env : Env) (feed : Feed)
    (articlesToSave : list Article) : list Event :=
  if 0 <? length articlesToSave then
    match db_SaveArticles env articlesToSave with
    | Err _ => [EvSaveArticles articlesToSave false]
    | Ok _ =>
        EvSaveArticles articlesToSave true ::
        match db_GetArticles env (fd_ID feed) (length articlesToSave) with
        | Ok savedArticles =>
            if 0 <? length savedArticles then [EvApplyRules savedArticles]
            else []
        | Err _ => []
        end
    end
  else [].

(** [FetchFeed] run to its end; [cancelled] is what the [select] on
    [ctx.Done()] before the save observes. *)
Definition FetchFeed (env : Env) (F : Fetcher) (cancelled : bool) (feed : Feed)
  : list Event :=
  match FetchFeed_prepare env F feed with
  | (evs, None) => evs
  | (evs, Some articlesToSave) =>
      if cancelled then evs
      else evs ++ FetchFeed_persist env feed articlesToSave
  end.

(** ** The Store, as far as the properties read it back *)

Record Store := mkStore {
  st_feed_error : gmap Z string;
  st_feed_image : gmap Z string;
  st_feed_link : gmap Z string;
  st_articles : list Article;
  st_settings : gmap string string
}.

(** Modelled from the spec: the Store collaborator ([internal/database])
    is not among the sources.  [RecordFetchError], [UpdateCachedImage] and
    [UpdateCachedLink] overwrite the field of the subscription,
    [BulkSaveArticles] appends when it succeeds, [SetSetting] overwrites
    the key; running a command or the rule engine does not write to these
    fields. *)
Definition apply_event (st : Store) (ev : Event) : Store :=
  match ev with
  | EvUpdateFeedError id msg =>
      mkStore (<[id := msg]> (st_feed_error st)) (st_feed_image st)
        (st_feed_link st) (st_articles st) (st_settings st)
  | EvUpdateFeedImage id url =>
      mkStore (st_feed_error st) (<[id := url]> (st_feed_image st))
        (st_feed_link st) (st_articles st) (st_settings st)
  | EvUpdateFeedLink id url =>
      mkStore (st_feed_error st) (st_feed_image st)
        (<[id := url]> (st_feed_link st)) (st_articles st) (st_settings st)
  | EvSaveArticles arts true =>
      mkStore (st_feed_error st) (st_feed_image st) (st_feed_link st)
        (st_articles st ++ arts) (st_settings st)
  | EvSetSetting key value =>
      mkStore (st_feed_error st) (st_feed_image st) (st_feed_link st)
        (st_articles st) (<[key := value]> (st_settings st))
  | EvSaveArticles _ false | EvRun _ | EvApplyRules _ => st
  end.

Definition apply_events (st : Store) (evs : list Event) : Store :=
  fold_left apply_event evs st.

(** Store mutations among the effects (running a command is not one). *)
Definition is_store_mutation (ev : Event) : bool :=
  match ev with
  | EvRun _ => false
  | _ => true
  end.

(** ** Fetch orchestrator: [Fetcher.FetchAll] and [Fetcher.GetProgress]

    Threads of control are the invocations of [FetchAll] (each with the
    goroutines it spawned and the locals they share through the closure:
    the wait group, the semaphore channel, the context), and the
    invocations of [GetProgress].  A step is one of their statements; the
    scheduler picks the thread.  [f.mu.Lock()] is enabled only while the
    mutex is free, the channel send only while the channel holds fewer than
    five values, the channel receive only while it holds one, and
    [wg.Wait()] only once the counter is zero. *)

Record Progress := mkProgress {
  Total : Z;
  Current : Z;
  IsRunning : bool
}.

Inductive exit_kind :=
| ExitBusy     (* returned at the gate: a batch was running *)
| ExitAbort    (* returned after GetFeeds failed *)
| ExitBatch.   (* returned after Finish *)

(** Program points of [FetchAll]; each names the statement about to run. *)
Inductive call_pc :=
| CEnter                                  (* f.mu.Lock() *)
| CGate                                   (* if f.progress.IsRunning *)
| CBusyUnlock                             (* f.mu.Unlock(); return *)
| CSetRunning                             (* f.progress.IsRunning = true *)
| CResetCurrent                           (* f.progress.Current = 0 *)
| CGateUnlock                             (* f.mu.Unlock() *)
| CTranslator                             (* f.translator = t *)
| CGetFeeds                               (* feeds, err := f.db.GetFeeds() *)
| CErrLock                                (* f.mu.Lock() *)
| CErrClear                               (* f.progress.IsRunning = false *)
| CErrUnlock                              (* f.mu.Unlock(); return *)
| CTotalLock                              (* f.mu.Lock() *)
| CTotalSet                               (* f.progress.Total = len(feeds) *)
| CTotalUnlock                            (* f.mu.Unlock() *)
| CLoop (rest : list Feed)                (* range feeds; select ctx.Done() *)
| CAdd (fd : Feed) (rest : list Feed)     (* wg.Add(1) *)
| CSend (fd : Feed) (rest : list Feed)    (* sem <- struct{}{} *)
| CGo (fd : Feed) (rest : list Feed)      (* go func(fd) {...}(feed) *)
| CWait                                   (* Finish: wg.Wait() *)
| CFinLock                                (* f.mu.Lock() *)
| CFinClear                               (* f.progress.IsRunning = false *)
| CFinUnlock                              (* f.mu.Unlock() *)
| CStamp                                  (* f.db.SetSetting(...) *)
| CReturned (k : exit_kind).

(** Program points of the goroutine of one subscription.  [early] records
    that the function returned at its first cancellation check, so that the
    deferred calls run without the counter having been incremented. *)
Inductive task_pc :=
| TCheck                                  (* select ctx.Done() *)
| TFetch                                  (* f.FetchFeed: up to its check *)
| TPreSave (arts : list Article)          (* FetchFeed: select ctx.Done() *)
| TSave (arts : list Article)             (* FetchFeed: save and rules *)
| TIncLock                                (* f.mu.Lock() *)
| TInc                                    (* f.progress.Current++ *)
| TIncUnlock                              (* f.mu.Unlock() *)
| TRelease (early : bool)                 (* deferred: <-sem *)
| TWgDone (early : bool)                  (* deferred: wg.Done() *)
| TExited (early : bool).

Record task := mkTask {
  t_feed : Feed;
  t_pc : task_pc
}.

(** One invocation of [FetchAll]: its program point, its context, its
    locals and its goroutines. *)
Record call := mkCall {
  c_pc : call_pc;
  c_ctx_done : bool;
  c_feeds : list Feed;
  c_wg : nat;
  c_sem : nat;
  c_tasks : list task
}.

(** Program points of [GetProgress]: the struct copy reads the three fields
    one after the other. *)
Inductive poll_pc :=
| PLock                                   (* f.mu.Lock() *)
| PReadTotal
| PReadCurrent (total : Z)
| PReadRunning (total current : Z)
| PUnlock (snapshot : Progress)           (* deferred f.mu.Unlock() *)
| PReturned (snapshot : Progress).

Inductive origin :=
| ByCall (i : nat)
| ByTask (i j : nat).

Record State := mkState {
  fetcher : Fetcher;
  progress : Progress;
  mu : bool;
  calls : list call;
  polls : list poll_pc;
  trace : list (origin * Event)
}.

Definition sem_capacity : nat := 5.

Definition set_pc (c : call) (pc : call_pc) : call :=
  mkCall pc (c_ctx_done c) (c_feeds c) (c_wg c) (c_sem c) (c_tasks c).

Definition set_tasks (c : call) (ts : list task) : call :=
  mkCall (c_pc c) (c_ctx_done c) (c_feeds c) (c_wg c) (c_sem c) ts.

Definition set_counters (c : call) (wg sem : nat) : call :=
  mkCall (c_pc c) (c_ctx_done c) (c_feeds c) wg sem (c_tasks c).

Definition set_task_pc (c : call) (j : nat) (t : task) (pc : task_pc) : call :=
  set_tasks c (<[j := mkTask (t_feed t) pc]> (c_tasks c)).

Definition with_call (s : State) (i : nat) (c : call) : State :=
  mkState (fetcher s) (progress s) (mu s) (<[i := c]> (calls s)) (polls s) (trace s).

Definition with_poll (s : State) (k : nat) (p : poll_pc) : State :=
  mkState (fetcher s) (progress s) (mu s) (calls s) (<[k := p]> (polls s)) (trace s).

Definition with_mu (s : State) (b : bool) : State :=
  mkState (fetcher s) (progress s) b (calls s) (polls s) (trace s).

Definition with_progress (s : State) (p : Progress) : State :=
  mkState (fetcher s) p (mu s) (calls s) (polls s) (trace s).

Definition with_translator (s : State) (t : Translator) : State :=
  mkState (mkFetcher (f_scriptExecutor (fetcher s)) (Some t))
    (progress s) (mu s) (calls s) (polls s) (trace s).

Definition emit (s : State) (o : origin) (evs : list Event) : State :=
  mkState (fetcher s) (progress s) (mu s) (calls s) (polls s)
    (trace s ++ map (pair o) evs).

(** The translator set-up at the head of [FetchAll]. *)
Definition choose_translator (env : Env) : Translator :=
  let provider := db_GetSetting env "translation_provider" in
  let apiKey := db_GetSetting env "deepl_api_key" in
  if String.eqb provider "deepl" && negb (Str.is_empty apiKey)
  then DeepLTranslator apiKey else GoogleFreeTranslator.

Definition call_step (env : Env) (i : nat) (c : call) (s : State) : option State :=
  let goto pc := with_call s i (set_pc c pc) in
  match c_pc c with
  | CEnter => if mu s then None else Some (with_mu (goto CGate) true)
  | CGate =>
      Some (goto (if IsRunning (progress s) then CBusyUnlock else CSetRunning))
  | CBusyUnlock => Some (with_mu (goto (CReturned ExitBusy)) false)
  | CSetRunning =>
      Some (with_progress (goto CResetCurrent)
              (mkProgress (Total (progress s)) (Current (progress s)) true))
  | CResetCurrent =>
      Some (with_progress (goto CGateUnlock)
              (mkProgress (Total (progress s)) 0 (IsRunning (progress s))))
  | CGateUnlock => Some (with_mu (goto CTranslator) false)
  | CTranslator => Some (with_translator (goto CGetFeeds) (choose_translator env))
  | CGetFeeds =>
      match db_GetFeeds env with
      | Err _ => Some (goto CErrLock)
      | Ok feeds =>
          Some (with_call s i
                  (mkCall CTotalLock (c_ctx_done c) feeds (c_wg c) (c_sem c)
                     (c_tasks c)))
      end
  | CErrLock => if mu s then None else Some (with_mu (goto CErrClear) true)
  | CErrClear =>
      Some (with_progress (goto CErrUnlock)
              (mkProgress (Total (progress s)) (Current (progress s)) false))
  | CErrUnlock => Some (with_mu (goto (CReturned ExitAbort)) false)
  | CTotalLock => if mu s then None else Some (with_mu (goto CTotalSet) true)
  | CTotalSet =>
      Some (with_progress (goto CTotalUnlock)
              (mkProgress (Z.of_nat (length (c_feeds c)))
                 (Current (progress s)) (IsRunning (progress s))))
  | CTotalUnlock => Some (with_mu (goto (CLoop (c_feeds c))) false)
  | CLoop [] => Some (goto CWait)
  | CLoop (fd :: rest) =>
      if c_ctx_done c then Some (goto CWait) else Some (goto (CAdd fd rest))
  | CAdd fd rest =>
      Some (with_call s i
              (set_pc (set_counters c (S (c_wg c)) (c_sem c)) (CSend fd rest)))
  | CSend fd rest =>
      if c_sem c <? sem_capacity then
        Some (with_call s i
                (set_pc (set_counters c (c_wg c) (S (c_sem c))) (CGo fd rest)))
      else None
  | CGo fd rest =>
      Some (with_call s i
              (set_pc (set_tasks c (c_tasks c ++ [mkTask fd TCheck])) (CLoop rest)))
  | CWait => if c_wg c =? 0 then Some (goto CFinLock) else None
  | CFinLock => if mu s then None else Some (with_mu (goto CFinClear) true)
  | CFinClear =>
      Some (with_progress (goto CFinUnlock)
              (mkProgress (Total (progress s)) (Current (progress s)) false))
  | CFinUnlock => Some (with_mu (goto CStamp) false)
  | CStamp =>
      Some (emit (goto (CReturned ExitBatch)) (ByCall i)
              [EvSetSetting "last_article_update" (time_NowRFC3339 env)])
  | CReturned _ => None
  end.

Definition task_step (env : Env) (i j : nat) (c : call) (t : task) (s : State)
  : option State :=
  let goto pc := with_call s i (set_task_pc c j t pc) in
  match t_pc t with
  | TCheck => Some (goto (if c_ctx_done c then TRelease true else TFetch))
  | TFetch =>
      match FetchFeed_prepare env (fetcher s) (t_feed t) with
      | (evs, None) => Some (emit (goto TIncLock) (ByTask i j) evs)
      | (evs, Some arts) => Some (emit (goto (TPreSave arts)) (ByTask i j) evs)
      end
  | TPreSave arts =>
      Some (goto (if c_ctx_done c then TIncLock else TSave arts))
  | TSave arts =>
      Some (emit (goto TIncLock) (ByTask i j)
              (FetchFeed_persist env (t_feed t) arts))
  | TIncLock => if mu s then None else Some (with_mu (goto TInc) true)
  | TInc =>
      Some (with_progress (goto TIncUnlock)
              (mkProgress (Total (progress s)) (Current (progress s) + 1)
                 (IsRunning (progress s))))
  | TIncUnlock => Some (with_mu (goto (TRelease false)) false)
  | TRelease early =>
      if 0 <? c_sem c then
        Some (with_call s i
                (set_task_pc (set_counters c (c_wg c) (pred (c_sem c))) j t
                   (TWgDone early)))
      else None
  | TWgDone early =>
      Some (with_call s i
              (set_task_pc (set_counters c (pred (c_wg c)) (c_sem c)) j t
                 (TExited early)))
  | TExited _ => None
  end.

Definition poll_step (k : nat) (p : poll_pc) (s : State) : option State :=
  match p with
  | PLock => if mu s then None else Some (with_mu (with_poll s k PReadTotal) true)
  | PReadTotal => Some (with_poll s k (PReadCurrent (Total (progress s))))
  | PReadCurrent tot =>
      Some (with_poll s k (PReadRunning tot (Current (progress s))))
  | PReadRunning tot cur =>
      Some (with_poll s k (PUnlock (mkProgress tot cur (IsRunning (progress s)))))
  | PUnlock snap => Some (with_mu (with_poll s k (PReturned snap)) false)
  | PReturned _ => None
  end.

(** What the scheduler and the environment may do next. *)
Inductive label :=
| LCall (i : nat) (env : Env)        (* invocation i of FetchAll moves *)
| LTask (i j : nat) (env : Env)      (* goroutine j of invocation i moves *)
| LPoll (k : nat)                    (* invocation k of GetProgress moves *)
| LCancel (i : nat).                 (* the context of invocation i is cancelled *)

Definition step (l : label) (s : State) : option State :=
  match l with
  | LCall i env =>
      match calls s !! i with
      | Some c => call_step env i c s
      | None => None
      end
  | LTask i j env =>
      match calls s !! i with
      | Some c =>
          match c_tasks c !! j with
          | Some t => task_step env i j c t s
          | None => None
          end
      | None => None
      end
  | LPoll k =>
      match polls s !! k with
      | Some p => poll_step k p s
      | None => None
      end
  | LCancel i =>
      match calls s !! i with
      | Some c =>
          Some (with_call s i
                  (mkCall (c_pc c) true (c_feeds c) (c_wg c) (c_sem c) (c_tasks c)))
      | None => None
      end
  end.

Fixpoint exec (ls : list label) (s : State) : option State :=
  match ls with
  | [] => Some s
  | l :: ls' =>
      match step l s with
      | Some s' => exec ls' s'
      | None => None
      end
  end.

(** A fetcher fresh from [NewFetcher], with one pending invocation of
    [FetchAll] per context in [ctxs] (the flag tells whether the context is
    already cancelled) and [npolls] pending invocations of [GetProgress]. *)
Definition new_call (ctx_done : bool) : call := mkCall CEnter ctx_done [] 0 0 [].

Definition init (F : Fetcher) (ctxs : list bool) (npolls : nat) : State :=
  mkState F (mkProgress 0 0 false) false (map new_call ctxs)
    (replicate npolls PLock) [].

Inductive reachable (F : Fetcher) (ctxs : list bool) (npolls : nat) : State → Prop :=
| reach_init : reachable F ctxs npolls (init F ctxs npolls)
| reach_step s l s' :
    reachable F ctxs npolls s → step l s = Some s' → reachable F ctxs npolls s'.

(** Zero or more steps. *)
Inductive steps : State → State → Prop :=
| steps_refl s : steps s s
| steps_next s l s' s'' : step l s = Some s' → steps s' s'' → steps s s''.


Definition is_by_call (i : nat) (e : origin * Event) : bool :=
  match fst e with
  | ByCall i' => i =? i'
  | ByTask _ _ => false
  end.


Definition call_events (i : nat) (s : State) : list Event :=
  map snd (List.filter (is_by_call i) (trace s)).

(** ** Counting threads by program point

    The invariants of the orchestrator are equations between the shared
    counters and the number of threads at certain program points.  [total w l]
    sums the weight [w] over the list [l]. *)

Definition total {A} (w : A → nat) (l : list A) : nat :=
  foldr (λ x acc, w x + acc) 0 l.

Definition b2n (b : bool) : nat := if b then 1 else 0.

(** [FetchAll] holds the mutex. *)
Definition call_holds (pc : call_pc) : bool :=
  match pc with
  | CGate | CBusyUnlock | CSetRunning | CResetCurrent | CGateUnlock
  | CErrClear | CErrUnlock | CTotalSet | CTotalUnlock
  | CFinClear | CFinUnlock => true
  | _ => false
  end.

(** [FetchAll] has set the running flag and not cleared it yet. *)
Definition call_running (pc : call_pc) : bool :=
  match pc with
  | CResetCurrent | CGateUnlock | CTranslator | CGetFeeds
  | CErrLock | CErrClear | CTotalLock | CTotalSet | CTotalUnlock
  | CLoop _ | CAdd _ _ | CSend _ _ | CGo _ _ | CWait | CFinLock | CFinClear => true
  | _ => false
  end.

(** [FetchAll] has passed the gate: it runs or has run a batch of its own. *)
Definition passed_gate (pc : call_pc) : bool :=
  match pc with
  | CEnter | CGate | CBusyUnlock | CSetRunning | CReturned ExitBusy => false
  | _ => true
  end.

(** The dispatch loop is over: [FetchAll] is at [Finish] or beyond. *)
Definition after_loop (pc : call_pc) : bool :=
  match pc with
  | CWait | CFinLock | CFinClear | CFinUnlock | CStamp | CReturned ExitBatch => true
  | _ => false
  end.

(** [wg.Wait()] has returned. *)
Definition after_wait (pc : call_pc) : bool :=
  match pc with
  | CFinLock | CFinClear | CFinUnlock | CStamp | CReturned ExitBatch => true
  | _ => false
  end.

(** The running flag has been cleared at the end of a batch. *)
Definition after_clear (pc : call_pc) : bool :=
  match pc with
  | CFinUnlock | CStamp | CReturned ExitBatch => true
  | _ => false
  end.

(** The batch is running and [Current] has been reset for it. *)
Definition counts_current (pc : call_pc) : bool :=
  match pc with
  | CResetCurrent => false
  | _ => call_running pc
  end.

(** The batch is running and [Total] has been set for it. *)
Definition knows_total (pc : call_pc) : bool :=
  match pc with
  | CTotalUnlock | CLoop _ | CAdd _ _ | CSend _ _ | CGo _ _
  | CWait | CFinLock | CFinClear => true
  | _ => false
  end.

(** [wg.Add(1)] done for a goroutine that does not exist yet. *)
Definition pending_wg (pc : call_pc) : nat :=
  match pc with
  | CSend _ _ | CGo _ _ => 1
  | _ => 0
  end.

(** A semaphore slot taken for a goroutine that does not exist yet. *)
Definition pending_sem (pc : call_pc) : nat :=
  match pc with
  | CGo _ _ => 1
  | _ => 0
  end.

(** Subscriptions of the snapshot not yet turned into a goroutine. *)
Definition undispatched (pc : call_pc) : option nat :=
  match pc with
  | CLoop rest => Some (length rest)
  | CAdd _ rest | CSend _ rest | CGo _ rest => Some (S (length rest))
  | _ => None
  end.

Definition task_holds (t : task) : nat :=
  match t_pc t with
  | TInc | TIncUnlock => 1
  | _ => 0
  end.

(** The goroutine has not called [wg.Done()] yet. *)
Definition task_live (t : task) : nat :=
  match t_pc t with
  | TExited _ => 0
  | _ => 1
  end.

(** The goroutine is between the acquisition of its pool slot (done for it
    by the dispatch loop) and its release. *)
Definition task_in_slot (t : task) : nat :=
  match t_pc t with
  | TWgDone _ | TExited _ => 0
  | _ => 1
  end.

(** The goroutine has incremented [Current]. *)
Definition task_counted (t : task) : nat :=
  match t_pc t with
  | TIncUnlock | TRelease false | TWgDone false | TExited false => 1
  | _ => 0
  end.

(** The goroutine returned at its first cancellation check. *)
Definition task_early (t : task) : nat :=
  match t_pc t with
  | TRelease true | TWgDone true | TExited true => 1
  | _ => 0
  end.

(** The goroutine has observed cancellation or has left [FetchFeed]: no
    statement of [FetchFeed] is ahead of it any more. *)
Definition task_quiet (pc : task_pc) : bool :=
  match pc with
  | TCheck | TFetch | TPreSave _ | TSave _ => false
  | _ => true
  end.

Definition poll_holds (p : poll_pc) : nat :=
  match p with
  | PReadTotal | PReadCurrent _ | PReadRunning _ _ | PUnlock _ => 1
  | _ => 0
  end.

Arguments task_holds !_ /.
Arguments task_live !_ /.
Arguments task_in_slot !_ /.
Arguments task_counted !_ /.
Arguments task_early !_ /.

Definition call_lock_weight (c : call) : nat :=
  b2n (call_holds (c_pc c)) + total task_holds (c_tasks c).

Definition call_run_weight (c : call) : nat := b2n (call_running (c_pc c)).

Definition call_gate_weight (c : call) : nat := b2n (passed_gate (c_pc c)).

(** Number of goroutines of an invocation holding a pool slot. *)
Definition in_flight (c : call) : nat := total task_in_slot (c_tasks c).

(** ** The invariant of the orchestrator *)

(** What holds of one invocation, given the shared progress struct [P] and
    the number [n] of invocations that have passed the gate. *)
Record call_ok (P : Progress) (n : nat) (c : call) : Prop := {
  ok_wg : c_wg c = total task_live (c_tasks c) + pending_wg (c_pc c);
  ok_sem : c_sem c = in_flight c + pending_sem (c_pc c);
  ok_cap : c_sem c ≤ sem_capacity;
  ok_none : undispatched (c_pc c) = None → after_loop (c_pc c) = false →
            c_tasks c = [];
  ok_loop : ∀ r, undispatched (c_pc c) = Some r →
            length (c_tasks c) + r = length (c_feeds c);
  ok_done : after_loop (c_pc c) = true →
            length (c_tasks c) ≤ length (c_feeds c) ∧
            (c_ctx_done c = false → length (c_tasks c) = length (c_feeds c));
  ok_wait : after_wait (c_pc c) = true → c_wg c = 0;
  ok_early : c_ctx_done c = false → total task_early (c_tasks c) = 0;
  ok_gate : c_pc c = CSetRunning → IsRunning P = false;
  ok_current : counts_current (c_pc c) = true →
               Current P = Z.of_nat (total task_counted (c_tasks c));
  ok_total : knows_total (c_pc c) = true →
             Total P = Z.of_nat (length (c_feeds c));
  ok_final : after_clear (c_pc c) = true →
             (Current P = Z.of_nat (total task_counted (c_tasks c)) ∧
              Total P = Z.of_nat (length (c_feeds c))) ∨ 2 ≤ n;
  ok_busy : c_pc c = CBusyUnlock ∨ c_pc c = CReturned ExitBusy → 1 ≤ n
}.

(** What holds of one invocation of [GetProgress]: the fields copied so
    far are those of the struct as it is now. *)
Definition poll_ok (P : Progress) (p : poll_pc) : Prop :=
  match p with
  | PReadCurrent tot => tot = Total P
  | PReadRunning tot cur => tot = Total P ∧ cur = Current P
  | PUnlock snap => snap = P
  | _ => True
  end.

Record Inv (s : State) : Prop := {
  inv_mu : b2n (mu s) = total call_lock_weight (calls s) + total poll_holds (polls s);
  inv_running : b2n (IsRunning (progress s)) = total call_run_weight (calls s);
  inv_calls : Forall (call_ok (progress s) (total call_gate_weight (calls s))) (calls s);
  inv_polls : Forall (poll_ok (progress s)) (polls s)
}.

(** ** A batch and the batches after it *)

(** The invocation has reset [Current] for a batch of its own. *)
Definition reset_done (pc : call_pc) : bool :=
  match pc with
  | CResetCurrent => false
  | _ => passed_gate pc
  end.

(** Between the states [s0] and [s] no invocation other than [i] has reset
    the counter: whoever had not done so in [s0] has not done so in [s]. *)
Definition no_reset_since (i : nat) (s0 s : State) : Prop :=
  ∀ j c0 c, j ≠ i → calls s0 !! j = Some c0 → calls s !! j = Some c →
            reset_done (c_pc c0) = false → reset_done (c_pc c) = false.

(** The batch of invocation [i] is over with [n] on both counters, and no
    other invocation is at a statement that writes them. *)
Definition settled (i : nat) (n : Z) (s : State) : Prop :=
  (∃ c, calls s !! i = Some c ∧ after_wait (c_pc c) = true
        ∧ Z.of_nat (length (c_feeds c)) = n)
  ∧ Current (progress s) = n
  ∧ Total (progress s) = n
  ∧ ∀ j c, j ≠ i → calls s !! j = Some c → counts_current (c_pc c) = false.

(** ** A scheduler, to run the orchestrator on concrete inputs

    [run_sched env n s] performs up to [n] steps from [s], each time taking
    the first enabled thread: the invocations of [FetchAll] in order, each
    followed by its goroutines, then the invocations of [GetProgress]. *)

Definition call_labels (env : Env) (i : nat) (c : call) : list label :=
  LCall i env :: map (λ j, LTask i j env) (seq 0 (length (c_tasks c))).

Definition candidates (env : Env) (s : State) : list label :=
  concat (imap (call_labels env) (calls s)) ++ map LPoll (seq 0 (length (polls s))).

Fixpoint first_enabled (ls : list label) (s : State) : option State :=
  match ls with
  | [] => None
  | l :: ls' =>
      match step l s with
      | Some s' => Some s'
      | None => first_enabled ls' s
      end
  end.

Fixpoint run_sched (env : Env) (n : nat) (s : State) : State :=
  match n with
  | 0 => s
  | S n' =>
      match first_enabled (candidates env s) s with
      | Some s' => run_sched env n' s'
      | None => s
      end
  end.

(** ** Vocabulary of the properties *)

(** The resolution order in the words of the specification: the structured
    image, else the first enclosure whose type is an image MIME type, else
    the regular-expression scan, else nothing. *)
Definition spec_is_image_mime (ty : string) : bool := Str.HasPrefix ty "image/".

Definition spec_imageURL (item : Item) : string :=
  match it_Image item with
  | Some img => img_URL img
  | None =>
      match List.find (λ e, spec_is_image_mime (enc_Type e)) (it_Enclosures item) with
      | Some e => enc_URL e
      | None =>
          nth 1 (regexp.FindStringSubmatch img_src_pattern (item_content item)) ""
      end
  end.

(** The scan of the fallback: the text of the group of the leftmost match,
    empty when nothing matches. *)
Definition scan_img_src (text : string) : string :=
  nth 1 (regexp.FindStringSubmatch img_src_pattern text) "".


(** Effects that leave the error field of every subscription alone. *)
Definition keeps_error (ev : Event) : Prop :=
  match ev with
  | EvUpdateFeedError _ _ => False
  | _ => True
  end.

(** Cancellation has been or is about to be observed by the goroutine at
    one of its two checks, or the goroutine has left [FetchFeed]. *)
Definition cancel_observed (c : call) (t : task) : bool :=
  task_quiet (t_pc t)
  || (c_ctx_done c &&
      match t_pc t with
      | TCheck | TPreSave _ => true
      | _ => false
      end).

#[global] Instance Progress_eq_dec : EqDecision Progress.
Proof. solve_decision. Defined.

(** The thread that takes the step holds the mutex. *)
Definition label_holds (l : label) (s : State) : bool :=
  match l with
  | LCall i _ =>
      match calls s !! i with
      | Some c => call_holds (c_pc c)
      | None => false
      end
  | LTask i j _ =>
      match calls s !! i with
      | Some c =>
          match c_tasks c !! j with
          | Some t => bool_decide (task_holds t = 1)
          | None => false
          end
      | None => false
      end
  | LPoll k =>
      match polls s !! k with
      | Some p => bool_decide (poll_holds p = 1)
      | None => false
      end
  | LCancel _ => false
  end.

(** Two labels name the same thread. *)
Definition same_thread (l l' : label) : Prop :=
  match l, l' with
  | LCall i _, LCall i' _ => i = i'
  | LTask i j _, LTask i' j' _ => i = i' ∧ j = j'
  | LPoll k, LPoll k' => k = k'
  | _, _ => False
  end.

(** An invocation has written the timestamp exactly when it has returned
    through [Finish]; it performs no other effect of its own. *)
Definition stamp_ok (s : State) : Prop :=
  ∀ i c, calls s !! i = Some c →
    (c_pc c = CReturned ExitBatch →
     ∃ v, call_events i s = [EvSetSetting "last_article_update" v])
    ∧ (c_pc c ≠ CReturned ExitBatch → call_events i s = []).

(** ** Termination measure

    An upper bound on the number of steps the threads can still take when
    the store answers [GetFeeds] as in [env]: what is left of the program
    of each invocation, fourteen steps for each subscription not yet
    dispatched (four of the loop and ten of the goroutine), and what is
    left of each goroutine and of each poller. *)

Definition task_budget (t : task) : nat :=
  match t_pc t with
  | TCheck => 10
  | TFetch => 9
  | TPreSave _ => 8
  | TSave _ => 7
  | TIncLock => 6
  | TInc => 5
  | TIncUnlock => 4
  | TRelease _ => 3
  | TWgDone _ => 2
  | TExited _ => 0
  end.

Arguments task_budget !_ /.

Definition feeds_to_load (env : Env) : nat :=
  match db_GetFeeds env with
  | Ok feeds => length feeds
  | Err _ => 0
  end.

Definition pc_budget (env : Env) (feeds : list Feed) (pc : call_pc) : nat :=
  match pc with
  | CEnter => 16 + 14 * feeds_to_load env
  | CGate => 15 + 14 * feeds_to_load env
  | CBusyUnlock => 1
  | CSetRunning => 14 + 14 * feeds_to_load env
  | CResetCurrent => 13 + 14 * feeds_to_load env
  | CGateUnlock => 12 + 14 * feeds_to_load env
  | CTranslator => 11 + 14 * feeds_to_load env
  | CGetFeeds => 10 + 14 * feeds_to_load env
  | CErrLock => 3
  | CErrClear => 2
  | CErrUnlock => 1
  | CTotalLock => 9 + 14 * length feeds
  | CTotalSet => 8 + 14 * length feeds
  | CTotalUnlock => 7 + 14 * length feeds
  | CLoop rest => 6 + 14 * length rest
  | CAdd _ rest => 19 + 14 * length rest
  | CSend _ rest => 18 + 14 * length rest
  | CGo _ rest => 17 + 14 * length rest
  | CWait => 5
  | CFinLock => 4
  | CFinClear => 3
  | CFinUnlock => 2
  | CStamp => 1
  | CReturned _ => 0
  end.

Definition call_budget (env : Env) (c : call) : nat :=
  pc_budget env (c_feeds c) (c_pc c) + total task_budget (c_tasks c).

Definition poll_budget (p : poll_pc) : nat :=
  match p with
  | PLock => 5
  | PReadTotal => 4
  | PReadCurrent _ => 3
  | PReadRunning _ _ => 2
  | PUnlock _ => 1
  | PReturned _ => 0
  end.

Definition budget (env : Env) (s : State) : nat :=
  total (call_budget env) (calls s) + total poll_budget (polls s).

(** Every invocation of [FetchAll] and of [GetProgress] has returned. *)
Definition finished (s : State) : Prop :=
  Forall (λ c, ∃ k, c_pc c = CReturned k) (calls s)
  ∧ Forall (λ p, ∃ snap, p = PReturned snap) (polls s).

(** The step is one of a thread, taken in the world [env]. *)
Definition uses_env (env : Env) (l : label) : Prop :=
  match l with
  | LCall _ e | LTask _ _ e => e = env
  | LPoll _ => True
  | LCancel _ => False
  end.

(** What an invocation knows of the load, in a run where the store answers
    as in [env]: it is on the failure path only if the load fails, and the
    subscriptions it holds are those of the store. *)
Definition load_failed (pc : call_pc) : bool :=
  match pc with
  | CErrLock | CErrClear | CErrUnlock | CReturned ExitAbort => true
  | _ => false
  end.

Definition load_done (pc : call_pc) : bool :=
  match pc with
  | CTotalLock | CTotalSet | CTotalUnlock | CLoop _ | CAdd _ _ | CSend _ _
  | CGo _ _ | CWait | CFinLock | CFinClear | CFinUnlock | CStamp
  | CReturned ExitBatch => true
  | _ => false
  end.

Definition loaded_from (env : Env) (c : call) : Prop :=
  (load_failed (c_pc c) = true → ∃ m, db_GetFeeds env = Err m)
  ∧ (load_done (c_pc c) = true → db_GetFeeds env = Ok (c_feeds c))
  ∧ c_ctx_done c = false.

(** ** A sample world

    A scripts directory, a fetcher, an entry with two enclosures, a world
    where everything fails, and a world with six subscriptions, every
    second one script-based, where URLs load and yield one entry and
    scripts exit with status 1. *)

Definition scripts_root : ScriptExecutor := mkScriptExecutor "/data/scripts".

Definition fetcher0 : Fetcher := mkFetcher (Some scripts_root) None.

Definition podcast_item : Item :=
  mkItem "episode" "http://x/1" "" "" None
    [mkEnclosure "http://x/e.mp3" "audio/mpeg";
     mkEnclosure "http://x/e.jpg" "image/jpeg"] None.

(** A world in which every script exits with status 1 after writing to its
    standard error, every URL fails to load and the store is down. *)
Definition failing_env : Env :=
  mkEnv "linux" 1700000000 "2023-11-14T22:13:20Z" (λ _, "") (Err "database is locked")
    (λ _, Err "database is locked") (λ _ _, Err "database is locked")
    (λ _, Err "connection refused") (λ _, Err "EOF")
    (λ _, RunFailed "exit status 1" "boom") (λ _ _ _, Err "no translator").

(** The same world with scripts that fail without writing anything. *)
Definition silent_env : Env :=
  mkEnv "linux" 1700000000 "2023-11-14T22:13:20Z" (λ _, "") (Err "database is locked")
    (λ _, Err "database is locked") (λ _ _, Err "database is locked")
    (λ _, Err "connection refused") (λ _, Err "EOF")
    (λ _, RunFailed "exit status 1" "") (λ _ _ _, Err "no translator").

Definition script_feed : Feed := mkFeed 7 "Scripted" "script://feed.sh" "" "" "feed.sh".

Definition url_feed : Feed := mkFeed 8 "Plain" "http://example.org/rss" "" "" "".

Definition empty_store : Store := mkStore ∅ ∅ ∅ [] ∅.

Definition sample_item : Item :=
  mkItem "Hello" "http://example.org/1" "<p>text</p>" "" None [] (Some 1700000000%Z).

Definition sample_parsed : ParsedFeed :=
  mkParsedFeed "Example" "http://example.org" "An example" None [sample_item].

Definition sample_feed (n : nat) : Feed :=
  mkFeed (Z.of_nat n) "feed" "http://example.org/rss" "" ""
    (if Nat.even n then "feed.sh" else "").

Definition sample_feeds : list Feed := map sample_feed (seq 1 6).

Definition mixed_env : Env :=
  mkEnv "linux" 1700000000 "2023-11-14T22:13:20Z" (λ _, "") (Ok sample_feeds)
    (λ _, Ok tt) (λ _ _, Ok []) (λ _, Ok sample_parsed) (λ _, Err "EOF")
    (λ _, RunFailed "exit status 1" "boom") (λ _ _ _, Err "no translator").

(** A store with one URL subscription. *)
Definition single_env : Env :=
  mkEnv "linux" 1700000000 "2023-11-14T22:13:20Z" (λ _, "") (Ok [sample_feed 1])
    (λ _, Ok tt) (λ _ _, Ok []) (λ _, Ok sample_parsed) (λ _, Err "EOF")
    (λ _, RunFailed "exit status 1" "boom") (λ _ _ _, Err "no translator").

(** The batch of [mixed_env] run to its end by the scheduler. *)
Definition batch_done : State := run_sched mixed_env 200 (init fetcher0 [false] 1).

(** The same batch after 32 steps: five goroutines started, the dispatch
    loop at its sixth send. *)
Definition batch_full : State := run_sched mixed_env 32 (init fetcher0 [false] 0).

(** Two invocations: the first has started its batch, the second has just
    locked the mutex at the gate. *)
Definition gate_labels : list label :=
  replicate 5 (LCall 0 mixed_env) ++ [LCall 1 mixed_env].

(** One subscription: its goroutine has normalised its entries, then the
    context is cancelled. *)
Definition cancel_labels : list label :=
  replicate 14 (LCall 0 single_env)
  ++ [LTask 0 0 single_env; LTask 0 0 single_env; LCancel 0].

Definition cancel_state : State :=
  match exec cancel_labels (init fetcher0 [false] 0) with
  | Some s => s
  | None => init fetcher0 [false] 0
  end.

(** An invocation that has found the flag clear and is about to set it. *)
Definition set_state : State := run_sched mixed_env 2 (init fetcher0 [false] 0).

(** Two invocations run one after the other by the scheduler: the second
    batch has just come out of [wg.Wait()], and the same run at its end. *)
Definition second_wait : State :=
  run_sched mixed_env 172 (init fetcher0 [false; false] 0).

Definition second_done : State := run_sched mixed_env 10 second_wait.

(** Two invocations that overlap: the first runs its batch of one
    subscription and clears the running flag; before it writes the
    timestamp the second enters, passes the gate and resets the counter;
    then the first writes the timestamp and returns. *)
Definition overlap_labels : list label :=
  replicate 15 (LCall 0 single_env) ++ replicate 9 (LTask 0 0 single_env)
  ++ replicate 4 (LCall 0 single_env) ++ replicate 4 (LCall 1 single_env)
  ++ [LCall 0 single_env].

Definition overlap_state : State :=
  match exec overlap_labels (init fetcher0 [false; false] 0) with
  | Some s => s
  | None => init fetcher0 [false; false] 0
  end.
(** ** Further vocabulary for the orchestrator *)

(** The counter lies between zero and the published total. *)
Definition progress_in_range (P : Progress) : Prop :=
  (0 ≤ Current P ∧ Current P ≤ Total P)%Z.

(** The step is one of a thread (not a cancellation by the environment). *)
Definition is_thread_step (l : label) : bool :=
  match l with
  | LCancel _ => false
  | _ => true
  end.

(** A step of a thread in the world [env], or a cancellation. *)
Definition in_world (env : Env) (l : label) : Prop :=
  match l with
  | LCall _ e | LTask _ _ e => e = env
  | LPoll _ | LCancel _ => True
  end.

(** The effects of invocation [i] and of its goroutines. *)
Definition is_by_invocation (i : nat) (e : origin * Event) : bool :=
  match fst e with
  | ByCall i' => i =? i'
  | ByTask i' _ => i =? i'
  end.

Definition invocation_events (i : nat) (s : State) : list Event :=
  map snd (List.filter (is_by_invocation i) (trace s)).

(** Every goroutine of the invocation has run its deferred calls. *)
Definition all_exited (c : call) : Prop :=
  Forall (λ t, ∃ early, t_pc t = TExited early) (c_tasks c).
(** ** Further vocabulary for the per-source fetch *)

(** The effect concerns the subscription [id] only: a store update of that
    subscription or a save of articles that all belong to it.  Running a
    command and the rule hook are not store writes of [FetchFeed]; a
    setting is not something it may write. *)
Definition ev_targets (id : Z) (ev : Event) : Prop :=
  match ev with
  | EvUpdateFeedError id' _ | EvUpdateFeedImage id' _ | EvUpdateFeedLink id' _ =>
      id' = id
  | EvSaveArticles arts _ => Forall (λ a, ar_FeedID a = id) arts
  | EvSetSetting _ _ => False
  | EvRun _ | EvApplyRules _ => True
  end.

(** The bulk save and the rule hook. *)
Definition is_persist (ev : Event) : bool :=
  match ev with
  | EvSaveArticles _ _ | EvApplyRules _ => true
  | _ => false
  end.

Definition is_image_update (ev : Event) : bool :=
  match ev with
  | EvUpdateFeedImage _ _ => true
  | _ => false
  end.

Definition is_link_update (ev : Event) : bool :=
  match ev with
  | EvUpdateFeedLink _ _ => true
  | _ => false
  end.

Definition is_run (ev : Event) : bool :=
  match ev with
  | EvRun _ => true
  | _ => false
  end.

(** A subscription whose cached image and link are already set. *)
Definition cached_feed : Feed :=
  mkFeed 9 "Cached" "http://example.org/rss" "http://example.org" "http://example.org/i.png" "".

(** A world in which URLs load and yield a feed with an image, a link and
    one entry, and the store accepts the save and returns one article. *)
Definition rich_parsed : ParsedFeed :=
  mkParsedFeed "Example" "http://example.org/new"  "An example"
    (Some (mkImage "http://example.org/new.png")) [sample_item].

Definition rich_env : Env :=
  mkEnv "linux" 1700000000 "2023-11-14T22:13:20Z" (λ _, "") (Ok [cached_feed])
    (λ _, Ok tt)
    (λ id _, Ok [mkArticle id "Hello" "http://example.org/1" "" "<p>text</p>"
                   1700000000 ""])
    (λ _, Ok rich_parsed) (λ _, Err "EOF")
    (λ _, RunFailed "exit status 1" "boom") (λ _ _ _, Err "no translator").
(** ** Further vocabulary for paths *)

(** The string holds no separator. *)
Definition slash_free (s : string) : Prop :=
  Forall (λ c, c ≠ filepath.Separator) (Str.chars s).

(** A name: an element that [Clean] keeps as it is. *)
Definition is_name (s : string) : Prop :=
  s ≠ "" ∧ s ≠ "." ∧ s ≠ ".." ∧ slash_free s.

(** The elements [Clean] keeps for a path, outermost first. *)
Definition kept (path : string) : list string :=
  rev (fold_left (filepath.clean_step (filepath.rooted path)) (filepath.elements path) []).

(** The stack of [Clean] (most recent first): names on top of the leading
    dot-dots, of which a rooted path has none. *)
Definition clean_stack (is_rooted : bool) (out : list string) : Prop :=
  ∃ k names, out = names ++ replicate k ".." ∧ Forall is_name names
             ∧ (is_rooted = true → k = 0).
(** ** Where the scripts directory comes from *)

(** [utils.GetScriptsDir]: the [scripts] directory under the data
    directory, created if missing.  [dataDir] is what [utils.GetDataDir]
    returns and [mkdirAll] what [os.MkdirAll] answers. *)
Definition GetScriptsDir (dataDir : result string)
    (mkdirAll : string → result unit) : result string :=
  match dataDir with
  | Err m => Err m
  | Ok dataDir =>
      let scriptsDir := filepath.Join dataDir "scripts" in
      match mkdirAll scriptsDir with
      | Err m => Err m
      | Ok _ => Ok scriptsDir
      end
  end.

Definition NewScriptExecutor (scriptsDir : string) : ScriptExecutor :=
  mkScriptExecutor scriptsDir.

(** [NewFetcher]: the executor is left nil when the scripts directory is
    not available; the progress struct starts at its zero value. *)
Definition NewFetcher (dataDir : result string) (mkdirAll : string → result unit)
    (translator : option Translator) : Fetcher :=
  let executor :=
    match GetScriptsDir dataDir mkdirAll with
    | Ok scriptsDir => Some (NewScriptExecutor scriptsDir)
    | Err _ => None
    end in
  mkFetcher executor translator.

(** What [os.Stat] answers for a path: the file is there, or it is not
    ([os.IsNotExist] holds of the error), or the call fails for another
    reason (a component of the path is not a directory, the name is too
    long, access is denied). *)
Inductive StatOutcome :=
| StatFound
| StatNotExist
| StatFailed (err : string).

(** [os.IsNotExist(err)] for the error of [os.Stat]. *)
Definition IsNotExist (o : StatOutcome) : bool :=
  match o with
  | StatNotExist => true
  | _ => false
  end.

(** [utils.ValidateScriptPath] as written, obtaining the directory from
    [GetScriptsDir] first; [stat] is what [os.Stat] answers. *)
Definition ValidateScriptPath_in (dataDir : result string)
    (mkdirAll : string → result unit) (stat : string → StatOutcome)
    (scriptPath : string) : result string :=
  match GetScriptsDir dataDir mkdirAll with
  | Err m => Err m
  | Ok scriptsDir =>
      ValidateScriptPath scriptsDir (λ p, negb (IsNotExist (stat p))) scriptPath
  end.

(** The last argument of a command line. *)
Definition last_arg (c : Cmd) : string :=
  match last (cmd_Args c) with
  | Some a => a
  | None => cmd_Name c
  end.
(** ** Adding subscriptions: [AddSubscription], [AddScriptSubscription],
       [ImportSubscription] and the handler [HandleAddFeed] *)

(** [models.Feed] as the subscription functions build it, before the
    store gives it an identifier.  [nf_LastUpdated] is [None] for the zero
    time. *)
Record NewFeed := mkNewFeed {
  nf_Title : string;
  nf_URL : string;
  nf_Link : string;
  nf_Description : string;
  nf_Category : string;
  nf_ImageURL : string;
  nf_ScriptPath : string;
  nf_LastUpdated : option Z
}.

(** [title := parsedFeed.Title; if customTitle != "" { title = customTitle }] *)
Definition subscription_title (parsedFeed : ParsedFeed) (customTitle : string) : string :=
  if negb (Str.is_empty customTitle) then customTitle else pf_Title parsedFeed.

(** [if parsedFeed.Image != nil { feed.ImageURL = parsedFeed.Image.URL }] *)
Definition subscription_image (parsedFeed : ParsedFeed) : string :=
  match pf_Image parsedFeed with
  | Some img => img_URL img
  | None => ""
  end.

(** The three functions return the command run (if any), the rows handed
    to [db.AddFeed] and the error result.  [parseURL] is what
    [f.fp.ParseURL] answers and [addFeed] what the store answers. *)
Definition AddSubscription (parseURL : string → result ParsedFeed)
    (addFeed : NewFeed → result unit) (url category customTitle : string)
  : list Event * list NewFeed * result unit :=
  match parseURL url with
  | Err m => ([], [], Err m)
  | Ok parsedFeed =>
      let feed :=
        {| nf_Title := subscription_title parsedFeed customTitle;
           nf_URL := url;
           nf_Link := pf_Link parsedFeed;
           nf_Description := pf_Description parsedFeed;
           nf_Category := category;
           nf_ImageURL := subscription_image parsedFeed;
           nf_ScriptPath := "";
           nf_LastUpdated := None |} in
      ([], [feed], addFeed feed)
  end.

Definition AddScriptSubscription (env : Env) (F : Fetcher)
    (addFeed : NewFeed → result unit) (scriptPath category customTitle : string)
  : list Event * list NewFeed * result unit :=
  match f_scriptExecutor F with
  | None => ([], [], Err "script executor not initialized")
  | Some ex =>
      match ExecuteScript env ex scriptPath with
      | (evs, Err m) => (evs, [], Err m)
      | (evs, Ok parsedFeed) =>
          let feed :=
            {| nf_Title := subscription_title parsedFeed customTitle;
               nf_URL := "script://" +:+ scriptPath;
               nf_Link := pf_Link parsedFeed;
               nf_Description := pf_Description parsedFeed;
               nf_Category := category;
               nf_ImageURL := subscription_image parsedFeed;
               nf_ScriptPath := scriptPath;
               nf_LastUpdated := None |} in
          (evs, [feed], addFeed feed)
      end
  end.

Definition ImportSubscription (addFeed : NewFeed → result unit)
    (title url category : string) : list Event * list NewFeed * result unit :=
  let feed :=
    {| nf_Title := title;
       nf_URL := url;
       nf_Link := "";
       nf_Description := "";
       nf_Category := category;
       nf_ImageURL := "";
       nf_ScriptPath := "";
       nf_LastUpdated := None |} in
  ([], [feed], addFeed feed).

(** The JSON body of [HandleAddFeed] once decoded. *)
Record AddFeedRequest := mkAddFeedRequest {
  rq_URL : string;
  rq_Category : string;
  rq_Title : string;
  rq_ScriptPath : string
}.

(** What the handler writes: the status code and the body
    ([http.Error] writes the message followed by a newline). *)
Record Response := mkResponse {
  rs_Status : nat;
  rs_Body : string
}.

Definition newline : string := String "010"%char EmptyString.

Definition http_Error (msg : string) (code : nat) : Response :=
  mkResponse code (msg +:+ newline).

(** [HandleAddFeed]; [decoded] is the outcome of decoding the body. *)
Definition HandleAddFeed (env : Env) (F : Fetcher)
    (parseURL : string → result ParsedFeed) (addFeed : NewFeed → result unit)
    (decoded : result AddFeedRequest) : list Event * list NewFeed * Response :=
  match decoded with
  | Err m => ([], [], http_Error m 400)
  | Ok req =>
      let '(evs, rows, err) :=
        if negb (Str.is_empty (rq_ScriptPath req)) then
          AddScriptSubscription env F addFeed (rq_ScriptPath req) (rq_Category req)
            (rq_Title req)
        else
          AddSubscription parseURL addFeed (rq_URL req) (rq_Category req)
            (rq_Title req) in
      match err with
      | Err m => (evs, rows, http_Error m 500)
      | Ok _ => (evs, rows, mkResponse 200 "")
      end
  end.

(** Modelled from the spec: the store keeps a subscription with the
    fields it was created with and hands it back under the identifier it
    assigned. *)
Definition stored (id : Z) (row : NewFeed) : Feed :=
  mkFeed id (nf_Title row) (nf_URL row) (nf_Link row) (nf_ImageURL row)
    (nf_ScriptPath row).

(** A world for the subscription functions: scripts print a feed. *)
Definition script_env : Env :=
  mkEnv "linux" 1700000000 "2023-11-14T22:13:20Z" (λ _, "") (Ok [])
    (λ _, Ok tt) (λ _ _, Ok []) (λ _, Err "unsupported protocol scheme")
    (λ _, Ok sample_parsed) (λ _, RunOk "<rss/>") (λ _ _ _, Err "no translator").
(** ** More of Go's [strings] package *)

Module Strings.

(** [strings.HasSuffix(s, suffix)]:
    [len(s) >= len(suffix) && s[len(s)-len(suffix):] == suffix] *)
Definition HasSuffix (s suffix : string) : bool :=
  (String.length suffix <=? String.length s)
  && String.eqb
       (Str.pack (drop (String.length s - String.length suffix) (Str.chars s)))
       suffix.

(** [strings.TrimSuffix(s, suffix)] *)
Definition TrimSuffix (s suffix : string) : string :=
  if HasSuffix s suffix
  then Str.pack (take (String.length s - String.length suffix) (Str.chars s))
  else s.

(** [strings.TrimPrefix(s, prefix)] *)
Definition TrimPrefix (s pre : string) : string :=
  if Str.HasPrefix s pre
  then Str.pack (drop (String.length pre) (Str.chars s))
  else s.

Fixpoint split_on (sep : ascii) (cur s : list ascii) : list string :=
  match s with
  | [] => [Str.pack (rev cur)]
  | c :: s' =>
      if Ascii.eqb c sep
      then Str.pack (rev cur) :: split_on sep [] s'
      else split_on sep (c :: cur) s'
  end.

(** [strings.Split(s, sep)] for a separator of one byte. *)
Definition Split (s : string) (sep : ascii) : list string :=
  split_on sep [] (Str.chars s).

End Strings.

Definition newline_char : ascii := "010"%char.

(** ** FreshRSS client: [NewClient] and [Login] *)

Definition greader_suffix : string := "/api/greader.php".

(** The base address [NewClient] keeps. *)
Definition NewClient_baseURL (serverURL : string) : string :=
  if negb (Strings.HasSuffix serverURL greader_suffix)
  then Strings.TrimSuffix serverURL "/" +:+ greader_suffix
  else serverURL.

(** The token [Login] reads from the body of the response: what follows
    [Auth=] on the first line that starts with it. *)
Fixpoint first_auth (lines : list string) : option string :=
  match lines with
  | [] => None
  | line :: rest =>
      if Str.HasPrefix line "Auth=" then Some (Strings.TrimPrefix line "Auth=")
      else first_auth rest
  end.

Definition Login_token (body : string) : option string :=
  first_auth (Strings.Split body newline_char).

(** What the HTTP client answers to a request: a transport error, or a
    status code with the bytes [io.ReadAll] obtained from the body and the
    error it ended with, if any. *)
Inductive HttpOutcome :=
| HttpFailed (err : string)
| HttpResponse (status : nat) (body : string) (readErr : option string).

(** [fmt.Sprintf("%d", n)] for a status code. *)
Definition itoa (n : nat) : string := pretty n.

(** [Client.Login]: the token stored in the client, or the error.
    [reqErr] is the error of [http.NewRequestWithContext], if any. *)
Definition Login (reqErr : option string) (answer : HttpOutcome) : result string :=
  match reqErr with
  | Some e => Err ("create login request: " +:+ e)
  | None =>
      match answer with
      | HttpFailed e => Err ("login request: " +:+ e)
      | HttpResponse status body readErr =>
          if negb (status =? 200) then
            Err ("login failed with status " +:+ itoa status +:+ ": " +:+ body)
          else
            match readErr with
            | Some e => Err ("read login response: " +:+ e)
            | None =>
                match Login_token body with
                | Some token => Ok token
                | None => Err "auth token not found in response"
                end
            end
      end
  end.
(** ** FreshRSS synchronisation: [SyncService.Sync] *)

Record Category := mkCategory { cat_ID : string; cat_Label : string }.

Record Subscription := mkSubscription {
  sub_ID : string;
  sub_Title : string;
  sub_URL : string;
  sub_Categories : list Category
}.

(** [freshrss.Article]: the fields the conversion could read. *)
Record FreshArticle := mkFreshArticle {
  fa_ID : string;
  fa_Title : string;
  fa_URL : string;
  fa_Content : string;
  fa_Published : Z
}.

(** [GetSubscriptions] and [GetUnreadArticles] refuse to send a request
    while the client has no token; [answer] is the outcome of the request
    and of decoding its body. *)
Definition GetSubscriptions (authToken : string)
    (answer : result (list Subscription)) : result (list Subscription) :=
  if Str.is_empty authToken then Err "not authenticated" else answer.

Definition GetUnreadArticles (authToken : string)
    (answer : result (list FreshArticle)) : result (list FreshArticle) :=
  if Str.is_empty authToken then Err "not authenticated" else answer.

(** The server as [Sync] meets it: the outcome of [Login], the answers to
    the two requests, and the clock. *)
Record Remote := mkRemote {
  rm_Login : result string;
  rm_Subscriptions : result (list Subscription);
  rm_Unread : nat → result (list FreshArticle);
  rm_Now : Z
}.

(** The [Database] interface of the sync service, over a store state. *)
Record SyncDB (D : Type) := mkSyncDB {
  sdb_GetFeeds : D → result (list Feed);
  sdb_AddFeed : NewFeed → D → D * result Z;
  sdb_SaveArticles : list Article → D → D * result unit
}.
Arguments sdb_GetFeeds {D} _ _.
Arguments sdb_AddFeed {D} _ _ _.
Arguments sdb_SaveArticles {D} _ _ _.

(** The writes [Sync] asks of the store, with the store's answers. *)
Inductive SyncWrite :=
| SwAddFeed (row : NewFeed) (r : result Z)
| SwSaveArticles (arts : list Article) (r : result unit).

(** [localFeedMap]: address to identifier. *)
Definition local_feed_map (feeds : list Feed) : gmap string Z :=
  foldl (λ m f, <[fd_URL f := fd_ID f]> m) ∅ feeds.

Definition subscription_category (sub : Subscription) : string :=
  match sub_Categories sub with
  | c :: _ => cat_Label c
  | [] => ""
  end.

Definition subscription_row (now : Z) (sub : Subscription) : NewFeed :=
  {| nf_Title := sub_Title sub;
     nf_URL := sub_URL sub;
     nf_Link := "";
     nf_Description := "";
     nf_Category := subscription_category sub;
     nf_ImageURL := "";
     nf_ScriptPath := "";
     nf_LastUpdated := Some now |}.

(** The loop "add missing feeds": a failed insert is logged and the loop
    goes on. *)
Fixpoint add_missing {D} (db : SyncDB D) (now : Z) (localFeedMap : gmap string Z)
    (subscriptions : list Subscription) (d : D) : D * list SyncWrite :=
  match subscriptions with
  | [] => (d, [])
  | sub :: rest =>
      match localFeedMap !! sub_URL sub with
      | Some _ => add_missing db now localFeedMap rest d
      | None =>
          let row := subscription_row now sub in
          let '(d', r) := sdb_AddFeed db row d in
          let '(d'', ws) := add_missing db now localFeedMap rest d' in
          (d'', SwAddFeed row r :: ws)
      end
  end.

Definition synced_url : string := "freshrss://synced".

Definition synced_row (now : Z) : NewFeed :=
  {| nf_Title := "FreshRSS Synced Articles";
     nf_URL := synced_url;
     nf_Link := "";
     nf_Description := "Articles synced from FreshRSS server";
     nf_Category := "FreshRSS";
     nf_ImageURL := "";
     nf_ScriptPath := "";
     nf_LastUpdated := Some now |}.

Definition getOrCreateFreshRSSFeed {D} (db : SyncDB D) (now : Z) (d : D)
  : D * list SyncWrite * result Z :=
  match sdb_GetFeeds db d with
  | Err m => (d, [], Err m)
  | Ok feeds =>
      match List.find (λ f, String.eqb (fd_URL f) synced_url) feeds with
      | Some f => (d, [], Ok (fd_ID f))
      | None =>
          let '(d', r) := sdb_AddFeed db (synced_row now) d in
          (d', [SwAddFeed (synced_row now) r], r)
      end
  end.

(** The conversion of [Sync]: identifier, title, address and date; the
    remaining fields keep their zero values. *)
Definition convert_article (freshRSSFeedID : Z) (freshArt : FreshArticle) : Article :=
  {| ar_FeedID := freshRSSFeedID;
     ar_Title := fa_Title freshArt;
     ar_URL := fa_URL freshArt;
     ar_ImageURL := "";
     ar_Content := "";
     ar_PublishedAt := fa_Published freshArt;
     ar_TranslatedTitle := "" |}.

Definition Sync {D} (db : SyncDB D) (remote : Remote) (d : D)
  : D * list SyncWrite * result unit :=
  match rm_Login remote with
  | Err m => (d, [], Err ("login to FreshRSS: " +:+ m))
  | Ok token =>
      match GetSubscriptions token (rm_Subscriptions remote) with
      | Err m => (d, [], Err ("get subscriptions: " +:+ m))
      | Ok subscriptions =>
          match sdb_GetFeeds db d with
          | Err m => (d, [], Err ("get local feeds: " +:+ m))
          | Ok localFeeds =>
              let '(d1, ws1) :=
                add_missing db (rm_Now remote) (local_feed_map localFeeds)
                  subscriptions d in
              match GetUnreadArticles token (rm_Unread remote 100) with
              | Err m => (d1, ws1, Err ("get unread articles: " +:+ m))
              | Ok freshArticles =>
                  match getOrCreateFreshRSSFeed db (rm_Now remote) d1 with
                  | (d2, ws2, Err m) =>
                      (d2, ws1 ++ ws2, Err ("create FreshRSS feed: " +:+ m))
                  | (d2, ws2, Ok freshRSSFeedID) =>
                      let mrssArticles :=
                        map (convert_article freshRSSFeedID) freshArticles in
                      if 0 <? length mrssArticles then
                        match sdb_SaveArticles db mrssArticles d2 with
                        | (d3, Err m) =>
                            (d3, ws1 ++ ws2 ++ [SwSaveArticles mrssArticles (Err m)],
                             Err ("save articles: " +:+ m))
                        | (d3, Ok u) =>
                            (d3, ws1 ++ ws2 ++ [SwSaveArticles mrssArticles (Ok u)],
                             Ok tt)
                        end
                      else (d2, ws1 ++ ws2, Ok tt)
                  end
              end
          end
      end
  end.

(** The rows offered to [AddFeed], in order. *)
Definition offered_rows (ws : list SyncWrite) : list NewFeed :=
  omap (λ w, match w with SwAddFeed row _ => Some row | _ => None end) ws.

Definition saved_batches (ws : list SyncWrite) : list (list Article) :=
  omap (λ w, match w with SwSaveArticles arts _ => Some arts | _ => None end) ws.

(** A store for trying [Sync] out: a list of subscriptions and of
    articles; inserting assigns the next identifier and never fails. *)
Definition list_db : SyncDB (list Feed * list Article) :=
  {| sdb_GetFeeds := λ d, Ok (fst d);
     sdb_AddFeed := λ row d,
       let id := Z.of_nat (S (length (fst d))) in
       ((fst d ++ [stored id row], snd d), Ok id);
     sdb_SaveArticles := λ arts d, ((fst d, snd d ++ arts), Ok tt) |}.

Definition sample_remote : Remote :=
  mkRemote (Ok "tok/42")
    (Ok [mkSubscription "feed/1" "Plain" "http://example.org/rss" [];
         mkSubscription "feed/2" "News" "http://news.example/rss"
           [mkCategory "user/-/label/Daily" "Daily"]])
    (λ _, Ok [mkFreshArticle "item/1" "Hello" "http://news.example/1" "<p>hi</p>"
                1700000000])
    1700000100.

(** The sample store with one local subscription, and with the collecting
    subscription already present. *)
Definition one_feed_store : list Feed * list Article := ([url_feed], []).

Definition synced_store : list Feed * list Article :=
  ([url_feed; stored 9 (synced_row 0)], []).

(** A server whose login answers [Auth=] with nothing after it. *)
Definition tokenless_remote : Remote :=
  mkRemote (Ok "") (Ok []) (λ _, Ok []) 1700000100.
(** ** The FreshRSS handlers: [HandleSync] and [HandleTestConnection] *)

(** What [HandleSync] does: it refuses with a message and a status code,
    or it builds the sync service (whose client has the given base
    address and credentials), starts it in the background (where a
    successful [Sync] is followed by [FetchAll]) and answers 200 with the
    JSON object [status: sync_started]. *)
Inductive SyncReply :=
| SyncRefused (msg : string) (code : nat)
| SyncStarted (baseURL username password : string).

(** [enabled] is the outcome of reading the setting [freshrss_enabled];
    the other three settings are read with their errors ignored. *)
Definition HandleSync (method : string) (enabled : result string)
    (serverURL username password : string) : SyncReply :=
  if negb (String.eqb method "POST") then SyncRefused "Method not allowed" 405
  else
    match enabled with
    | Err _ => SyncRefused "Internal server error" 500
    | Ok enabled =>
        if negb (String.eqb enabled "true") then
          SyncRefused "FreshRSS sync is disabled" 400
        else if Str.is_empty serverURL || Str.is_empty username
                || Str.is_empty password then
          SyncRefused "FreshRSS settings incomplete" 400
        else SyncStarted (NewClient_baseURL serverURL) username password
    end.

Record TestRequest := mkTestRequest {
  tq_ServerURL : string;
  tq_Username : string;
  tq_APIPassword : string
}.

(** What [HandleTestConnection] writes: the 405 refusal, or (with status
    200) the JSON object of a failure with its error text, or that of a
    success with the number of subscriptions. *)
Inductive TestReply :=
| TestMethodNotAllowed
| TestFailure (error : string)
| TestSuccess (subscriptionCount : nat).

(** [login baseURL username password] is the outcome of [Login] for a
    client with these fields, [subscriptions] the answer to the
    subscription request. *)
Definition HandleTestConnection (method : string) (decoded : result TestRequest)
    (login : string → string → string → result string)
    (subscriptions : result (list Subscription)) : TestReply :=
  if negb (String.eqb method "POST") then TestMethodNotAllowed
  else
    match decoded with
    | Err _ => TestFailure "Invalid request body"
    | Ok req =>
        if Str.is_empty (tq_ServerURL req) || Str.is_empty (tq_Username req)
           || Str.is_empty (tq_APIPassword req) then
          TestFailure "FreshRSS settings incomplete"
        else
          match login (NewClient_baseURL (tq_ServerURL req)) (tq_Username req)
                  (tq_APIPassword req) with
          | Err m => TestFailure m
          | Ok token =>
              TestSuccess
                match GetSubscriptions token subscriptions with
                | Ok subs => length subs
                | Err _ => 0
                end
          end
    end.
(** ** HTML clean-up: [utils.CleanHTML]

    The function applies two regular-expression replacements and trims
    white space.  The matcher extends the one above with the operators
    the two patterns use.  It works on bytes: the literals and classes of
    the patterns are ASCII, and the one negated class is followed by a
    dash, which never occurs inside a multi-byte character. *)

Module rx.

Definition code (c : ascii) : nat := nat_of_ascii c.

(** [[a-zA-Z]], [[a-zA-Z0-9]], [\s] (tab, line feed, form feed, carriage
    return, space), [-] and [[^>]]. *)
Definition is_alpha (c : ascii) : bool :=
  ((65 <=? code c) && (code c <=? 90)) || ((97 <=? code c) && (code c <=? 122)).

Definition is_alnum (c : ascii) : bool :=
  is_alpha c || ((48 <=? code c) && (code c <=? 57)).

Definition is_space (c : ascii) : bool :=
  (code c =? 9) || (code c =? 10) || (code c =? 12) || (code c =? 13)
  || (code c =? 32).

Definition is_dash (c : ascii) : bool := Ascii.eqb c "-"%char.

Definition not_gt (c : ascii) : bool := negb (Ascii.eqb c ">"%char).

Inductive re :=
| Lit (s : string)                    (* a literal string *)
| Class (p : ascii → bool)            (* one character of a class *)
| Star (p : ascii → bool)             (* class*, greedy *)
| Plus (p : ascii → bool)             (* class+, greedy *)
| LazyStar (p : ascii → bool)         (* class*?, shortest first *)
| Alt (alts : list string)            (* literal|literal|..., in order *)
| Seq (r1 r2 : re)
| Group (n : nat) (r : re).           (* capturing group number n *)

(** Zero or more characters of the class, longest run first. *)
Fixpoint star {R} (p : ascii → bool) (s : list ascii)
    (k : list ascii → option R) : option R :=
  match s with
  | c :: s' =>
      if p c then
        match star p s' k with
        | Some r => Some r
        | None => k s
        end
      else k s
  | [] => k []
  end.

(** Zero or more characters of the class, shortest run first. *)
Fixpoint lazy_star {R} (p : ascii → bool) (s : list ascii)
    (k : list ascii → option R) : option R :=
  match k s with
  | Some r => Some r
  | None =>
      match s with
      | c :: s' => if p c then lazy_star p s' k else None
      | [] => None
      end
  end.

(** The alternatives in order; a later one is tried when an earlier one
    does not match or the rest of the pattern fails after it. *)
Fixpoint alt {R} (alts : list string) (s : list ascii)
    (k : list ascii → option R) : option R :=
  match alts with
  | [] => None
  | a :: rest =>
      match regexp.strip (Str.chars a) s with
      | Some s' =>
          match k s' with
          | Some r => Some r
          | None => alt rest s k
          end
      | None => alt rest s k
      end
  end.

(** [run r s caps k]: match [r] at the head of [s], then continue with
    [k] on the rest of the input and the texts of the groups. *)
Fixpoint run {R} (r : re) (s : list ascii) (caps : list string)
    (k : list ascii → list string → option R) : option R :=
  match r with
  | Lit l =>
      match regexp.strip (Str.chars l) s with
      | Some s' => k s' caps
      | None => None
      end
  | Class p =>
      match s with
      | c :: s' => if p c then k s' caps else None
      | [] => None
      end
  | Star p => star p s (λ s', k s' caps)
  | Plus p => regexp.plus_class p s (λ s', k s' caps)
  | LazyStar p => lazy_star p s (λ s', k s' caps)
  | Alt alts => alt alts s (λ s', k s' caps)
  | Seq r1 r2 => run r1 s caps (λ s' caps', run r2 s' caps' k)
  | Group n r1 =>
      run r1 s caps
        (λ s' caps', k s' (<[n := Str.pack (take (length s - length s') s)]> caps'))
  end.

(** A match at the head of [s]: the rest of the input and the texts of
    groups 1 and 2 (at their indices; index 0 is not used). *)
Definition match_here (r : re) (s : list ascii)
  : option (list ascii * list string) :=
  run r s [""; ""; ""] (λ s' caps, Some (s', caps)).

(** A replacement template: text and references [$n]. *)
Inductive piece :=
| Text (s : string)
| Ref (n : nat).

Definition expand (template : list piece) (caps : list string) : list ascii :=
  concat (map (λ pc, match pc with
                     | Text s => Str.chars s
                     | Ref n => Str.chars (nth n caps "")
                     end) template).

(** The scan of [ReplaceAllString] for a pattern that matches no empty
    string: the leftmost match is replaced by the expanded template and
    the scan goes on behind it.  [skip] counts the characters of the
    current match still to be passed over. *)
Fixpoint replace_from (r : re) (template : list piece) (skip : nat)
    (s : list ascii) : list ascii :=
  match s with
  | [] => []
  | c :: s' =>
      match skip with
      | S k => replace_from r template k s'
      | 0 =>
          match match_here r s with
          | Some (rest, caps) =>
              expand template caps
              ++ replace_from r template (length s' - length rest) s'
          | None => c :: replace_from r template 0 s'
          end
      end
  end.

Definition ReplaceAllString (r : re) (template : list piece) (src : string) : string :=
  Str.pack (replace_from r template 0 (Str.chars src)).

End rx.

(** The pattern [<(NAME)\s*--+>], where NAME stands for
    [[a-zA-Z][a-zA-Z0-9]*], and its replacement, the template [<$1>]. *)
Definition malformedTagRegex : rx.re :=
  rx.Seq (rx.Lit "<")
    (rx.Seq (rx.Group 1 (rx.Seq (rx.Class rx.is_alpha) (rx.Star rx.is_alnum)))
      (rx.Seq (rx.Star rx.is_space)
        (rx.Seq (rx.Lit "-") (rx.Seq (rx.Plus rx.is_dash) (rx.Lit ">"))))).

Definition malformedTagTemplate : list rx.piece :=
  [rx.Text "<"; rx.Ref 1; rx.Text ">"].

(** The pattern [<(img|br|hr|input|meta|link)\s+(ATTRS)--+>], where ATTRS
    stands for the lazy [[^>]*?], and its replacement, the template
    [<$1 $2>]. *)
Definition malformedSelfClosingRegex : rx.re :=
  rx.Seq (rx.Lit "<")
    (rx.Seq (rx.Group 1 (rx.Alt ["img"; "br"; "hr"; "input"; "meta"; "link"]))
      (rx.Seq (rx.Plus rx.is_space)
        (rx.Seq (rx.Group 2 (rx.LazyStar rx.not_gt))
          (rx.Seq (rx.Lit "-") (rx.Seq (rx.Plus rx.is_dash) (rx.Lit ">")))))).

Definition malformedSelfClosingTemplate : list rx.piece :=
  [rx.Text "<"; rx.Ref 1; rx.Text " "; rx.Ref 2; rx.Text ">"].

(** [strings.TrimSpace]: leading and trailing white space as Unicode
    defines it is removed.  The white-space characters are listed by
    their UTF-8 encodings: the six ASCII ones, U+0085, U+00A0, U+1680,
    U+2000 to U+200A, U+2028, U+2029, U+202F, U+205F and U+3000. *)
Definition utf8 (bytes : list nat) : list ascii := map ascii_of_nat bytes.

Definition space_encodings : list (list ascii) :=
  map utf8
    [[9]; [10]; [11]; [12]; [13]; [32]; [194; 133]; [194; 160]; [225; 154; 128];
     [226; 128; 128]; [226; 128; 129]; [226; 128; 130]; [226; 128; 131];
     [226; 128; 132]; [226; 128; 133]; [226; 128; 134]; [226; 128; 135];
     [226; 128; 136]; [226; 128; 137]; [226; 128; 138]; [226; 128; 168];
     [226; 128; 169]; [226; 128; 175]; [226; 129; 159]; [227; 128; 128]].

(** The input behind a leading white-space character, if it has one. *)
Fixpoint strip_any (encs : list (list ascii)) (s : list ascii) : option (list ascii) :=
  match encs with
  | [] => None
  | enc :: rest =>
      match regexp.strip enc s with
      | Some s' => Some s'
      | None => strip_any rest s
      end
  end.

(** Removal of the leading characters whose encoding is in [encs];
    [skip] counts the bytes of the current character still to be passed
    over. *)
Fixpoint trim_left (encs : list (list ascii)) (skip : nat) (s : list ascii)
  : list ascii :=
  match s with
  | [] => []
  | c :: s' =>
      match skip with
      | S k => trim_left encs k s'
      | 0 =>
          match strip_any encs s with
          | Some rest => trim_left encs (length s' - length rest) s'
          | None => s
          end
      end
  end.

Definition TrimSpace (s : string) : string :=
  let left := trim_left space_encodings 0 (Str.chars s) in
  Str.pack (rev (trim_left (map (@rev ascii) space_encodings) 0 (rev left))).

Definition CleanHTML (html : string) : string :=
  if Str.is_empty html then html
  else
    let html := rx.ReplaceAllString malformedTagRegex malformedTagTemplate html in
    let html :=
      rx.ReplaceAllString malformedSelfClosingRegex malformedSelfClosingTemplate html in
    TrimSpace html.

(** [strings.Contains(s, substr)] *)
Fixpoint contains_from (sub s : list ascii) : bool :=
  match regexp.strip sub s with
  | Some _ => true
  | None =>
      match s with
      | [] => false
      | _ :: s' => contains_from sub s'
      end
  end.

Definition Contains (s substr : string) : bool :=
  contains_from (Str.chars substr) (Str.chars s).

(** [sub] occurs in [l] as a contiguous run. *)
Definition has_sub {A} (sub l : list A) : Prop :=
  ∃ pre post, l = pre ++ sub ++ post.

(** The end of a malformed tag: two dashes and the closing bracket. *)
Definition dashes_gt : list ascii := Str.chars "-->".

(** What a match of either pattern consumes: a non-empty text that ends
    in two dashes and the closing bracket and is at least as long as what
    replaces it. *)
Definition consumes (template : list rx.piece) (s rest : list ascii)
    (caps : list string) : Prop :=
  ∃ mid, s = mid ++ rest
         ∧ 1 ≤ length mid
         ∧ length (rx.expand template caps) ≤ length mid
         ∧ has_sub dashes_gt mid.

(** ** FreshRSS client: [GetToken] and [MarkAsRead] *)







(** * Properties *)

(** ** Sums over lists *)

Section Total.
Context {A : Type} (w : A → nat).

Lemma total_app (l1 l2 : list A) : total w (l1 ++ l2) = total w l1 + total w l2.
Proof. induction l1 as [|x l1 IH]; simpl; [done | rewrite IH; lia]. Qed.

Lemma total_insert (l : list A) (i : nat) (x y : A) :
  l !! i = Some x → total w (<[i := y]> l) + w x = total w l + w y.
Proof.
  revert i. induction l as [|a l IH]; intros [|i] Hi; simplify_eq/=; [lia|].
  specialize (IH _ Hi). lia.
Qed.

Lemma total_lookup_le (l : list A) (i : nat) (x : A) :
  l !! i = Some x → w x ≤ total w l.
Proof.
  revert i. induction l as [|a l IH]; intros [|i] Hi; simplify_eq/=; [lia|].
  specialize (IH _ Hi). lia.
Qed.

Lemma total_two (l : list A) (i j : nat) (x y : A) :
  i ≠ j → l !! i = Some x → l !! j = Some y → w x + w y ≤ total w l.
Proof.
  revert i j. induction l as [|a l IH]; intros [|i] [|j] Hne Hi Hj;
    simplify_eq/=.
  - pose proof (total_lookup_le l j y Hj). lia.
  - pose proof (total_lookup_le l i x Hi). lia.
  - assert (i ≠ j) as Hne' by congruence.
    specialize (IH _ _ Hne' Hi Hj). lia.
Qed.

Lemma total_zero (l : list A) : total w l = 0 → Forall (λ x, w x = 0) l.
Proof.
  induction l as [|a l IH]; simpl; intros H; constructor; [lia|].
  apply IH. lia.
Qed.

Lemma total_ones (l : list A) : Forall (λ x, w x = 1) l → total w l = length l.
Proof. induction 1 as [|a l Ha _ IH]; simpl; [done | lia]. Qed.

Lemma total_le (w' : A → nat) (l : list A) :
  (∀ x, w x ≤ w' x) → total w l ≤ total w' l.
Proof.
  intros Hw. induction l as [|a l IH]; simpl; [lia|]. specialize (Hw a). lia.
Qed.

End Total.

Lemma Forall_insert_others {A} (P Q : A → Prop) (l : list A) (i : nat) (y : A) :
  Forall P l →
  (i < length l → Q y) →
  (∀ j z, j ≠ i → l !! j = Some z → P z → Q z) →
  Forall Q (<[i := y]> l).
Proof.
  intros HP Hy Hothers. apply Forall_lookup. intros j z Hj.
  destruct (decide (j = i)) as [->|Hne].
  - assert (i < length l) as Hlt.
    { apply lookup_lt_Some in Hj. by rewrite length_insert in Hj. }
    rewrite list_lookup_insert_eq in Hj by done. simplify_eq. auto.
  - rewrite list_lookup_insert_ne in Hj by done.
    eapply Hothers; eauto. eapply Forall_lookup_1; eauto.
Qed.

Lemma b2n_le_1 (b : bool) : b2n b ≤ 1.
Proof. destruct b; simpl; lia. Qed.

(** ** Preservation of the invariant *)

Lemma call_ok_mono P n n' c : n ≤ n' → call_ok P n c → call_ok P n' c.
Proof.
  intros Hn [H1 H2 H3 H4 H5 H6 H7 H8 H9 H10 H11 H12 H13].
  constructor; auto.
  - intros Ha. destruct (H12 Ha); [left; done | right; lia].
  - intros Ha. specialize (H13 Ha). lia.
Qed.

Lemma run_le_gate c : call_run_weight c ≤ call_gate_weight c.
Proof.
  unfold call_run_weight, call_gate_weight.
  destruct (c_pc c) as [| | | | | | | | | | | | | | | | | | | | | | |[]]; simpl; lia.
Qed.

(** While the running flag is set, some invocation has passed the gate. *)
Lemma running_le_gate s :
  Inv s → b2n (IsRunning (progress s)) ≤ total call_gate_weight (calls s).
Proof.
  intros HI. rewrite (inv_running _ HI). apply total_le, run_le_gate.
Qed.

Lemma poll_ok_idle P p : poll_holds p = 0 → poll_ok P p.
Proof. by destruct p. Qed.

(** A step that touches neither the mutex nor the progress struct. *)
Lemma Inv_local F P m cs ps tr F' tr' i c c' :
  Inv (mkState F P m cs ps tr) → cs !! i = Some c →
  call_lock_weight c' = call_lock_weight c →
  call_run_weight c' = call_run_weight c →
  call_gate_weight c' = call_gate_weight c →
  (∀ n, b2n (IsRunning P) ≤ n → call_ok P n c → call_ok P n c') →
  Inv (mkState F' P m (<[i := c']> cs) ps tr').
Proof.
  intros HI Hi Hl Hr Hg Hok. pose proof (running_le_gate _ HI) as Hge.
  destruct HI as [Hmu Hrun Hcalls Hpolls]. simpl in *.
  pose proof (total_insert call_lock_weight cs i c c' Hi).
  pose proof (total_insert call_run_weight cs i c c' Hi).
  pose proof (total_insert call_gate_weight cs i c c' Hi).
  constructor; simpl; [lia | lia | | done].
  replace (total call_gate_weight (<[i := c']> cs))
    with (total call_gate_weight cs) by lia.
  eapply Forall_insert_others; [exact Hcalls | | auto].
  intros _. apply Hok; [done|]. eapply Forall_lookup_1; eauto.
Qed.

(** A step that acquires the mutex. *)
Lemma Inv_lock F P cs ps tr i c c' :
  Inv (mkState F P false cs ps tr) → cs !! i = Some c →
  call_lock_weight c' = S (call_lock_weight c) →
  call_run_weight c' = call_run_weight c →
  call_gate_weight c' = call_gate_weight c →
  (∀ n, b2n (IsRunning P) ≤ n → call_ok P n c → call_ok P n c') →
  Inv (mkState F P true (<[i := c']> cs) ps tr).
Proof.
  intros HI Hi Hl Hr Hg Hok. pose proof (running_le_gate _ HI) as Hge.
  destruct HI as [Hmu Hrun Hcalls Hpolls]. simpl in *.
  pose proof (total_insert call_lock_weight cs i c c' Hi).
  pose proof (total_insert call_run_weight cs i c c' Hi).
  pose proof (total_insert call_gate_weight cs i c c' Hi).
  constructor; simpl; [lia | lia | | done].
  replace (total call_gate_weight (<[i := c']> cs))
    with (total call_gate_weight cs) by lia.
  eapply Forall_insert_others; [exact Hcalls | | auto].
  intros _. apply Hok; [done|]. eapply Forall_lookup_1; eauto.
Qed.

(** A step that releases the mutex. *)
Lemma Inv_unlock F P m cs ps tr i c c' :
  Inv (mkState F P m cs ps tr) → cs !! i = Some c →
  call_lock_weight c = S (call_lock_weight c') →
  call_run_weight c' = call_run_weight c →
  call_gate_weight c' = call_gate_weight c →
  (∀ n, b2n (IsRunning P) ≤ n → call_ok P n c → call_ok P n c') →
  Inv (mkState F P false (<[i := c']> cs) ps tr).
Proof.
  intros HI Hi Hl Hr Hg Hok. pose proof (running_le_gate _ HI) as Hge.
  destruct HI as [Hmu Hrun Hcalls Hpolls]. simpl in *.
  pose proof (total_insert call_lock_weight cs i c c' Hi).
  pose proof (total_insert call_run_weight cs i c c' Hi).
  pose proof (total_insert call_gate_weight cs i c c' Hi).
  pose proof (b2n_le_1 m).
  constructor; simpl; [lia | lia | | done].
  replace (total call_gate_weight (<[i := c']> cs))
    with (total call_gate_weight cs) by lia.
  eapply Forall_insert_others; [exact Hcalls | | auto].
  intros _. apply Hok; [done|]. eapply Forall_lookup_1; eauto.
Qed.

(** A step that writes the progress struct while holding the mutex. *)
Lemma Inv_mutate F P P' m cs ps tr i c c' :
  Inv (mkState F P m cs ps tr) → cs !! i = Some c →
  1 ≤ call_lock_weight c →
  call_lock_weight c' = call_lock_weight c →
  b2n (IsRunning P') + call_run_weight c = b2n (IsRunning P) + call_run_weight c' →
  call_gate_weight c ≤ call_gate_weight c' →
  (∀ n, call_ok P n c → call_ok P' (n + call_gate_weight c' - call_gate_weight c) c') →
  (∀ j y n, j ≠ i → cs !! j = Some y →
     call_lock_weight y = 0 →
     call_run_weight c + call_run_weight y ≤ 1 →
     call_gate_weight c + call_gate_weight y ≤ n →
     call_ok P n y → call_ok P' n y) →
  Inv (mkState F P' m (<[i := c']> cs) ps tr).
Proof.
  intros [Hmu Hrun Hcalls Hpolls] Hi Hheld Hl Hr Hg Hok Hothers. simpl in *.
  pose proof (total_insert call_lock_weight cs i c c' Hi).
  pose proof (total_insert call_run_weight cs i c c' Hi).
  pose proof (total_insert call_gate_weight cs i c c' Hi).
  pose proof (b2n_le_1 m). pose proof (b2n_le_1 (IsRunning P)).
  pose proof (total_lookup_le call_lock_weight cs i c Hi).
  constructor; simpl; [lia | lia | | ].
  - replace (total call_gate_weight (<[i := c']> cs))
      with (total call_gate_weight cs + call_gate_weight c' - call_gate_weight c) by lia.
    eapply Forall_insert_others; [exact Hcalls | | ].
    + intros _. apply Hok. eapply Forall_lookup_1; eauto.
    + intros j y Hne Hj Hy. simpl in Hy.
      pose proof (total_two call_lock_weight cs i j c y (not_eq_sym Hne) Hi Hj).
      pose proof (total_two call_run_weight cs i j c y (not_eq_sym Hne) Hi Hj).
      pose proof (total_two call_gate_weight cs i j c y (not_eq_sym Hne) Hi Hj).
      eapply call_ok_mono; [ | eapply (Hothers j y); eauto; lia ]. lia.
  - assert (total poll_holds ps = 0) as Hz by lia.
    apply total_zero in Hz. eapply Forall_impl; [exact Hz |].
    intros p Hp. by apply poll_ok_idle.
Qed.

Ltac norm_hyps :=
  repeat match goal with
         | H : ∀ r, Some _ = Some r → _ |- _ => specialize (H _ eq_refl)
         | H : ∀ r, None = Some r → _ |- _ => clear H
         | H : ?x = ?x → _ |- _ => specialize (H eq_refl)
         | H : true = false → _ |- _ => clear H
         | H : false = true → _ |- _ => clear H
         | H : (_ <? _) = true |- _ => apply Nat.ltb_lt in H
         | H : (_ <? _) = false |- _ => apply Nat.ltb_ge in H
         | H : (_ =? _) = true |- _ => apply Nat.eqb_eq in H
         | H : (_ =? _) = false |- _ => apply Nat.eqb_neq in H
         | H : _ ∧ _ |- _ => destruct H
         | H : _ = _ ∨ _ = _ |- _ => destruct H
         | H : IsRunning _ = _ |- _ => rewrite H in *; clear H
         end.

Ltac ok_fields :=
  let H := fresh "Hok" in
  let Hge := fresh "Hge" in
  intros ? Hge H; destruct H; constructor;
  unfold in_flight, sem_capacity in *; simpl in *;
  rewrite ?total_app, ?length_app in *; simpl in *; intros;
  simplify_eq/=; norm_hyps; subst; simpl in *;
  try discriminate; try congruence; try lia; auto; try (split; intros; first [discriminate | lia]).

Ltac mutate_fields :=
  let H := fresh "Hok" in
  intros ? H; destruct H; constructor;
  unfold in_flight, sem_capacity in *; simpl in *;
  rewrite ?total_app, ?length_app in *; simpl in *; intros;
  simplify_eq/=; norm_hyps; subst; simpl in *;
  try discriminate; try congruence; try lia; auto;
  try (split; intros; first [discriminate | lia]).

Ltac others_fields :=
  let y := fresh "y" in
  let H := fresh "Hok" in
  intros ? y ? ? ? ? ? ? H; destruct y as [[] ? ? ? ? ?];
  repeat match goal with k : exit_kind |- _ => destruct k end;
  destruct H; constructor;
  unfold call_lock_weight, call_run_weight, call_gate_weight in *;
  simpl in *; intros; try discriminate; try lia; auto;
  try (right; lia).

Ltac weights :=
  unfold call_lock_weight, call_run_weight, call_gate_weight; simpl;
  rewrite ?total_app; simpl; lia.

Lemma Inv_call_step env i c s s' :
  Inv s → calls s !! i = Some c → call_step env i c s = Some s' → Inv s'.
Proof.
  intros HI Hi Hs. destruct s as [F P m cs ps tr].
  destruct c as [pc ctx feeds wg sem ts]. unfold call_step in Hs. simpl in *.
  destruct pc; simpl in Hs;
    repeat match type of Hs with
           | context [if ?b then _ else _] => destruct b eqn:?
           | context [match ?x with _ => _ end] => destruct x eqn:?
           end; simplify_eq;
    unfold with_mu, with_progress, with_call, with_translator, emit, set_pc,
      set_counters, set_tasks; simpl.
  all: try solve [ eapply Inv_local; [exact HI | exact Hi | weights .. | ok_fields] ].
  all: try solve [ eapply Inv_lock; [exact HI | exact Hi | weights .. | ok_fields] ].
  all: try solve [ eapply Inv_unlock; [exact HI | exact Hi | weights .. | ok_fields] ].
  all: pose proof (Forall_lookup_1 _ _ _ _ (inv_calls _ HI) Hi) as Hc;
    pose proof (total_lookup_le call_run_weight _ _ _ Hi) as Hrw;
    pose proof (inv_running _ HI) as Hrun; simpl in Hc, Hrw, Hrun;
    unfold call_run_weight at 1 in Hrw; simpl in Hrw.
  all: eapply Inv_mutate; [exact HI | exact Hi | weights | weights | | weights | mutate_fields | others_fields ].
  all: try (destruct Hc as [_ _ _ _ _ _ _ _ Hgate _ _ _ _]; simpl in *;
            unfold call_run_weight; simpl; try rewrite Hgate by done;
            destruct (IsRunning P); simpl in *; lia).
Qed.

Ltac task_totals ts j Hj :=
  match goal with
  | |- context [<[j := ?t']> ts] =>
      pose proof (total_insert task_holds ts j _ t' Hj);
      pose proof (total_insert task_live ts j _ t' Hj);
      pose proof (total_insert task_in_slot ts j _ t' Hj);
      pose proof (total_insert task_counted ts j _ t' Hj);
      pose proof (total_insert task_early ts j _ t' Hj);
      pose proof (length_insert ts j t');
      pose proof (total_lookup_le task_holds ts j _ Hj);
      pose proof (total_lookup_le task_live ts j _ Hj);
      pose proof (total_lookup_le task_in_slot ts j _ Hj)
  end.

Ltac use_hyps :=
  repeat match goal with
         | H : ?A → _, H' : ?A |- _ =>
             match type of A with Prop => specialize (H H') end
         | H : ∀ r, ?x = Some r → _, H' : ?x = Some ?r0 |- _ => specialize (H r0 H')
         end.

Ltac task_fields H :=
  destruct H; constructor;
  unfold in_flight, sem_capacity in *; simpl in *; intros;
  norm_hyps; use_hyps; norm_hyps; subst; simpl in *; simplify_eq/=;
  try discriminate; try congruence; try lia; auto;
  try (split; intros; use_hyps; first [discriminate | lia]);
  try (match goal with H : _ ∨ _ |- _ => destruct H; [left; split; lia | right; lia] end).

Ltac task_ok_fields :=
  let H := fresh "Hok" in
  let Hge := fresh "Hge" in
  intros ? Hge H; task_fields H.

Ltac task_mutate_fields :=
  let H := fresh "Hok" in
  intros ? H; task_fields H.

(** A goroutine exists only while its invocation runs the batch. *)
Lemma live_task_running P n c j t :
  call_ok P n c → c_tasks c !! j = Some t → task_live t = 1 →
  counts_current (c_pc c) = true ∧ after_clear (c_pc c) = false.
Proof.
  intros [Hwg _ _ Hnone _ _ Hwait _ _ _ _ _ _] Hj Hlive.
  pose proof (total_lookup_le task_live _ _ _ Hj) as Hle.
  destruct c as [pc ctx feeds wg sem ts]; simpl in *.
  destruct pc as [| | | | | | | | | | | | | | | | | | | | | | |[]]; simpl in *;
    norm_hyps; subst; simplify_eq/=; try done; lia.
Qed.

Lemma Inv_task_step env i j c t s s' :
  Inv s → calls s !! i = Some c → c_tasks c !! j = Some t →
  task_step env i j c t s = Some s' → Inv s'.
Proof.
  intros HI Hi Hj Hs. destruct s as [F P m cs ps tr].
  pose proof (Forall_lookup_1 _ _ _ _ (inv_calls _ HI) Hi) as Hc.
  destruct c as [pc ctx feeds wg sem ts]. destruct t as [fd tpc].
  unfold task_step in Hs. simpl in *.
  destruct tpc; simpl in Hs;
    repeat match type of Hs with
           | context [if ?b then _ else _] => destruct b eqn:?
           | context [match ?x with _ => _ end] => destruct x eqn:?
           end; simplify_eq;
    unfold with_mu, with_progress, with_call, emit, set_task_pc, set_pc,
      set_counters, set_tasks; simpl;
    task_totals ts j Hj; simpl in *.
  all: try solve [ eapply Inv_local; [exact HI | exact Hi | weights .. | task_ok_fields] ].
  all: try solve [ eapply Inv_lock; [exact HI | exact Hi | weights .. | task_ok_fields] ].
  all: try solve [ eapply Inv_unlock; [exact HI | exact Hi | weights .. | task_ok_fields] ].
  (* f.progress.Current++ *)
  destruct (live_task_running _ _ _ _ _ Hc Hj eq_refl) as [Hcount Hclear].
  simpl in Hcount, Hclear.
  assert (call_running pc = true) as Hrunning by (by destruct pc).
  assert (passed_gate pc = true) as Hpassed by (by destruct pc as [| | | | | | | | | | | | | | | | | | | | | | |[]]).
  eapply Inv_mutate; [exact HI | exact Hi | weights | weights | | weights | | ].
  - unfold call_run_weight; simpl. lia.
  - task_mutate_fields.
  - unfold call_run_weight, call_gate_weight, call_lock_weight. simpl.
    rewrite Hrunning, Hpassed. simpl. clear Hc.
    intros ? y ? ? ? ? ? ? Hok; destruct y as [[] ? ? ? ? ?];
      repeat match goal with k : exit_kind |- _ => destruct k end;
      destruct Hok; constructor; simpl in *; intros; try discriminate; try lia; auto;
      try (right; lia).
Qed.

Lemma Inv_poll_step k p s s' :
  Inv s → polls s !! k = Some p → poll_step k p s = Some s' → Inv s'.
Proof.
  intros [Hmu Hrun Hcalls Hpolls] Hk Hs. destruct s as [F P m cs ps tr].
  simpl in *.
  pose proof (Forall_lookup_1 _ _ _ _ Hpolls Hk) as Hp.
  pose proof (b2n_le_1 m).
  destruct p; simpl in Hs; try destruct m; simplify_eq;
    unfold with_mu, with_poll; simpl;
    match goal with
    | |- context [<[k := ?p']> ps] =>
        pose proof (total_insert poll_holds ps k _ p' Hk)
    end;
    constructor; simpl in *; try lia; try done;
    try (apply Forall_insert; simpl; auto).
  all: destruct Hp as [-> ->]; by destruct P.
Qed.

Lemma Inv_cancel i c s :
  Inv s → calls s !! i = Some c →
  Inv (with_call s i
         (mkCall (c_pc c) true (c_feeds c) (c_wg c) (c_sem c) (c_tasks c))).
Proof.
  intros HI Hi. destruct s as [F P m cs ps tr]. destruct c as [pc ctx feeds wg sem ts].
  unfold with_call. simpl in *.
  eapply Inv_local; [exact HI | exact Hi | weights .. | ok_fields; use_hyps; norm_hyps; auto; split; [lia | intros; discriminate]].
Qed.

Lemma Inv_init F ctxs npolls : Inv (init F ctxs npolls).
Proof.
  constructor; simpl.
  - assert (total call_lock_weight (map new_call ctxs) = 0) as ->
      by (induction ctxs; simpl; auto).
    assert (total poll_holds (replicate npolls PLock) = 0) as ->
      by (induction npolls; simpl; auto).
    done.
  - induction ctxs; simpl; auto.
  - apply Forall_forall. intros c Hc. apply list_elem_of_fmap in Hc as (b & -> & _).
    constructor; unfold sem_capacity; simpl; intros; try done; try lia.
    match goal with H : _ ∨ _ |- _ => by destruct H end.
  - apply Forall_forall. intros p Hp. apply elem_of_replicate in Hp as [-> _].
    done.
Qed.

Lemma Inv_step l s s' : Inv s → step l s = Some s' → Inv s'.
Proof.
  intros HI Hs. destruct l as [i env|i j env|k|i]; simpl in Hs.
  - destruct (calls s !! i) as [c|] eqn:Hi; [|done].
    by eapply Inv_call_step.
  - destruct (calls s !! i) as [c|] eqn:Hi; [|done].
    destruct (c_tasks c !! j) as [t|] eqn:Hj; [|done].
    by eapply Inv_task_step.
  - destruct (polls s !! k) as [p|] eqn:Hk; [|done].
    by eapply Inv_poll_step.
  - destruct (calls s !! i) as [c|] eqn:Hi; [|done].
    simplify_eq. by apply Inv_cancel.
Qed.

Lemma reachable_Inv F ctxs npolls s : reachable F ctxs npolls s → Inv s.
Proof.
  induction 1 as [|s l s' _ IH Hs]; [apply Inv_init | by eapply Inv_step].
Qed.

(** ** Strings and paths *)

Lemma is_empty_true (s : string) : Str.is_empty s = true ↔ s = "".
Proof. destruct s; simpl; split; congruence. Qed.

Lemma is_empty_false (s : string) : Str.is_empty s = false ↔ s ≠ "".
Proof. destruct s; simpl; split; congruence. Qed.

Lemma append_cons (a : ascii) (s t : string) :
  String a s +:+ t = String a (s +:+ t).
Proof. reflexivity. Qed.

Lemma append_empty_r (s : string) : s +:+ "" = s.
Proof. induction s as [|a s IH]; [done|]. by rewrite append_cons, IH. Qed.

Lemma append_assoc (a b c : string) : (a +:+ b) +:+ c = a +:+ (b +:+ c).
Proof. induction a as [|x a IH]; [done|]. by rewrite !append_cons, IH. Qed.

Lemma contains_suffix (pre s : string) : Str.contains (pre +:+ s) s.
Proof. exists pre, "". by rewrite append_empty_r. Qed.

Example Clean_dotdot : filepath.Clean "/data/scripts/../../etc/passwd" = "/etc/passwd".
Proof. reflexivity. Qed.

Example Clean_relative : filepath.Clean "a//b/./c/../d/" = "a/b/d".
Proof. reflexivity. Qed.

Example Clean_leading_dotdot : filepath.Clean "../../x/.." = "../..".
Proof. reflexivity. Qed.

Example Clean_above_root : filepath.Clean "/../.." = "/".
Proof. reflexivity. Qed.

Example Ext_last_dot : filepath.Ext "/data/scripts/a.b/feed.PY" = ".PY".
Proof. reflexivity. Qed.

Example Ext_no_dot : filepath.Ext "/data/scripts/a.b/feed" = "".
Proof. reflexivity. Qed.

(** ** Script runner *)

(** The path named by the specification is refused, and nothing is run. *)
Example ExecuteScript_rejects_etc_passwd (env : Env) :
  ExecuteScript env scripts_root "../../etc/passwd" = ([], Err invalid_script_path).
Proof. reflexivity. Qed.

(** A script below the root is run with the root as working directory. *)
Example ExecuteScript_runs_inside (env : Env) :
  ∃ r, ExecuteScript env scripts_root "news/feed.rb"
       = ([EvRun (mkCmd "ruby" ["/data/scripts/news/feed.rb"] "/data/scripts")], r).
Proof.
  unfold ExecuteScript. simpl.
  destruct (os_Run env _) as [out|err stderr].
  - destruct (fp_ParseString env out); eauto.
  - destruct (Str.is_empty stderr); eauto.
Qed.

(** C4, at the failing input.  The scripts root is [/data/scripts] and the
    script path is [../scripts_evil/run.py].  The resolved path
    [/data/scripts_evil/run.py] is outside the root, element by element,
    yet it has the root as a string prefix: the security check of
    [ExecuteScript] accepts it and the interpreter is run on it, on every
    platform.  [ValidateScriptPath] accepts the same path. *)
Theorem ExecuteScript_sibling_escapes (env : Env) :
  script_fullPath scripts_root "../scripts_evil/run.py" = "/data/scripts_evil/run.py"
  ∧ filepath.within "/data/scripts" "/data/scripts_evil/run.py" = false
  ∧ (∃ cmd r,
       ExecuteScript env scripts_root "../scripts_evil/run.py" = ([EvRun cmd], r)
       ∧ cmd_Args cmd = ["/data/scripts_evil/run.py"])
  ∧ ValidateScriptPath "/data/scripts" (λ _, true) "../scripts_evil/run.py"
    = Ok "/data/scripts_evil/run.py".
Proof.
  split; [reflexivity|]. split; [reflexivity|]. split; [|reflexivity].
  unfold ExecuteScript. simpl. unfold script_command. simpl.
  destruct (is_windows env); simpl;
    (destruct (os_Run env _) as [out|err stderr];
     [ destruct (fp_ParseString env out); eauto
     | destruct (Str.is_empty stderr); eauto ]).
Qed.

(** ** The image pattern: what a match is *)

Lemma strip_sound (lit s s' : list ascii) :
  regexp.strip lit s = Some s' → s = lit ++ s'.
Proof.
  revert s. induction lit as [|a lit IH]; intros [|c s]; simpl; intros H;
    simplify_eq; try done.
  destruct (Ascii.eqb a c) eqn:E; [|done].
  apply Ascii.eqb_eq in E as ->. f_equal. by apply IH.
Qed.

Lemma plus_class_sound {R} (p : ascii → bool) (s : list ascii)
    (k : list ascii → option R) (r : R) :
  regexp.plus_class p s k = Some r →
  ∃ run rest, s = run ++ rest ∧ run ≠ [] ∧ Forall (λ c, p c = true) run
              ∧ k rest = Some r.
Proof.
  revert r. induction s as [|c s IH]; simpl; intros r H; [done|].
  destruct (p c) eqn:Hc; [|done].
  destruct (regexp.plus_class p s k) as [r'|] eqn:Hrec.
  - simplify_eq. destruct (IH r eq_refl) as (run & rest & -> & _ & Hall & Hk).
    exists (c :: run), rest. repeat split; try done. by constructor.
  - exists [c], s. repeat split; try done. by repeat constructor.
Qed.

Lemma take_app_length_diff {A} (run rest : list A) :
  take (length (run ++ rest) - length rest) (run ++ rest) = run.
Proof.
  rewrite length_app. replace (length run + length rest - length rest)
    with (length run) by lia.
  by rewrite take_app_length.
Qed.

(** A match of the pattern at the head of [s]: the text starts with the
    tag name, a non-empty run without closing bracket, the attribute, and a
    non-empty quoted value without quote or bracket, which is the text of
    the group. *)
Lemma img_src_match_sound (s : list ascii) (m : list string) :
  regexp.match_here img_src_pattern s = Some m →
  ∃ mid url rest,
    s = Str.chars "<img" ++ mid ++ Str.chars ("src=" +:+ dquote) ++ url
        ++ Str.chars dquote ++ rest
    ∧ mid ≠ [] ∧ Forall (λ c, regexp.outside ">" c = true) mid
    ∧ url ≠ [] ∧ Forall (λ c, regexp.outside (dquote +:+ ">") c = true) url
    ∧ nth 1 m "" = Str.pack url
    ∧ length m = 2.
Proof.
  unfold regexp.match_here, img_src_pattern. cbn [regexp.run].
  destruct (regexp.strip (Str.chars "<img") s) as [s1|] eqn:H1; [|done].
  apply strip_sound in H1 as ->.
  intros (mid & s2 & -> & Hmid & Hmid' & H2)%plus_class_sound.
  destruct (regexp.strip (Str.chars ("src=" +:+ dquote)) s2) as [s3|] eqn:H3; [|done].
  apply strip_sound in H3 as ->.
  apply plus_class_sound in H2 as (url & s4 & -> & Hurl & Hurl' & H4).
  destruct (regexp.strip (Str.chars dquote) s4) as [s5|] eqn:H5; [|done].
  apply strip_sound in H5 as ->. simplify_eq.
  exists mid, url, s5. repeat split; try done.
  cbn [nth]. by rewrite take_app_length_diff.
Qed.

Lemma find_sound (r : regexp.re) (s : list ascii) :
  regexp.find r s = []
  ∨ ∃ before s0, s = before ++ s0 ∧ regexp.match_here r s0 = Some (regexp.find r s).
Proof.
  induction s as [|c s IH]; simpl.
  - destruct (regexp.match_here r []) as [m|] eqn:H; [|by left].
    right. by exists [], [].
  - destruct (regexp.match_here r (c :: s)) as [m|] eqn:H.
    + right. by exists [], (c :: s).
    + destruct IH as [IH|(before & s0 & -> & IH)]; [by left|].
      right. by exists (c :: before), s0.
Qed.

(** What the scan of the fallback returns, when it returns something: a
    value that stands, quoted, after [src=] inside an [img] tag of the
    text. *)
Lemma scan_img_src_sound (text : string) :
  scan_img_src text ≠ "" →
  ∃ before mid rest,
    Str.chars text
    = before ++ Str.chars "<img" ++ mid ++ Str.chars ("src=" +:+ dquote)
      ++ Str.chars (scan_img_src text) ++ Str.chars dquote ++ rest
    ∧ Forall (λ c, regexp.outside ">" c = true) mid
    ∧ Forall (λ c, regexp.outside (dquote +:+ ">") c = true)
        (Str.chars (scan_img_src text)).
Proof.
  unfold scan_img_src, regexp.FindStringSubmatch. intros Hne.
  destruct (find_sound img_src_pattern (Str.chars text))
    as [Hnil | (before & s0 & Htext & Hm)].
  - rewrite Hnil in Hne. done.
  - apply img_src_match_sound in Hm
      as (mid & url & rest & -> & _ & Hmid & _ & Hurl & Hnth & _).
    rewrite Hnth, Htext.
    assert (Str.chars (Str.pack url) = url) as ->
      by apply String.list_ascii_of_string_of_list_ascii.
    by exists before, mid, rest.
Qed.

(** ** Article normaliser *)

(** The two entries of the specification's image-fallback property. *)
Example imageURL_enclosure_wins :
  item_imageURL
    (mkItem "t" "l" "" "<img src='http://x/c.jpg'>" None
       [mkEnclosure "http://x/e.jpg" "image/jpeg"] None)
  = "http://x/e.jpg".
Proof. reflexivity. Qed.

Example imageURL_content_scan :
  item_imageURL
    (mkItem "t" "l" "" ("<img src=" +:+ dquote +:+ "http://x/c.jpg" +:+ dquote +:+ ">")
       None [] None)
  = "http://x/c.jpg".
Proof. reflexivity. Qed.

Example imageURL_description_scan :
  item_imageURL
    (mkItem "t" "l" ("<p><img alt=a src=" +:+ dquote +:+ "http://x/d.png" +:+ dquote +:+ "></p>")
       "" None [] None)
  = "http://x/d.png".
Proof. reflexivity. Qed.

(** C5, counterexample.  An entry without structured image whose second
    enclosure is a JPEG image: the specification's order yields the
    enclosure, the code yields nothing, because only the enclosure at index
    0 is looked at. *)
Lemma imageURL_second_enclosure_ignored :
  spec_imageURL podcast_item = "http://x/e.jpg" ∧ item_imageURL podcast_item = "".
Proof. split; reflexivity. Qed.

Lemma scan_length (text : string) :
  (1 <? length (regexp.FindStringSubmatch img_src_pattern text)) = false →
  scan_img_src text = "".
Proof.
  unfold scan_img_src. intros H%Nat.ltb_ge.
  destruct (regexp.FindStringSubmatch _ _) as [|a [|b l]]; simpl in *; [done | done | lia].
Qed.

(** C5, as the code has it.  For every entry the image URL is: (1) the URL
    of the structured image when the entry has one and that URL is not
    empty; (2) when the entry has no structured image, the URL of the
    enclosure at index 0 provided its declared type is exactly
    [image/jpeg] and its URL is not empty; (3) in every other case the
    group of the leftmost match of the pattern in the content, or in the
    description when the content is empty; which is (4) the empty string
    when nothing matches. *)
Theorem item_imageURL_order (item : Item) :
  (∀ img, it_Image item = Some img → img_URL img ≠ "" →
     item_imageURL item = img_URL img)
  ∧ (∀ e0 rest, it_Image item = None → it_Enclosures item = e0 :: rest →
       enc_Type e0 = "image/jpeg" → enc_URL e0 ≠ "" →
       item_imageURL item = enc_URL e0)
  ∧ ((it_Image item = Some (mkImage ""))
     ∨ (it_Image item = None ∧ it_Enclosures item = [])
     ∨ (it_Image item = None ∧
        ∃ e0 rest, it_Enclosures item = e0 :: rest ∧
                   (enc_Type e0 ≠ "image/jpeg" ∨ enc_URL e0 = "")) →
     item_imageURL item =
       scan_img_src (if Str.is_empty (it_Content item)
                     then it_Description item else it_Content item))
  ∧ (regexp.FindStringSubmatch img_src_pattern
       (if Str.is_empty (it_Content item)
        then it_Description item else it_Content item) = [] →
     scan_img_src (if Str.is_empty (it_Content item)
                   then it_Description item else it_Content item) = "").
Proof.
  assert (Hscan : ∀ text,
             (if 1 <? length (regexp.FindStringSubmatch img_src_pattern text)
              then nth 1 (regexp.FindStringSubmatch img_src_pattern text) ""
              else "") = scan_img_src text).
  { intros text. destruct (1 <? _) eqn:E; [done | by rewrite scan_length]. }
  unfold item_imageURL, item_content. repeat split.
  - intros img -> Hne. apply is_empty_false in Hne. by rewrite Hne.
  - intros e0 rest -> -> Hty Hne. rewrite Hty. simpl.
    apply is_empty_false in Hne. by rewrite Hne.
  - intros [-> | [[-> ->] | (-> & e0 & rest & -> & Hcase)]]; simpl.
    + apply Hscan.
    + apply Hscan.
    + destruct (String.eqb (enc_Type e0) "image/jpeg") eqn:Hty.
      * apply String.eqb_eq in Hty. destruct Hcase as [Hcase | Hurl]; [done|].
        rewrite Hurl. simpl. apply Hscan.
      * simpl. apply Hscan.
  - intros H. unfold scan_img_src. by rewrite H.
Qed.

(** An entry without structured image whose first enclosure is a JPEG
    resolves to that enclosure. *)
Lemma item_imageURL_order_witness :
  item_imageURL
    (mkItem "t" "l" "" "" None [mkEnclosure "http://x/e.jpg" "image/jpeg"] None)
  = "http://x/e.jpg".
Proof.
  exact (proj1 (proj2 (item_imageURL_order
           (mkItem "t" "l" "" "" None [mkEnclosure "http://x/e.jpg" "image/jpeg"] None)))
           (mkEnclosure "http://x/e.jpg" "image/jpeg") [] eq_refl eq_refl eq_refl
           ltac:(discriminate)).
Defined.

(** ** Per-source fetch *)

Lemma apply_events_app (st : Store) (a b : list Event) :
  apply_events st (a ++ b) = apply_events (apply_events st a) b.
Proof. apply fold_left_app. Qed.

Lemma apply_events_cons (st : Store) (ev : Event) (evs : list Event) :
  apply_events st (ev :: evs) = apply_events (apply_event st ev) evs.
Proof. reflexivity. Qed.

Lemma apply_events_keeps_error (evs : list Event) (st : Store) :
  Forall keeps_error evs →
  st_feed_error (apply_events st evs) = st_feed_error st.
Proof.
  intros H. revert st. induction H as [|ev evs Hev _ IH]; intros st; [done|].
  rewrite apply_events_cons, IH.
  destruct ev as [| | | |? []| |]; simpl in *; done.
Qed.

Lemma apply_events_runs (evs : list Event) (st : Store) :
  Forall (λ ev, is_store_mutation ev = false) evs → apply_events st evs = st.
Proof.
  intros H. revert st. induction H as [|ev evs Hev _ IH]; intros st; [done|].
  rewrite apply_events_cons, IH. by destruct ev.
Qed.

(** [ExecuteScript] performs no effect but running the command. *)
Lemma ExecuteScript_events (env : Env) (ex : ScriptExecutor) (path : string) :
  Forall (λ ev, is_store_mutation ev = false) (fst (ExecuteScript env ex path)).
Proof.
  unfold ExecuteScript.
  destruct (negb _); [constructor|].
  destruct (script_command _ _ _) as [[name args]|]; [|constructor].
  destruct (os_Run _ _) as [out|err stderr].
  - destruct (fp_ParseString _ _); repeat constructor.
  - destruct (negb _); repeat constructor.
Qed.

Lemma FetchFeed_update_events (env : Env) (F : Fetcher) (feed : Feed) (pf : ParsedFeed) :
  ∃ rest, fst (FetchFeed_update env F feed pf)
          = EvUpdateFeedError (fd_ID feed) "" :: rest ∧ Forall keeps_error rest.
Proof.
  unfold FetchFeed_update. simpl. eexists; split; [done|].
  apply Forall_app; split.
  - destruct (pf_Image pf); [destruct (Str.is_empty _)|]; repeat constructor.
  - destruct (_ && _); repeat constructor.
Qed.

Lemma FetchFeed_persist_events (env : Env) (feed : Feed) (arts : list Article) :
  Forall keeps_error (FetchFeed_persist env feed arts).
Proof.
  unfold FetchFeed_persist. destruct (0 <? _); [|constructor].
  destruct (db_SaveArticles _ _); [|repeat constructor].
  constructor; [done|].
  destruct (db_GetArticles _ _ _); [destruct (0 <? _)|]; repeat constructor.
Qed.

(** A fetch whose source resolved leaves the error field of the
    subscription empty. *)
Lemma FetchFeed_success_clears (env : Env) (F : Fetcher) (cancelled : bool)
    (feed : Feed) (evs : list Event) (pf : ParsedFeed) (st : Store) :
  FetchFeed_resolve env F feed = (evs, Some pf) →
  st_feed_error (apply_events st (FetchFeed env F cancelled feed)) !! fd_ID feed
  = Some "".
Proof.
  intros Hres.
  assert (Forall (λ ev, is_store_mutation ev = false) evs) as Hruns.
  { unfold FetchFeed_resolve in Hres.
    destruct (negb _).
    - destruct (f_scriptExecutor F) as [ex|]; [|done].
      pose proof (ExecuteScript_events env ex (fd_ScriptPath feed)) as Hev.
      destruct (ExecuteScript _ _ _) as [evs0 [p|m]]; simplify_eq; done.
    - destruct (fp_ParseURLWithContext _ _); simplify_eq. constructor. }
  unfold FetchFeed, FetchFeed_prepare. rewrite Hres.
  destruct (FetchFeed_update_events env F feed pf) as (rest & Hupd & Hrest).
  destruct (FetchFeed_update env F feed pf) as [evs' arts]. simpl in Hupd. subst evs'.
  assert (∀ tail, Forall keeps_error tail →
            st_feed_error (apply_events st (evs ++ (EvUpdateFeedError (fd_ID feed) "" :: rest) ++ tail))
              !! fd_ID feed = Some "") as Hgen.
  { intros tail Htail.
    rewrite apply_events_app, (apply_events_runs evs) by done.
    change ((EvUpdateFeedError (fd_ID feed) "" :: rest) ++ tail)
      with ([EvUpdateFeedError (fd_ID feed) ""] ++ (rest ++ tail)).
    rewrite apply_events_app, apply_events_keeps_error
      by (apply Forall_app; done).
    simpl. apply lookup_insert_eq. }
  destruct cancelled.
  - specialize (Hgen [] (Forall_nil_2 _)). by rewrite app_nil_r in Hgen.
  - rewrite <- app_assoc. apply Hgen, FetchFeed_persist_events.
Qed.

(** C6.  A subscription's script is run and exits with an error.
    [ExecuteScript] fails with a message that starts with "script
    execution failed: " and the error of the run; when the script wrote
    to its standard error the message goes on with that text, and when it
    wrote nothing the message stops after the error.  In both cases
    [FetchFeed] runs the command once and records exactly this message on
    the subscription, and any later fetch of the subscription whose source
    resolves leaves the error field empty. *)
Theorem script_failure_recorded_then_cleared
    (env : Env) (F : Fetcher) (cancelled : bool) (feed : Feed) (st : Store)
    (ex : ScriptExecutor) (name : string) (args : list string)
    (err stderr : string) :
  fd_ScriptPath feed ≠ "" →
  f_scriptExecutor F = Some ex →
  script_path_accepted ex (fd_ScriptPath feed) = true →
  script_command env
    (Str.ToLower (filepath.Ext (script_fullPath ex (fd_ScriptPath feed))))
    (script_fullPath ex (fd_ScriptPath feed)) = Ok (name, args) →
  os_Run env (mkCmd name args (scriptsDir ex)) = RunFailed err stderr →
  ∃ msg,
    let st' := apply_events st (FetchFeed env F cancelled feed) in
    snd (ExecuteScript env ex (fd_ScriptPath feed)) = Err msg
    ∧ Str.HasPrefix msg ("script execution failed: " +:+ err) = true
    ∧ (stderr ≠ "" →
       msg = "script execution failed: " +:+ err +:+ ", stderr: " +:+ stderr
       ∧ Str.contains msg stderr)
    ∧ (stderr = "" → msg = "script execution failed: " +:+ err)
    ∧ FetchFeed env F cancelled feed
      = [EvRun (mkCmd name args (scriptsDir ex)); EvUpdateFeedError (fd_ID feed) msg]
    ∧ st_feed_error st' !! fd_ID feed = Some msg
    ∧ (∀ env2 F2 cancelled2 feed2 evs2 pf2,
         fd_ID feed2 = fd_ID feed →
         FetchFeed_resolve env2 F2 feed2 = (evs2, Some pf2) →
         st_feed_error (apply_events st' (FetchFeed env2 F2 cancelled2 feed2))
           !! fd_ID feed = Some "").
Proof.
  intros Hpath Hex Hacc Hcmd Hrun.
  set (msg := if negb (Str.is_empty stderr)
              then "script execution failed: " +:+ err +:+ ", stderr: " +:+ stderr
              else "script execution failed: " +:+ err).
  assert (ExecuteScript env ex (fd_ScriptPath feed)
          = ([EvRun (mkCmd name args (scriptsDir ex))], Err msg)) as Hexec.
  { unfold ExecuteScript. rewrite Hacc. simpl. rewrite Hcmd, Hrun.
    unfold msg. by destruct (negb (Str.is_empty stderr)). }
  assert (FetchFeed env F cancelled feed
          = [EvRun (mkCmd name args (scriptsDir ex));
             EvUpdateFeedError (fd_ID feed) msg]) as Hfetch.
  { unfold FetchFeed, FetchFeed_prepare, FetchFeed_resolve.
    apply is_empty_false in Hpath. by rewrite Hpath, Hex, Hexec. }
  exists msg. cbv zeta. split; [by rewrite Hexec|]. split.
  { assert (∀ a b : string, String.prefix a (a +:+ b) = true) as Hpre.
    { intros a b. induction a as [|x a IH]; simpl; [by destruct b|].
      by destruct (ascii_dec x x). }
    unfold msg, Str.HasPrefix. destruct (negb (Str.is_empty stderr)).
    - rewrite <- append_assoc. apply Hpre.
    - rewrite <- (append_empty_r ("script execution failed: " +:+ err)) at 2.
      apply Hpre. }
  split.
  { intros Hstderr. apply is_empty_false in Hstderr. unfold msg.
    rewrite Hstderr. simpl. split; [done|].
    exists ("script execution failed: " +:+ err +:+ ", stderr: "), "".
    by rewrite append_empty_r, !append_assoc. }
  split; [by intros ->|]. split; [done|]. split.
  { rewrite Hfetch. simpl. apply lookup_insert_eq. }
  intros env2 F2 cancelled2 feed2 evs2 pf2 Hid Hres.
  rewrite <- Hid. by eapply FetchFeed_success_clears.
Qed.

(** In the failing world, fetching the scripted subscription leaves the
    script's error, with its standard error text, on the subscription. *)
Lemma script_failure_recorded_then_cleared_witness :
  ∃ msg,
    st_feed_error (apply_events empty_store (FetchFeed failing_env fetcher0 false script_feed))
      !! 7%Z = Some msg
    ∧ msg = "script execution failed: exit status 1, stderr: boom".
Proof.
  destruct (script_failure_recorded_then_cleared failing_env fetcher0 false
              script_feed empty_store scripts_root "bash" ["/data/scripts/feed.sh"]
              "exit status 1" "boom"
              ltac:(discriminate) eq_refl eq_refl eq_refl eq_refl)
    as (msg & _ & _ & Hmsg & _ & _ & Hst & _).
  exists msg. split; [exact Hst|]. exact (proj1 (Hmsg ltac:(discriminate))).
Defined.

(** A script that fails without a word: the error of the run alone is
    recorded. *)
Example script_failure_without_stderr :
  FetchFeed silent_env fetcher0 false script_feed
  = [EvRun (mkCmd "bash" ["/data/scripts/feed.sh"] "/data/scripts");
     EvUpdateFeedError 7 "script execution failed: exit status 1"].
Proof. reflexivity. Qed.



(** ** Orchestrator: what the invariant gives *)

Lemma total_alone {A} (w : A → nat) (l : list A) (i : nat) (x : A) :
  l !! i = Some x → (∀ j y, j ≠ i → l !! j = Some y → w y = 0) →
  total w l = w x.
Proof.
  revert i. induction l as [|a l IH]; intros [|i] Hi Hothers; simplify_eq/=.
  - assert (total w l = 0) as ->; [|lia].
    clear IH. induction l as [|b l IH]; simpl; [done|].
    rewrite (Hothers 1 b) by done. simpl. apply IH.
    intros [|j] y Hne Hy; [done|]. apply (Hothers (S (S j)) y); [lia | done].
  - rewrite (Hothers 0 a) by done. simpl. apply (IH i); [done|].
    intros j y Hne Hy. apply (Hothers (S j) y); [lia | done].
Qed.

Lemma total_pos_lookup {A} (w : A → nat) (l : list A) :
  0 < total w l → ∃ j x, l !! j = Some x ∧ 0 < w x.
Proof.
  induction l as [|a l IH]; simpl; [lia|]. intros H.
  destruct (decide (0 < w a)) as [Ha|Ha].
  - by exists 0, a.
  - destruct IH as (j & x & Hj & Hx); [lia|]. by exists (S j), x.
Qed.

Lemma reachable_exec F ctxs npolls ls s s' :
  reachable F ctxs npolls s → exec ls s = Some s' → reachable F ctxs npolls s'.
Proof.
  intros Hs. revert s Hs. induction ls as [|l ls IH]; intros s Hs He; simpl in He.
  - by simplify_eq.
  - destruct (step l s) as [s1|] eqn:H1; [|done].
    eapply IH; [|exact He]. by eapply reach_step.
Qed.

Lemma reachable_steps F ctxs npolls s s' :
  reachable F ctxs npolls s → steps s s' → reachable F ctxs npolls s'.
Proof.
  intros Hs Hsteps. induction Hsteps as [|s l s1 s2 H1 _ IH]; [done|].
  apply IH. by eapply reach_step.
Qed.

(** When [wg.Wait()] has returned and the context was never cancelled,
    every subscription of the snapshot has a goroutine and every goroutine
    has incremented the counter and exited. *)
Lemma all_counted P n c :
  call_ok P n c → after_wait (c_pc c) = true → c_ctx_done c = false →
  total task_counted (c_tasks c) = length (c_feeds c).
Proof.
  intros [Hwg _ _ _ _ Hdone Hwait Hearly _ _ _ _ _] Hpc Hctx.
  specialize (Hwait Hpc). specialize (Hearly Hctx).
  destruct Hdone as [_ Hlen]; [by destruct (c_pc c) as [| | | | | | | | | | | | | | | | | | | | | | |[]]|].
  rewrite <- (Hlen Hctx). apply total_ones.
  assert (total task_live (c_tasks c) = 0) as Hlive by lia.
  apply total_zero in Hlive. apply total_zero in Hearly.
  apply Forall_lookup. intros j [fd pc] Hj.
  pose proof (Forall_lookup_1 _ _ _ _ Hlive Hj) as H1.
  pose proof (Forall_lookup_1 _ _ _ _ Hearly Hj) as H2.
  simpl in *. by destruct pc as [| | | | | | |[]|[]|[]].
Qed.

(** The counters once [wg.Wait()] has returned, from the invariant. *)
Lemma after_wait_counts s i c :
  Inv s →
  calls s !! i = Some c →
  after_wait (c_pc c) = true →
  c_ctx_done c = false →
  (after_clear (c_pc c) = true →
   ∀ j c', j ≠ i → calls s !! j = Some c' → passed_gate (c_pc c') = false) →
  Current (progress s) = Z.of_nat (length (c_feeds c))
  ∧ Total (progress s) = Z.of_nat (length (c_feeds c)).
Proof.
  intros HI Hi Hpc Hctx Halone.
  pose proof (Forall_lookup_1 _ _ _ _ (inv_calls _ HI) Hi) as Hc.
  pose proof (all_counted _ _ _ Hc Hpc Hctx) as Hall.
  destruct (after_clear (c_pc c)) eqn:Hclear.
  - destruct (ok_final _ _ _ Hc Hclear) as [[H1 H2]|Hn]; [by rewrite H1, Hall|].
    exfalso. rewrite (total_alone call_gate_weight _ i c Hi) in Hn.
    + unfold call_gate_weight in Hn. destruct (passed_gate _); simpl in Hn; lia.
    + intros j y Hne Hj. unfold call_gate_weight.
      by rewrite (Halone eq_refl j y Hne Hj).
  - rewrite (ok_current _ _ _ Hc), (ok_total _ _ _ Hc), Hall; [done | |];
      by destruct (c_pc c) as [| | | | | | | | | | | | | | | | | | | | | | |[]].
Qed.

(** C2.  In every reachable state and for every invocation of [FetchAll]:
    at most five goroutines are between the acquisition of their pool slot
    and its release; the channel holds exactly one value per such goroutine
    (plus one while the dispatch loop has sent for a goroutine it is about
    to start), so a goroutine that has run its deferred receive holds no
    slot, whichever way it left its body; the deferred receive never
    blocks; and once [wg.Wait()] has returned the pool is empty. *)
Theorem pool_bound F ctxs npolls s i c :
  reachable F ctxs npolls s →
  calls s !! i = Some c →
  in_flight c ≤ 5
  ∧ c_sem c = in_flight c + pending_sem (c_pc c)
  ∧ (∀ j t early env,
       c_tasks c !! j = Some t → t_pc t = TRelease early →
       ∃ s' c', step (LTask i j env) s = Some s'
                ∧ calls s' !! i = Some c'
                ∧ c_tasks c' !! j = Some (mkTask (t_feed t) (TWgDone early))
                ∧ S (c_sem c') = c_sem c
                ∧ S (in_flight c') = in_flight c)
  ∧ (after_wait (c_pc c) = true → c_sem c = 0 ∧ in_flight c = 0).
Proof.
  intros Hreach Hi.
  pose proof (reachable_Inv _ _ _ _ Hreach) as HI.
  pose proof (Forall_lookup_1 _ _ _ _ (inv_calls _ HI) Hi) as Hc.
  destruct Hc as [Hwg Hsem Hcap _ _ _ Hwait _ _ _ _ _ _].
  unfold sem_capacity in Hcap.
  split; [lia|]. split; [done|]. split.
  - intros j [fd tpc] early env Hj Ht. simpl in Ht. subst tpc.
    pose proof (total_lookup_le task_in_slot _ _ _ Hj) as Hle. simpl in Hle.
    unfold in_flight in *.
    assert (0 < c_sem c) as Hpos by lia.
    apply Nat.ltb_lt in Hpos as Hb.
    unfold step. rewrite Hi, Hj. unfold task_step. simpl. rewrite Hb.
    unfold with_call, set_task_pc, set_counters, set_tasks. simpl.
    assert (i < length (calls s)) by (by eapply lookup_lt_Some).
    assert (j < length (c_tasks c)) by (by eapply lookup_lt_Some).
    eexists _, _. split; [done|]. simpl.
    rewrite list_lookup_insert_eq by done. split; [done|]. simpl.
    rewrite list_lookup_insert_eq by done. split; [done|].
    split; [lia|].
    pose proof (total_insert task_in_slot _ j _ (mkTask fd (TWgDone early)) Hj) as He.
    simpl in He. lia.
  - intros Hpc. specialize (Hwait Hpc).
    assert (total task_live (c_tasks c) = 0) as Hlive by lia.
    assert (in_flight c = 0) as Hz.
    { unfold in_flight. apply total_zero in Hlive.
      assert (Forall (λ t, task_in_slot t = 0) (c_tasks c)) as Hall.
      { eapply Forall_impl; [exact Hlive|]. intros [fd []]; simpl; done. }
      clear -Hall. induction Hall as [|t ts Ht _ IH]; simpl; [done | lia]. }
    split; [|done]. rewrite Hsem, Hz.
    by destruct (c_pc c) as [| | | | | | | | | | | | | | | | | | | | | | |[]].
Qed.

(** ** Orchestrator: the shape of a step *)

Lemma call_step_shape env i c s s' :
  call_step env i c s = Some s' →
  ∃ c', calls s' = <[i := c']> (calls s)
        ∧ polls s' = polls s
        ∧ (∀ k, c_pc c ≠ CReturned k)
        ∧ c_ctx_done c' = c_ctx_done c
        ∧ (c_tasks c' = c_tasks c ∨ ∃ fd, c_tasks c' = c_tasks c ++ [mkTask fd TCheck])
        ∧ ((c_pc c = CStamp ∧ c_pc c' = CReturned ExitBatch ∧
            trace s' = trace s ++ [(ByCall i, EvSetSetting "last_article_update"
                                                (time_NowRFC3339 env))])
           ∨ (c_pc c ≠ CStamp ∧ c_pc c' ≠ CReturned ExitBatch ∧ trace s' = trace s)).
Proof.
  intros Hs. destruct s as [F P m cs ps tr].
  destruct c as [pc ctx feeds wg sem ts]. unfold call_step in Hs. simpl in *.
  destruct pc; simpl in Hs;
    repeat match type of Hs with
           | context [if ?b then _ else _] => destruct b eqn:?
           | context [match ?x with _ => _ end] => destruct x eqn:?
           end; simplify_eq;
    unfold with_mu, with_progress, with_call, with_translator, emit, set_pc,
      set_counters, set_tasks; simpl;
    eexists; (split; [reflexivity|]); simpl; (do 3 (split; [done|]));
    (split; [first [by left | right; eexists; reflexivity]|]);
    first [ by left | right; rewrite ?app_nil_r; done ].
Qed.

Lemma task_step_shape env i j c t s s' :
  task_step env i j c t s = Some s' →
  ∃ c' pc' evs,
    calls s' = <[i := c']> (calls s)
    ∧ polls s' = polls s
    ∧ c_ctx_done c' = c_ctx_done c
    ∧ c_pc c' = c_pc c
    ∧ c_feeds c' = c_feeds c
    ∧ c_tasks c' = <[j := mkTask (t_feed t) pc']> (c_tasks c)
    ∧ trace s' = trace s ++ map (pair (ByTask i j)) evs
    ∧ (cancel_observed c t = true → evs = [] ∧ task_quiet pc' = true).
Proof.
  intros Hs. destruct s as [F P m cs ps tr].
  destruct c as [pc ctx feeds wg sem ts]. destruct t as [fd tpc].
  unfold task_step in Hs. unfold cancel_observed. simpl in *.
  destruct tpc; simpl in Hs;
    repeat match type of Hs with
           | context [if ?b then _ else _] => destruct b eqn:?
           | context [match ?x with _ => _ end] => destruct x eqn:?
           end; simplify_eq;
    unfold with_mu, with_progress, with_call, emit, set_task_pc, set_pc,
      set_counters, set_tasks; simpl;
    eexists _, _;
    first [ exists []; simpl; rewrite ?app_nil_r;
            (split; [reflexivity|]); simpl; (do 6 (split; [done|]));
            intros Hobs; try destruct ctx; simplify_eq/=; done
          | eexists;
            (split; [reflexivity|]); simpl; (do 6 (split; [done|]));
            intros Hobs; try destruct ctx; simplify_eq/=; done ].
Qed.

Lemma poll_step_shape k p s s' :
  poll_step k p s = Some s' →
  calls s' = calls s ∧ trace s' = trace s ∧ fetcher s' = fetcher s.
Proof.
  destruct s as [F P m cs ps tr]. destruct p; simpl; intros Hs;
    try destruct m; simplify_eq; done.
Qed.

(** ** Orchestrator: cancellation *)






(** ** Orchestrator: leaving the running state *)

Lemma call_events_emit_call i i0 tr evs :
  map snd (List.filter (is_by_call i) (tr ++ map (pair (ByCall i0)) evs))
  = map snd (List.filter (is_by_call i) tr) ++ (if i =? i0 then evs else []).
Proof.
  rewrite List.filter_app, map_app. f_equal.
  induction evs as [|e evs IH]; simpl; [by destruct (_ =? _)|].
  unfold is_by_call at 1. simpl.
  destruct (i =? i0); simpl; congruence.
Qed.

Lemma call_events_snoc_call i i0 tr e :
  map snd (List.filter (is_by_call i) (tr ++ [(ByCall i0, e)]))
  = map snd (List.filter (is_by_call i) tr) ++ (if i =? i0 then [e] else []).
Proof. exact (call_events_emit_call i i0 tr [e]). Qed.

Lemma call_events_emit_task i i0 j0 tr evs :
  map snd (List.filter (is_by_call i) (tr ++ map (pair (ByTask i0 j0)) evs))
  = map snd (List.filter (is_by_call i) tr).
Proof.
  rewrite List.filter_app, map_app.
  replace (List.filter (is_by_call i) (map (pair (ByTask i0 j0)) evs))
    with (@nil (origin * Event)).
  - apply app_nil_r.
  - induction evs as [|e evs IH]; simpl; congruence.
Qed.

Lemma stamp_ok_step l s s' : stamp_ok s → step l s = Some s' → stamp_ok s'.
Proof.
  intros Hok Hs i c' Hi'. unfold call_events.
  destruct l as [i0 env|i0 j0 env|k|i0]; simpl in Hs.
  - destruct (calls s !! i0) as [c0|] eqn:Hi0; [|done].
    destruct (call_step_shape _ _ _ _ _ Hs)
      as (c0' & Hcalls & _ & Hret & _ & _ & Htrace).
    rewrite Hcalls in Hi'.
    assert (i0 < length (calls s)) by (by eapply lookup_lt_Some).
    destruct (decide (i = i0)) as [->|Hne].
    + rewrite list_lookup_insert_eq in Hi' by done. simplify_eq.
      destruct (Hok _ _ Hi0) as [_ Hnone].
      specialize (Hnone (Hret _)). unfold call_events in Hnone.
      destruct Htrace as [(_ & Hpc & ->) | (_ & Hpc & ->)].
      * rewrite call_events_snoc_call, Hnone, Nat.eqb_refl.
        split; [eauto | done].
      * split; [done | by rewrite Hnone].
    + rewrite list_lookup_insert_ne in Hi' by done.
      destruct (Hok _ _ Hi') as [H1 H2]. unfold call_events in H1, H2.
      destruct Htrace as [(_ & _ & ->) | (_ & _ & ->)]; [|done].
      rewrite call_events_snoc_call.
      assert ((i =? i0) = false) as -> by (by apply Nat.eqb_neq).
      by rewrite app_nil_r.
  - destruct (calls s !! i0) as [c0|] eqn:Hi0; [|done].
    destruct (c_tasks c0 !! j0) as [t0|] eqn:Hj0; [|done].
    destruct (task_step_shape _ _ _ _ _ _ _ Hs)
      as (c0' & pc' & evs & Hcalls & _ & _ & Hpc & _ & _ & Htrace & _).
    rewrite Hcalls in Hi'. rewrite Htrace, call_events_emit_task.
    assert (i0 < length (calls s)) by (by eapply lookup_lt_Some).
    destruct (decide (i = i0)) as [->|Hne].
    + rewrite list_lookup_insert_eq in Hi' by done. simplify_eq.
      rewrite Hpc. apply (Hok _ _ Hi0).
    + rewrite list_lookup_insert_ne in Hi' by done. apply (Hok _ _ Hi').
  - destruct (polls s !! k) as [p|] eqn:Hk; [|done].
    destruct (poll_step_shape _ _ _ _ Hs) as (Hc & -> & _). rewrite Hc in Hi'.
    apply (Hok _ _ Hi').
  - destruct (calls s !! i0) as [c0|] eqn:Hi0; [|done]. simplify_eq. simpl in *.
    assert (i0 < length (calls s)) by (by eapply lookup_lt_Some).
    destruct (decide (i = i0)) as [->|Hne].
    + rewrite list_lookup_insert_eq in Hi' by done. simplify_eq. simpl.
      apply (Hok _ _ Hi0).
    + rewrite list_lookup_insert_ne in Hi' by done. apply (Hok _ _ Hi').
Qed.

Lemma reachable_stamp_ok F ctxs npolls s : reachable F ctxs npolls s → stamp_ok s.
Proof.
  induction 1 as [|s l s' _ IH Hs]; [|by eapply stamp_ok_step].
  intros i c Hi. simpl in Hi. apply list_lookup_fmap_Some in Hi as (b & -> & _).
  split; [done|]. intros _. reflexivity.
Qed.

(** C8, counterexample.  One invocation of [FetchAll] against a store
    whose subscription list cannot be loaded: the invocation leaves the
    running state and returns, the running flag is cleared, and no
    timestamp has been written to the store. *)
Lemma abort_writes_no_timestamp :
  let s := run_sched failing_env 20 (init fetcher0 [false] 0) in
  exec (replicate 10 (LCall 0 failing_env)) (init fetcher0 [false] 0) = Some s
  ∧ map c_pc (calls s) = [CReturned ExitAbort]
  ∧ IsRunning (progress s) = false
  ∧ trace s = [].
Proof. vm_compute. repeat split. Qed.

(** C8, as the code has it.  An invocation of [FetchAll] that has left
    the running state has returned through [Finish] (normal completion or
    cancellation) or after the failed load.  In both cases the running flag
    it had set is cleared: if the flag is set at all, it is so because
    another invocation is running a batch of its own.  On the [Finish]
    path the invocation has written the timestamp [last_article_update],
    once; on the failed-load path it has written nothing. *)
Theorem exit_clears_running F ctxs npolls s i c k :
  reachable F ctxs npolls s →
  calls s !! i = Some c →
  c_pc c = CReturned k → k ≠ ExitBusy →
  (IsRunning (progress s) = true →
   ∃ j c', j ≠ i ∧ calls s !! j = Some c' ∧ call_running (c_pc c') = true)
  ∧ (k = ExitBatch → ∃ v, call_events i s = [EvSetSetting "last_article_update" v])
  ∧ (k = ExitAbort → call_events i s = []).
Proof.
  intros Hreach Hi Hpc Hk.
  pose proof (reachable_Inv _ _ _ _ Hreach) as HI.
  destruct (reachable_stamp_ok _ _ _ _ Hreach i c Hi) as [Hstamp Hnone].
  split; [|split].
  - intros Hrun. pose proof (inv_running _ HI) as Hsum. rewrite Hrun in Hsum.
    destruct (total_pos_lookup call_run_weight (calls s)) as (j & c' & Hj & Hw);
      [simpl in Hsum; lia|].
    exists j, c'. unfold call_run_weight in Hw.
    destruct (call_running (c_pc c')) eqn:Hr; [|simpl in Hw; lia].
    split; [|done]. intros ->. simplify_eq. by rewrite Hpc in Hr.
  - intros ->. by apply Hstamp.
  - intros ->. apply Hnone. by rewrite Hpc.
Qed.

(** ** Orchestrator: the mutex and the progress struct *)

Lemma call_step_progress env i c s s' :
  call_step env i c s = Some s' →
  progress s' = progress s
  ∨ (call_holds (c_pc c) = true
     ∧ (Current (progress s') = Current (progress s)
        ∨ (c_pc c = CResetCurrent ∧ Current (progress s') = 0%Z))).
Proof.
  intros Hs. destruct s as [F P m cs ps tr].
  destruct c as [pc ctx feeds wg sem ts]. unfold call_step in Hs. simpl in *.
  destruct pc; simpl in Hs;
    repeat match type of Hs with
           | context [if ?b then _ else _] => destruct b eqn:?
           | context [match ?x with _ => _ end] => destruct x eqn:?
           end; simplify_eq; simpl; auto.
Qed.

Lemma task_step_progress env i j c t s s' :
  task_step env i j c t s = Some s' →
  progress s' = progress s
  ∨ (task_holds t = 1
     ∧ Current (progress s') = (Current (progress s) + 1)%Z
     ∧ Total (progress s') = Total (progress s)
     ∧ IsRunning (progress s') = IsRunning (progress s)).
Proof.
  intros Hs. destruct s as [F P m cs ps tr].
  destruct c as [pc ctx feeds wg sem ts]. destruct t as [fd tpc].
  unfold task_step in Hs. simpl in *.
  destruct tpc; simpl in Hs;
    repeat match type of Hs with
           | context [if ?b then _ else _] => destruct b eqn:?
           | context [match ?x with _ => _ end] => destruct x eqn:?
           end; simplify_eq; simpl; auto.
Qed.

Lemma poll_step_progress k p s s' :
  poll_step k p s = Some s' → progress s' = progress s.
Proof.
  destruct s as [F P m cs ps tr]. destruct p; simpl; intros Hs;
    try destruct m; simplify_eq; done.
Qed.

(** Only the thread that holds the mutex changes the progress struct. *)
Lemma progress_change_by_holder l s s' :
  step l s = Some s' → progress s' ≠ progress s → label_holds l s = true.
Proof.
  intros Hs Hne. destruct l as [i env|i j env|k|i]; simpl in *.
  - destruct (calls s !! i) as [c|]; [|done].
    destruct (call_step_progress _ _ _ _ _ Hs) as [|[? _]]; done.
  - destruct (calls s !! i) as [c|]; [|done].
    destruct (c_tasks c !! j) as [t|]; [|done].
    destruct (task_step_progress _ _ _ _ _ _ _ Hs) as [|[Ht _]]; [done|].
    by apply bool_decide_eq_true.
  - destruct (polls s !! k) as [p|]; [|done].
    by rewrite (poll_step_progress _ _ _ _ Hs) in Hne.
  - destruct (calls s !! i) as [c|]; [|done]. by simplify_eq.
Qed.

(** What a thread that holds the mutex weighs in the sum of [inv_mu]. *)
Lemma holder_weight l s :
  label_holds l s = true →
  match l with
  | LCall i _ => ∃ c, calls s !! i = Some c ∧ call_holds (c_pc c) = true
  | LTask i j _ => ∃ c t, calls s !! i = Some c ∧ c_tasks c !! j = Some t
                          ∧ task_holds t = 1
  | LPoll k => ∃ p, polls s !! k = Some p ∧ poll_holds p = 1
  | LCancel _ => False
  end.
Proof.
  destruct l as [i env|i j env|k|i]; simpl; [| | |done].
  - destruct (calls s !! i) as [c|] eqn:Hi; [|done]. intros H. by exists c.
  - destruct (calls s !! i) as [c|] eqn:Hi; [|done].
    destruct (c_tasks c !! j) as [t|] eqn:Hj; [|done].
    intros H%bool_decide_eq_true. by exists c, t.
  - destruct (polls s !! k) as [p|] eqn:Hk; [|done].
    intros H%bool_decide_eq_true. by exists p.
Qed.

Lemma lock_weight_call c : call_holds (c_pc c) = true → 1 ≤ call_lock_weight c.
Proof. unfold call_lock_weight. intros ->. simpl. lia. Qed.

Lemma lock_weight_task c j t :
  c_tasks c !! j = Some t → task_holds t = 1 → 1 ≤ call_lock_weight c.
Proof.
  intros Hj Ht. pose proof (total_lookup_le task_holds _ _ _ Hj).
  unfold call_lock_weight. lia.
Qed.

Lemma lock_weight_call_task c j t :
  call_holds (c_pc c) = true → c_tasks c !! j = Some t → task_holds t = 1 →
  2 ≤ call_lock_weight c.
Proof.
  intros Hc Hj Ht. pose proof (total_lookup_le task_holds _ _ _ Hj).
  unfold call_lock_weight. rewrite Hc. simpl. lia.
Qed.

Lemma lock_weight_two_tasks c j j' t t' :
  j ≠ j' → c_tasks c !! j = Some t → c_tasks c !! j' = Some t' →
  task_holds t = 1 → task_holds t' = 1 → 2 ≤ call_lock_weight c.
Proof.
  intros Hne Hj Hj' Ht Ht'.
  pose proof (total_two task_holds _ _ _ _ _ Hne Hj Hj').
  unfold call_lock_weight. lia.
Qed.

Lemma holder_unique s l l' :
  Inv s → label_holds l s = true → label_holds l' s = true → same_thread l l'.
Proof.
  intros HI H1%holder_weight H2%holder_weight.
  pose proof (inv_mu _ HI) as Hmu. pose proof (b2n_le_1 (mu s)) as Hle.
  destruct l as [i env|i j env|k|i]; destruct l' as [i' env'|i' j' env'|k'|i'];
    simpl; try done.
  - destruct H1 as (c & Hi & Hc), H2 as (c' & Hi' & Hc').
    destruct (decide (i = i')) as [|Hne]; [done|]. exfalso.
    pose proof (total_two call_lock_weight _ _ _ _ _ Hne Hi Hi').
    pose proof (lock_weight_call _ Hc). pose proof (lock_weight_call _ Hc'). lia.
  - destruct H1 as (c & Hi & Hc), H2 as (c' & t' & Hi' & Hj' & Ht').
    destruct (decide (i = i')) as [->|Hne].
    + simplify_eq. pose proof (total_lookup_le call_lock_weight _ _ _ Hi).
      pose proof (lock_weight_call_task _ _ _ Hc Hj' Ht'). lia.
    + pose proof (total_two call_lock_weight _ _ _ _ _ Hne Hi Hi').
      pose proof (lock_weight_call _ Hc).
      pose proof (lock_weight_task _ _ _ Hj' Ht'). lia.
  - destruct H1 as (c & Hi & Hc), H2 as (p & Hk & Hp).
    pose proof (total_lookup_le call_lock_weight _ _ _ Hi).
    pose proof (total_lookup_le poll_holds _ _ _ Hk).
    pose proof (lock_weight_call _ Hc). lia.
  - destruct H1 as (c & t & Hi & Hj & Ht), H2 as (c' & Hi' & Hc').
    destruct (decide (i = i')) as [->|Hne].
    + simplify_eq. pose proof (total_lookup_le call_lock_weight _ _ _ Hi).
      pose proof (lock_weight_call_task _ _ _ Hc' Hj Ht). lia.
    + pose proof (total_two call_lock_weight _ _ _ _ _ Hne Hi Hi').
      pose proof (lock_weight_call _ Hc').
      pose proof (lock_weight_task _ _ _ Hj Ht). lia.
  - destruct H1 as (c & t & Hi & Hj & Ht), H2 as (c' & t' & Hi' & Hj' & Ht').
    destruct (decide (i = i')) as [->|Hne].
    + simplify_eq. split; [done|].
      destruct (decide (j = j')) as [|Hnej]; [done|]. exfalso.
      pose proof (total_lookup_le call_lock_weight _ _ _ Hi).
      pose proof (lock_weight_two_tasks _ _ _ _ _ Hnej Hj Hj' Ht Ht'). lia.
    + exfalso.
      pose proof (total_two call_lock_weight _ _ _ _ _ Hne Hi Hi').
      pose proof (lock_weight_task _ _ _ Hj Ht).
      pose proof (lock_weight_task _ _ _ Hj' Ht'). lia.
  - destruct H1 as (c & t & Hi & Hj & Ht), H2 as (p & Hk & Hp).
    pose proof (total_lookup_le call_lock_weight _ _ _ Hi).
    pose proof (total_lookup_le poll_holds _ _ _ Hk).
    pose proof (lock_weight_task _ _ _ Hj Ht). lia.
  - destruct H1 as (p & Hk & Hp), H2 as (c' & Hi' & Hc').
    pose proof (total_lookup_le call_lock_weight _ _ _ Hi').
    pose proof (total_lookup_le poll_holds _ _ _ Hk).
    pose proof (lock_weight_call _ Hc'). lia.
  - destruct H1 as (p & Hk & Hp), H2 as (c' & t' & Hi' & Hj' & Ht').
    pose proof (total_lookup_le call_lock_weight _ _ _ Hi').
    pose proof (total_lookup_le poll_holds _ _ _ Hk).
    pose proof (lock_weight_task _ _ _ Hj' Ht'). lia.
  - destruct H1 as (p & Hk & Hp), H2 as (p' & Hk' & Hp').
    destruct (decide (k = k')) as [|Hne]; [done|]. exfalso.
    pose proof (total_two poll_holds _ _ _ _ _ Hne Hk Hk'). lia.
Qed.

Lemma holder_locked s l : Inv s → label_holds l s = true → mu s = true.
Proof.
  intros HI H%holder_weight. pose proof (inv_mu _ HI) as Hmu.
  destruct (mu s); [done|]. exfalso. simpl in Hmu.
  destruct l as [i env|i j env|k|i]; [| | |done].
  - destruct H as (c & Hi & Hc).
    pose proof (total_lookup_le call_lock_weight _ _ _ Hi).
    pose proof (lock_weight_call _ Hc). lia.
  - destruct H as (c & t & Hi & Hj & Ht).
    pose proof (total_lookup_le call_lock_weight _ _ _ Hi).
    pose proof (lock_weight_task _ _ _ Hj Ht). lia.
  - destruct H as (p & Hk & Hp).
    pose proof (total_lookup_le poll_holds _ _ _ Hk). lia.
Qed.

Lemma poll_step_returns k p s s' :
  poll_step k p s = Some s' →
  ∃ p', polls s' = <[k := p']> (polls s)
        ∧ progress s' = progress s
        ∧ (∀ snap, p' = PReturned snap → p = PUnlock snap).
Proof.
  destruct s as [F P m cs ps tr]. destruct p; simpl; intros Hs;
    try destruct m; simplify_eq; simpl; eexists; (split; [reflexivity|]);
    (split; [done|]); intros; simplify_eq; done.
Qed.

Lemma running_unique s i j ci cj :
  Inv s → i ≠ j → calls s !! i = Some ci → calls s !! j = Some cj →
  call_running (c_pc ci) = true → call_running (c_pc cj) = true → False.
Proof.
  intros HI Hne Hi Hj Hri Hrj.
  pose proof (inv_running _ HI) as Hrun.
  pose proof (b2n_le_1 (IsRunning (progress s))).
  pose proof (total_two call_run_weight _ _ _ _ _ Hne Hi Hj) as Htwo.
  unfold call_run_weight at 1 2 in Htwo. rewrite Hri, Hrj in Htwo.
  simpl in Htwo. lia.
Qed.

(** C9.  For every step from a reachable state: (1) if the step changes
    the progress struct then the mutex is held, the thread that takes the
    step is the one holding it, and no other thread holds it; (2) while an
    invocation of [FetchAll] is inside its batch (after the reset of
    [Current], before the running flag is cleared), [Current] stays the same
    or grows by exactly one; (3) an invocation of [GetProgress] that has
    copied the three fields holds a copy equal to the struct as it is now,
    and (4) the value it returns is the struct as it is when it returns. *)
Theorem progress_only_under_lock F ctxs npolls s l s' :
  reachable F ctxs npolls s →
  step l s = Some s' →
  (progress s' ≠ progress s →
   mu s = true ∧ label_holds l s = true
   ∧ ∀ l', label_holds l' s = true → same_thread l l')
  ∧ (∀ i c c',
       calls s !! i = Some c → calls s' !! i = Some c' →
       counts_current (c_pc c) = true → counts_current (c_pc c') = true →
       Current (progress s') = Current (progress s)
       ∨ Current (progress s') = (Current (progress s) + 1)%Z)
  ∧ (∀ k snap, polls s !! k = Some (PUnlock snap) → snap = progress s)
  ∧ (∀ k snap,
       polls s' !! k = Some (PReturned snap) →
       polls s !! k ≠ Some (PReturned snap) →
       snap = progress s ∧ snap = progress s').
Proof.
  intros Hreach Hs.
  pose proof (reachable_Inv _ _ _ _ Hreach) as HI.
  split; [|split; [|split]].
  - intros Hne. pose proof (progress_change_by_holder _ _ _ Hs Hne) as Hh.
    split; [by eapply holder_locked|]. split; [done|].
    intros l' Hl'. by eapply holder_unique.
  - intros i c c' Hi Hi' Hc Hc'.
    destruct l as [i0 env|i0 j0 env|k|i0]; simpl in Hs.
    + destruct (calls s !! i0) as [c0|] eqn:Hi0; [|done].
      destruct (call_step_progress _ _ _ _ _ Hs) as [->|[_ [?|[Hpc _]]]]; auto.
      exfalso.
      assert (call_running (c_pc c) = true) as Hr by (by destruct (c_pc c)).
      destruct (decide (i0 = i)) as [->|Hne].
      * simplify_eq. by rewrite Hpc in Hc.
      * eapply (running_unique s i0 i c0 c); eauto. by rewrite Hpc.
    + destruct (calls s !! i0) as [c0|] eqn:Hi0; [|done].
      destruct (c_tasks c0 !! j0) as [t0|] eqn:Hj0; [|done].
      destruct (task_step_progress _ _ _ _ _ _ _ Hs) as [->|(_ & ? & _)]; auto.
    + destruct (polls s !! k) as [p|] eqn:Hk; [|done].
      left. by rewrite (poll_step_progress _ _ _ _ Hs).
    + destruct (calls s !! i0) as [c0|] eqn:Hi0; [|done]. simplify_eq. by left.
  - intros k snap Hk.
    exact (Forall_lookup_1 _ _ _ _ (inv_polls _ HI) Hk).
  - intros k snap Hk' Hk.
    destruct l as [i0 env|i0 j0 env|k0|i0]; simpl in Hs.
    + destruct (calls s !! i0) as [c0|] eqn:Hi0; [|done].
      destruct (call_step_shape _ _ _ _ _ Hs) as (? & _ & Hp & _). congruence.
    + destruct (calls s !! i0) as [c0|] eqn:Hi0; [|done].
      destruct (c_tasks c0 !! j0) as [t0|] eqn:Hj0; [|done].
      destruct (task_step_shape _ _ _ _ _ _ _ Hs) as (? & ? & ? & _ & Hp & _).
      congruence.
    + destruct (polls s !! k0) as [p|] eqn:Hk0; [|done].
      destruct (poll_step_returns _ _ _ _ Hs) as (p' & Hpolls & Hprog & Hret).
      rewrite Hpolls in Hk'.
      assert (k0 < length (polls s)) by (by eapply lookup_lt_Some).
      destruct (decide (k = k0)) as [->|Hne].
      * rewrite list_lookup_insert_eq in Hk' by done. simplify_eq.
        specialize (Hret _ eq_refl). subst p.
        pose proof (Forall_lookup_1 _ _ _ _ (inv_polls _ HI) Hk0) as Hsnap.
        simpl in Hsnap. split; congruence.
      * rewrite list_lookup_insert_ne in Hk' by done. congruence.
    + destruct (calls s !! i0) as [c0|] eqn:Hi0; [|done].
      inversion Hs; subst s'. simpl in Hk'. congruence.
Qed.

(** C3.  In every reachable state: (1) no two invocations of [FetchAll]
    are inside a batch; (2) an invocation that has found the flag clear and
    is about to set it still holds the mutex and the flag is still clear;
    (3) an invocation at the gate that finds the flag set unlocks and
    returns in its next two steps, which change neither the progress struct
    nor the trace of effects nor anything of the invocation but its program
    point, and from its check to its return no step of any thread changes
    the progress struct. *)
Theorem second_start_is_noop F ctxs npolls s :
  reachable F ctxs npolls s →
  (∀ i j ci cj,
     i ≠ j → calls s !! i = Some ci → calls s !! j = Some cj →
     call_running (c_pc ci) = true → call_running (c_pc cj) = true → False)
  ∧ (∀ i c, calls s !! i = Some c → c_pc c = CSetRunning →
            IsRunning (progress s) = false ∧ mu s = true)
  ∧ (∀ i c env,
       calls s !! i = Some c → c_pc c = CGate → IsRunning (progress s) = true →
       ∃ s1 s2,
         step (LCall i env) s = Some s1 ∧ step (LCall i env) s1 = Some s2
         ∧ progress s1 = progress s ∧ progress s2 = progress s
         ∧ trace s2 = trace s
         ∧ calls s2 !! i = Some (set_pc c (CReturned ExitBusy))
         ∧ (∀ l s', step l s = Some s' → progress s' = progress s)
         ∧ (∀ l s', step l s1 = Some s' → progress s' = progress s1)).
Proof.
  intros Hreach. pose proof (reachable_Inv _ _ _ _ Hreach) as HI.
  split; [|split].
  - intros i j ci cj. by apply running_unique.
  - intros i c Hi Hpc.
    pose proof (Forall_lookup_1 _ _ _ _ (inv_calls _ HI) Hi) as Hc.
    split; [by apply (ok_gate _ _ _ Hc)|].
    apply (holder_locked s (LCall i failing_env) HI). simpl. by rewrite Hi, Hpc.
  - intros i c env Hi Hpc Hrun.
    assert (i < length (calls s)) as Hlen by (by eapply lookup_lt_Some).
    assert (∀ s0 c0, Inv s0 → calls s0 !! i = Some c0 →
              (c_pc c0 = CGate ∨ c_pc c0 = CBusyUnlock) →
              ∀ l s', step l s0 = Some s' → progress s' = progress s0) as Hframe.
    { intros s0 c0 HI0 Hi0 Hpc0 l s' Hstep.
      destruct (decide (progress s' = progress s0)) as [|Hne]; [done|]. exfalso.
      pose proof (progress_change_by_holder _ _ _ Hstep Hne) as Hh.
      assert (label_holds (LCall i env) s0 = true) as Hme.
      { simpl. rewrite Hi0. by destruct Hpc0 as [-> | ->]. }
      pose proof (holder_unique _ _ _ HI0 Hh Hme) as Hsame.
      destruct l as [i0 env0| | |]; simpl in Hsame; try done. subst i0.
      simpl in Hstep. rewrite Hi0 in Hstep.
      destruct (call_step_progress _ _ _ _ _ Hstep) as [|[_ Hcur]]; [done|].
      destruct s0 as [F0 P0 m0 cs0 ps0 tr0], c0 as [pc0 ? ? ? ? ?].
      unfold call_step in Hstep. simpl in *.
      destruct Hpc0 as [-> | ->]; simpl in Hstep;
        [destruct (IsRunning P0)|]; simplify_eq; done. }
    destruct s as [F0 P m cs ps tr]. destruct c as [pc ctx feeds wg sem ts].
    simpl in *. subst pc. rewrite Hi. unfold call_step. simpl. rewrite Hrun.
    eexists _, _. split; [reflexivity|].
    unfold with_call, set_pc. simpl.
    rewrite list_lookup_insert_eq by done. simpl.
    split; [reflexivity|]. unfold with_mu, with_call, set_pc. simpl.
    split; [done|]. split; [done|]. split; [done|].
    split; [by rewrite list_lookup_insert_eq by (by rewrite length_insert)|].
    split.
    + eapply (Hframe _ _ HI Hi). by left.
    + eapply Hframe.
      * eapply (Inv_step (LCall i env)); [exact HI|].
        simpl. rewrite Hi. unfold call_step. simpl. rewrite Hrun. reflexivity.
      * simpl. by apply list_lookup_insert_eq.
      * by right.
Qed.
(** ** Orchestrator: a finished batch and the next one *)

(** What a step of [FetchAll] does to the counters, by where it stands. *)
Lemma call_step_counters env i c s s' :
  call_step env i c s = Some s' →
  ∃ c', calls s' = <[i := c']> (calls s)
        ∧ c_ctx_done c' = c_ctx_done c
        ∧ (reset_done (c_pc c) = true → reset_done (c_pc c') = true)
        ∧ (after_wait (c_pc c') = true →
           after_wait (c_pc c) = true ∨ c_pc c' = CFinLock)
        ∧ (after_wait (c_pc c) = true →
           after_wait (c_pc c') = true ∧ c_feeds c' = c_feeds c
           ∧ Current (progress s') = Current (progress s)
           ∧ Total (progress s') = Total (progress s))
        ∧ (counts_current (c_pc c) = false →
           (counts_current (c_pc c') = false
            ∧ Current (progress s') = Current (progress s)
            ∧ Total (progress s') = Total (progress s))
           ∨ (reset_done (c_pc c) = false ∧ reset_done (c_pc c') = true)).
Proof.
  intros Hs. destruct s as [F P m cs ps tr].
  destruct c as [pc ctx feeds wg sem ts]. unfold call_step in Hs. simpl in *.
  destruct pc; simpl in Hs;
    repeat match type of Hs with
           | context [if ?b then _ else _] => destruct b eqn:?
           | context [match ?x with _ => _ end] => destruct x eqn:?
           end; simplify_eq;
    unfold with_mu, with_progress, with_call, with_translator, emit, set_pc,
      set_counters, set_tasks; simpl;
    eexists; (split; [reflexivity|]); simpl; (split; [done|]);
    (split; [done|]); (split; [by auto|]); (split; [done|]); intros ?;
    try done; auto.
Qed.

Lemma step_calls_length l s s' :
  step l s = Some s' → length (calls s') = length (calls s).
Proof.
  intros Hs. destruct l as [i env|i j env|k|i]; simpl in Hs.
  - destruct (calls s !! i) as [c|]; [|done].
    destruct (call_step_shape _ _ _ _ _ Hs) as (c' & -> & _).
    apply length_insert.
  - destruct (calls s !! i) as [c|]; [|done].
    destruct (c_tasks c !! j) as [t|]; [|done].
    destruct (task_step_shape _ _ _ _ _ _ _ Hs) as (c' & pc' & evs & -> & _).
    apply length_insert.
  - destruct (polls s !! k) as [p|]; [|done].
    by destruct (poll_step_shape _ _ _ _ Hs) as (-> & _).
  - destruct (calls s !! i) as [c|]; [|done]. simplify_eq. apply length_insert.
Qed.

(** An invocation stays where it is in the list; once it has reset the
    counter it has done so for good, and a cancelled context stays
    cancelled. *)
Lemma step_call_mono l s s' j c :
  step l s = Some s' → calls s !! j = Some c →
  ∃ c', calls s' !! j = Some c'
        ∧ (reset_done (c_pc c) = true → reset_done (c_pc c') = true)
        ∧ (c_ctx_done c = true → c_ctx_done c' = true)
        ∧ (after_wait (c_pc c') = true →
           after_wait (c_pc c) = true ∨ c_pc c' = CFinLock).
Proof.
  intros Hs Hj. pose proof (lookup_lt_Some _ _ _ Hj) as Hlt.
  destruct l as [i env|i k env|k|i]; simpl in Hs.
  - destruct (calls s !! i) as [ci|] eqn:Hi; [|done].
    destruct (call_step_counters _ _ _ _ _ Hs)
      as (c' & Hcs & Hctx & Hmono & Hwait & _).
    rewrite Hcs. destruct (decide (j = i)) as [->|Hne].
    + rewrite list_lookup_insert_eq by done. simplify_eq.
      exists c'. split; [done|]. split; [done|]. by rewrite Hctx.
    + rewrite list_lookup_insert_ne by done. eauto 10.
  - destruct (calls s !! i) as [ci|] eqn:Hi; [|done].
    destruct (c_tasks ci !! k) as [t|]; [|done].
    destruct (task_step_shape _ _ _ _ _ _ _ Hs)
      as (c' & pc' & evs & Hcs & _ & Hctx & Hpc & _).
    rewrite Hcs. destruct (decide (j = i)) as [->|Hne].
    + rewrite list_lookup_insert_eq by done. simplify_eq.
      exists c'. rewrite Hpc, Hctx. eauto 10.
    + rewrite list_lookup_insert_ne by done. eauto 10.
  - destruct (polls s !! k) as [p|]; [|done].
    destruct (poll_step_shape _ _ _ _ Hs) as (-> & _). eauto 10.
  - destruct (calls s !! i) as [ci|] eqn:Hi; [|done]. simplify_eq. simpl.
    destruct (decide (j = i)) as [->|Hne].
    + rewrite list_lookup_insert_eq by done. simplify_eq. eauto 10.
    + rewrite list_lookup_insert_ne by done. eauto 10.
Qed.

Lemma steps_call_mono s s' j c :
  steps s s' → calls s !! j = Some c →
  ∃ c', calls s' !! j = Some c'
        ∧ (reset_done (c_pc c) = true → reset_done (c_pc c') = true)
        ∧ (c_ctx_done c = true → c_ctx_done c' = true).
Proof.
  intros Hsteps. revert c.
  induction Hsteps as [s|s l s1 s2 H1 _ IH]; intros c Hj; [eauto|].
  destruct (step_call_mono _ _ _ _ _ H1 Hj) as (c1 & Hj1 & Hr1 & Hc1 & _).
  destruct (IH _ Hj1) as (c2 & Hj2 & Hr2 & Hc2). eauto 10.
Qed.

Lemma steps_snoc s s' l s'' : steps s s' → step l s' = Some s'' → steps s s''.
Proof.
  intros Hsteps Hs. induction Hsteps as [s|s l0 s1 s2 H1 _ IH].
  - eapply steps_next; [exact Hs | apply steps_refl].
  - eapply steps_next; [exact H1 | by apply IH].
Qed.

(** Every invocation that is past [wg.Wait()] went through the lock that
    follows it. *)
Lemma wait_point F ctxs npolls s i c :
  reachable F ctxs npolls s → calls s !! i = Some c →
  after_wait (c_pc c) = true →
  ∃ s0 c0, reachable F ctxs npolls s0 ∧ steps s0 s
           ∧ calls s0 !! i = Some c0 ∧ c_pc c0 = CFinLock.
Proof.
  intros Hreach. revert c.
  induction Hreach as [|s l s' Hreach IH Hs]; intros c' Hi' Hpc'.
  - exfalso. unfold init in Hi'. simpl in Hi'. rewrite list_lookup_fmap in Hi'.
    destruct (ctxs !! i); simplify_eq/=.
  - assert (is_Some (calls s !! i)) as [c Hi].
    { apply lookup_lt_is_Some. rewrite <- (step_calls_length _ _ _ Hs).
      by eapply lookup_lt_Some. }
    destruct (step_call_mono _ _ _ _ _ Hs Hi) as (c1 & Hi1 & _ & _ & Hwait).
    simplify_eq. destruct (Hwait Hpc') as [Hpc|Hpc].
    + destruct (IH _ Hi Hpc) as (s0 & c0 & H0 & Hsteps & Hi0 & Hpc0).
      exists s0, c0. split; [done|]. split; [by eapply steps_snoc|]. done.
    + exists s', c'. split; [by eapply reach_step|].
      split; [apply steps_refl|]. done.
Qed.

(** When [wg.Wait()] has just returned, the counters read the size of the
    batch and no other invocation is in a batch. *)
Lemma settled_at_wait s i c :
  Inv s → calls s !! i = Some c →
  after_wait (c_pc c) = true → after_clear (c_pc c) = false →
  c_ctx_done c = false →
  settled i (Z.of_nat (length (c_feeds c))) s.
Proof.
  intros HI Hi Hpc Hclear Hctx.
  destruct (after_wait_counts s i c HI Hi Hpc Hctx) as [HC HT];
    [by rewrite Hclear|].
  split; [by exists c|]. split; [done|]. split; [done|].
  intros j cj Hne Hj. destruct (counts_current (c_pc cj)) eqn:Hcc; [|done].
  exfalso. apply (running_unique s i j c cj HI); [done..| |].
  - by destruct (c_pc c) as [| | | | | | | | | | | | | | | | | | | | | | |[]].
  - by destruct (c_pc cj).
Qed.

(** A step keeps the counters of a finished batch, unless it is the reset
    of another invocation. *)
Lemma settled_step i n l s s' :
  Inv s → settled i n s → step l s = Some s' →
  (∀ j c c', j ≠ i → calls s !! j = Some c → calls s' !! j = Some c' →
             reset_done (c_pc c) = false → reset_done (c_pc c') = false) →
  settled i n s'.
Proof.
  intros HI ((ci & Hi & Hpc & Hn) & HC & HT & Hoth) Hs Hnr.
  pose proof (lookup_lt_Some _ _ _ Hi) as Hlt.
  destruct l as [k env|k j env|k|k]; simpl in Hs.
  - destruct (calls s !! k) as [ck|] eqn:Hk; [|done].
    destruct (call_step_counters _ _ _ _ _ Hs)
      as (c' & Hcs & Hctx & _ & _ & Hafter & Hcc).
    destruct (decide (k = i)) as [->|Hne].
    + simplify_eq. destruct (Hafter Hpc) as (Hpc' & Hfeeds & HC' & HT').
      split; [|split; [congruence|split; [congruence|]]].
      * exists c'. rewrite Hcs, list_lookup_insert_eq by done.
        by rewrite Hfeeds.
      * intros j cj Hne Hj. rewrite Hcs, list_lookup_insert_ne in Hj by done.
        by eapply Hoth.
    + assert (calls s' !! k = Some c') as Hk'.
      { rewrite Hcs. apply list_lookup_insert_eq. by eapply lookup_lt_Some. }
      destruct (Hcc (Hoth _ _ Hne Hk)) as [(Hcc' & HC' & HT')|[Hr Hr']].
      * split; [|split; [congruence|split; [congruence|]]].
        -- exists ci. by rewrite Hcs, list_lookup_insert_ne.
        -- intros j cj Hnej Hj. destruct (decide (j = k)) as [->|Hnek].
           ++ by simplify_eq.
           ++ rewrite Hcs, list_lookup_insert_ne in Hj by done. by eapply Hoth.
      * exfalso. rewrite (Hnr _ _ _ Hne Hk Hk' Hr) in Hr'. done.
  - exfalso. destruct (calls s !! k) as [ck|] eqn:Hk; [|done].
    destruct (c_tasks ck !! j) as [t|] eqn:Hj; [|done].
    pose proof (Forall_lookup_1 _ _ _ _ (inv_calls _ HI) Hk) as Hck.
    assert (task_live t = 1) as Hlive.
    { destruct t as [fd tpc]. unfold task_step in Hs. by destruct tpc. }
    destruct (live_task_running _ _ _ _ _ Hck Hj Hlive) as [Hcur _].
    destruct (decide (k = i)) as [->|Hne].
    + simplify_eq. pose proof (ok_wait _ _ _ Hck Hpc) as Hwg.
      pose proof (ok_wg _ _ _ Hck) as Hwg'.
      pose proof (total_lookup_le task_live _ _ _ Hj). lia.
    + by rewrite (Hoth _ _ Hne Hk) in Hcur.
  - destruct (polls s !! k) as [p|]; [|done].
    destruct (poll_step_shape _ _ _ _ Hs) as (Hcs & _).
    pose proof (poll_step_progress _ _ _ _ Hs) as HP.
    unfold settled. rewrite HP, Hcs. split; [by exists ci|]. done.
  - destruct (calls s !! k) as [ck|] eqn:Hk; [|done]. simplify_eq.
    unfold settled. simpl. split; [|split; [done|split; [done|]]].
    + destruct (decide (k = i)) as [->|Hne].
      * simplify_eq. eexists. rewrite list_lookup_insert_eq by done.
        split; [done|]. done.
      * exists ci. by rewrite list_lookup_insert_ne.
    + intros j cj Hnej Hj. destruct (decide (j = k)) as [->|Hnek].
      * rewrite list_lookup_insert_eq in Hj by (by eapply lookup_lt_Some).
        simplify_eq. simpl. by eapply Hoth.
      * rewrite list_lookup_insert_ne in Hj by done. by eapply Hoth.
Qed.

Lemma settled_steps F ctxs npolls i n s0 s :
  steps s0 s → reachable F ctxs npolls s0 → settled i n s0 →
  no_reset_since i s0 s → settled i n s.
Proof.
  induction 1 as [s|s l s1 s2 H1 Hsteps IH]; intros Hreach Hset Hnr; [done|].
  apply IH.
  - by eapply reach_step.
  - eapply settled_step; [by eapply reachable_Inv | done | done |].
    intros j c c1 Hne Hj Hj1 Hr.
    destruct (reset_done (c_pc c1)) eqn:Hr1; [|done].
    destruct (steps_call_mono _ _ _ _ Hsteps Hj1) as (c2 & Hj2 & Hmono & _).
    rewrite <- (Hnr j c c2 Hne Hj Hj2 Hr). symmetry. by apply Hmono.
  - intros j c1 c2 Hne Hj1 Hj2 Hr1.
    assert (is_Some (calls s !! j)) as [c Hj].
    { apply lookup_lt_is_Some. rewrite <- (step_calls_length _ _ _ H1).
      by eapply lookup_lt_Some. }
    destruct (step_call_mono _ _ _ _ _ H1 Hj) as (c1' & Hj1' & Hmono & _).
    simplify_eq. apply (Hnr j c c2 Hne Hj Hj2).
    destruct (reset_done (c_pc c)); [|done]. rewrite <- Hr1. symmetry.
    by apply Hmono.
Qed.

(** C1.  Take any reachable state in which an invocation of [FetchAll]
    whose context was never cancelled is past [wg.Wait()]: it is finishing
    or has returned.  (1) There is one goroutine per subscription loaded
    for the batch and each has incremented the counter once and exited
    through the normal path, whatever the collaborators answered to it.
    (2) The run went through the state in which the invocation had just
    come out of [wg.Wait()].  (3) Counted from any state in which the
    invocation was past [wg.Wait()] with the running flag still set:
    unless another invocation has reset the counter for a batch of its own
    since then, [Current] equals the number of subscriptions of the batch,
    and so does [Total]; this holds of every batch of the fetcher, the
    first as well as the later ones. *)
Theorem completed_reaches_total F ctxs npolls s i c :
  reachable F ctxs npolls s →
  calls s !! i = Some c →
  after_wait (c_pc c) = true →
  c_ctx_done c = false →
  (Forall (λ t, t_pc t = TExited false) (c_tasks c)
   ∧ length (c_tasks c) = length (c_feeds c))
  ∧ (∃ s0 c0, reachable F ctxs npolls s0 ∧ steps s0 s
              ∧ calls s0 !! i = Some c0 ∧ c_pc c0 = CFinLock)
  ∧ (∀ s0 c0,
       reachable F ctxs npolls s0 → steps s0 s →
       calls s0 !! i = Some c0 →
       after_wait (c_pc c0) = true → after_clear (c_pc c0) = false →
       no_reset_since i s0 s →
       Current (progress s) = Z.of_nat (length (c_feeds c))
       ∧ Total (progress s) = Z.of_nat (length (c_feeds c))).
Proof.
  intros Hreach Hi Hpc Hctx.
  pose proof (reachable_Inv _ _ _ _ Hreach) as HI.
  pose proof (Forall_lookup_1 _ _ _ _ (inv_calls _ HI) Hi) as Hc.
  split; [|split; [by eapply wait_point|]].
  - destruct Hc as [Hwg _ _ _ _ Hdone Hwait Hearly _ _ _ _ _].
    specialize (Hwait Hpc). specialize (Hearly Hctx).
    destruct Hdone as [_ Hlen]; [by destruct (c_pc c) as [| | | | | | | | | | | | | | | | | | | | | | |[]]|].
    split; [|by apply Hlen].
    assert (total task_live (c_tasks c) = 0) as Hlive by lia.
    apply total_zero in Hlive. apply total_zero in Hearly.
    apply Forall_lookup. intros j [fd pc] Hj.
    pose proof (Forall_lookup_1 _ _ _ _ Hlive Hj) as H1.
    pose proof (Forall_lookup_1 _ _ _ _ Hearly Hj) as H2.
    simpl in *. by destruct pc as [| | | | | | |[]|[]|[]].
  - intros s0 c0 Hreach0 Hsteps Hi0 Hpc0 Hclear0 Hnr.
    assert (c_ctx_done c0 = false) as Hctx0.
    { destruct (steps_call_mono _ _ _ _ Hsteps Hi0) as (c' & Hi' & _ & Hmono).
      simplify_eq. destruct (c_ctx_done c0); [|done]. by rewrite Hmono in Hctx. }
    pose proof (settled_at_wait s0 i c0 (reachable_Inv _ _ _ _ Hreach0)
                  Hi0 Hpc0 Hclear0 Hctx0) as Hset0.
    destruct (settled_steps _ _ _ _ _ _ _ Hsteps Hreach0 Hset0 Hnr)
      as ((c' & Hi' & _ & Hn) & HC & HT & _).
    simplify_eq. by rewrite HC, HT, Hn.
Qed.

(** ** Orchestrator: every run ends *)

Lemma call_step_budget env i c s s' :
  call_step env i c s = Some s' →
  ∃ c', calls s' = <[i := c']> (calls s) ∧ polls s' = polls s
        ∧ call_budget env c' < call_budget env c.
Proof.
  intros Hs. destruct s as [F P m cs ps tr].
  destruct c as [pc ctx feeds wg sem ts]. unfold call_step in Hs. simpl in *.
  destruct pc; simpl in Hs;
    repeat match type of Hs with
           | context [if ?b then _ else _] => destruct b eqn:?
           | context [match ?x with _ => _ end] => destruct x eqn:?
           end; simplify_eq;
    unfold with_mu, with_progress, with_call, with_translator, emit, set_pc,
      set_counters, set_tasks; simpl;
    eexists; (split; [reflexivity|]); (split; [done|]);
    unfold call_budget, pc_budget, feeds_to_load;
    repeat match goal with H : db_GetFeeds _ = _ |- _ => rewrite H end;
    simpl; rewrite ?total_app; simpl; lia.
Qed.

Lemma task_step_budget env i j c t s s' :
  c_tasks c !! j = Some t →
  task_step env i j c t s = Some s' →
  ∃ c', calls s' = <[i := c']> (calls s) ∧ polls s' = polls s
        ∧ call_budget env c' < call_budget env c.
Proof.
  intros Hj Hs. destruct s as [F P m cs ps tr].
  destruct c as [pc ctx feeds wg sem ts]. destruct t as [fd tpc].
  unfold task_step in Hs. simpl in *.
  destruct tpc; simpl in Hs;
    repeat match type of Hs with
           | context [if ?b then _ else _] => destruct b eqn:?
           | context [match ?x with _ => _ end] => destruct x eqn:?
           end; simplify_eq;
    unfold with_mu, with_progress, with_call, emit, set_task_pc, set_pc,
      set_counters, set_tasks; simpl;
    eexists; (split; [reflexivity|]); (split; [done|]);
    unfold call_budget; simpl;
    match goal with
    | |- context [<[j := ?t']> ts] =>
        pose proof (total_insert task_budget ts j _ t' Hj) as He
    end; simpl in He; lia.
Qed.

Lemma poll_step_budget k p s s' :
  poll_step k p s = Some s' →
  ∃ p', calls s' = calls s ∧ polls s' = <[k := p']> (polls s)
        ∧ poll_budget p' < poll_budget p.
Proof.
  destruct s as [F P m cs ps tr]. destruct p; simpl; intros Hs;
    try destruct m; simplify_eq; simpl; eexists; (split; [done|]);
    (split; [reflexivity|]); simpl; lia.
Qed.

(** Every step of a thread uses up some of the budget. *)
Lemma step_budget env l s s' :
  uses_env env l → step l s = Some s' → budget env s' < budget env s.
Proof.
  intros Hl Hs. unfold budget.
  destruct l as [i e|i j e|k|i]; simpl in Hl, Hs; [subst e|subst e| |done].
  - destruct (calls s !! i) as [c|] eqn:Hi; [|done].
    destruct (call_step_budget _ _ _ _ _ Hs) as (c' & -> & -> & Hlt).
    pose proof (total_insert (call_budget env) _ _ _ c' Hi). lia.
  - destruct (calls s !! i) as [c|] eqn:Hi; [|done].
    destruct (c_tasks c !! j) as [t|] eqn:Hj; [|done].
    destruct (task_step_budget _ _ _ _ _ _ _ Hj Hs) as (c' & -> & -> & Hlt).
    pose proof (total_insert (call_budget env) _ _ _ c' Hi). lia.
  - destruct (polls s !! k) as [p|] eqn:Hk; [|done].
    destruct (poll_step_budget _ _ _ _ Hs) as (p' & -> & -> & Hlt).
    pose proof (total_insert poll_budget _ _ _ p' Hk). lia.
Qed.

Lemma first_enabled_Some ls s s' :
  first_enabled ls s = Some s' → ∃ l, l ∈ ls ∧ step l s = Some s'.
Proof.
  induction ls as [|l ls IH]; simpl; [done|].
  destruct (step l s) as [s1|] eqn:H1.
  - intros ?; simplify_eq. exists l. split; [left | done].
  - intros H. destruct (IH H) as (l' & Hin & Hl'). exists l'. split; [by right | done].
Qed.

Lemma first_enabled_None ls s :
  first_enabled ls s = None → ∀ l, l ∈ ls → step l s = None.
Proof.
  induction ls as [|l0 ls IH]; simpl; intros H l Hin.
  - by apply elem_of_nil in Hin.
  - destruct (step l0 s) eqn:H0; [done|].
    apply elem_of_cons in Hin as [->|Hin]; [done | by apply IH].
Qed.

Lemma in_call_labels env s i c l :
  calls s !! i = Some c → l ∈ call_labels env i c → l ∈ candidates env s.
Proof.
  intros Hi Hl. unfold candidates. apply elem_of_app. left.
  apply list_elem_of_In, in_concat. exists (call_labels env i c).
  split; [|by apply list_elem_of_In].
  apply list_elem_of_In, list_elem_of_lookup. exists i.
  by rewrite list_lookup_imap, Hi.
Qed.

Lemma in_candidates_call env s i c :
  calls s !! i = Some c → LCall i env ∈ candidates env s.
Proof. intros Hi. eapply in_call_labels; [done|]. left. Qed.

Lemma in_candidates_task env s i c j t :
  calls s !! i = Some c → c_tasks c !! j = Some t → LTask i j env ∈ candidates env s.
Proof.
  intros Hi Hj. eapply in_call_labels; [done|]. right.
  apply list_elem_of_fmap. exists j. split; [done|].
  apply list_elem_of_In, in_seq. apply lookup_lt_Some in Hj. lia.
Qed.

Lemma in_candidates_poll env s k p :
  polls s !! k = Some p → LPoll k ∈ candidates env s.
Proof.
  intros Hk. unfold candidates. apply elem_of_app. right.
  apply list_elem_of_fmap. exists k. split; [done|].
  apply list_elem_of_In, in_seq. apply lookup_lt_Some in Hk. lia.
Qed.

Lemma candidates_uses_env env s l : l ∈ candidates env s → uses_env env l.
Proof.
  unfold candidates. intros [Hl|Hl]%elem_of_app.
  - apply list_elem_of_In, in_concat in Hl as (ls & Hls & Hl).
    apply list_elem_of_In, list_elem_of_lookup in Hls as (i & Hi).
    rewrite list_lookup_imap in Hi.
    destruct (calls s !! i) as [c|]; simplify_eq/=.
    destruct Hl as [<-|Hl]; [done|].
    apply in_map_iff in Hl as (j & <- & _). done.
  - apply list_elem_of_fmap in Hl as (k & -> & _). done.
Qed.

(** A thread that holds the mutex can always take its next step. *)
Lemma call_holder_enabled env i c s :
  call_holds (c_pc c) = true → is_Some (call_step env i c s).
Proof.
  destruct c as [pc ctx feeds wg sem ts]. unfold call_step. simpl.
  destruct pc; simpl; try done; eauto.
Qed.

Lemma poll_holder_enabled k p s : poll_holds p = 1 → is_Some (poll_step k p s).
Proof. destruct p; simpl; try done; eauto. Qed.

(** A goroutine that has not exited can take its next step as soon as the
    mutex is free, provided the channel is not empty while it holds a
    slot. *)
Lemma task_live_enabled env i j c t s :
  mu s = false → task_live t = 1 → (task_in_slot t = 1 → 0 < c_sem c) →
  is_Some (task_step env i j c t s).
Proof.
  intros Hmu Hlive Hsem. destruct t as [fd tpc]. unfold task_step. simpl in *.
  destruct tpc; simpl; try done; eauto.
  - destruct (FetchFeed_prepare _ _ _) as [evs [arts|]]; eauto.
  - rewrite Hmu. eauto.
  - specialize (Hsem eq_refl). apply Nat.ltb_lt in Hsem. rewrite Hsem. eauto.
Qed.

(** With the mutex free, an invocation cannot move only if it waits for a
    pool slot, waits for its goroutines, or has returned. *)
Lemma call_blocked env i c s :
  mu s = false → call_step env i c s = None →
  (∃ fd rest, c_pc c = CSend fd rest ∧ sem_capacity ≤ c_sem c)
  ∨ (c_pc c = CWait ∧ c_wg c ≠ 0)
  ∨ (∃ k, c_pc c = CReturned k).
Proof.
  intros Hmu. destruct c as [pc ctx feeds wg sem ts]. unfold call_step. simpl.
  destruct pc; simpl; rewrite ?Hmu; try done.
  - by destruct (db_GetFeeds env).
  - destruct rest; [done|]. by destruct ctx.
  - destruct (sem <? sem_capacity) eqn:E; [done|]. apply Nat.ltb_ge in E.
    intros _. left. eauto.
  - destruct (wg =? 0) eqn:E; [done|]. apply Nat.eqb_neq in E.
    intros _. right. left. done.
  - intros _. right. right. eauto.
Qed.

(** No deadlock: a reachable state in which no thread can move is one in
    which every invocation has returned. *)
Lemma stuck_finished env s :
  Inv s → (∀ l, l ∈ candidates env s → step l s = None) → finished s.
Proof.
  intros HI Hstuck.
  assert (HA : ∀ i c, calls s !! i = Some c → call_step env i c s = None).
  { intros i c Hi. specialize (Hstuck _ (in_candidates_call env s i c Hi)).
    simpl in Hstuck. by rewrite Hi in Hstuck. }
  assert (HB : ∀ i c j t, calls s !! i = Some c → c_tasks c !! j = Some t →
                 task_step env i j c t s = None).
  { intros i c j t Hi Hj.
    specialize (Hstuck _ (in_candidates_task env s i c j t Hi Hj)).
    simpl in Hstuck. by rewrite Hi, Hj in Hstuck. }
  assert (HC : ∀ k p, polls s !! k = Some p → poll_step k p s = None).
  { intros k p Hk. specialize (Hstuck _ (in_candidates_poll env s k p Hk)).
    simpl in Hstuck. by rewrite Hk in Hstuck. }
  assert (Hmu : mu s = false).
  { destruct (mu s) eqn:Hm; [|done]. exfalso.
    pose proof (inv_mu _ HI) as Hsum. rewrite Hm in Hsum. simpl in Hsum.
    destruct (decide (0 < total call_lock_weight (calls s))) as [Hpos|Hzero].
    - apply total_pos_lookup in Hpos as (i & c & Hi & Hw).
      unfold call_lock_weight in Hw.
      destruct (call_holds (c_pc c)) eqn:Hh.
      + destruct (call_holder_enabled env i c s Hh) as [s' Hs'].
        rewrite (HA _ _ Hi) in Hs'. done.
      + simpl in Hw. apply total_pos_lookup in Hw as (j & t & Hj & Ht).
        assert (is_Some (task_step env i j c t s)) as [s' Hs'].
        { destruct t as [fd tpc]. unfold task_step. simpl in *.
          destruct tpc; simpl in *; try lia; eauto. }
        rewrite (HB _ _ _ _ Hi Hj) in Hs'. done.
    - destruct (total_pos_lookup poll_holds (polls s)) as (k & p & Hk & Hp); [lia|].
      assert (poll_holds p = 1) as Hp1 by (destruct p; simpl in *; lia).
      destruct (poll_holder_enabled k p s Hp1) as [s' Hs'].
      rewrite (HC _ _ Hk) in Hs'. done. }
  split.
  - apply Forall_lookup. intros i c Hi.
    pose proof (Forall_lookup_1 _ _ _ _ (inv_calls _ HI) Hi) as Hc.
    destruct (call_blocked env i c s Hmu (HA _ _ Hi))
      as [(fd & rest & Hpc & Hfull) | [[Hpc Hwg] | Hret]]; [| |done]; exfalso.
    + pose proof (ok_sem _ _ _ Hc) as Hsem. rewrite Hpc in Hsem. simpl in Hsem.
      unfold sem_capacity in Hfull.
      destruct (total_pos_lookup task_in_slot (c_tasks c)) as (j & t & Hj & Ht);
        [unfold in_flight in Hsem; lia|].
      assert (is_Some (task_step env i j c t s)) as [s' Hs'].
      { apply task_live_enabled; [done | | intros; lia].
        destruct t as [fd' []]; simpl in *; lia. }
      rewrite (HB _ _ _ _ Hi Hj) in Hs'. done.
    + pose proof (ok_wg _ _ _ Hc) as Hw. rewrite Hpc in Hw. simpl in Hw.
      pose proof (ok_sem _ _ _ Hc) as Hsem. rewrite Hpc in Hsem. simpl in Hsem.
      destruct (total_pos_lookup task_live (c_tasks c)) as (j & t & Hj & Ht); [lia|].
      assert (is_Some (task_step env i j c t s)) as [s' Hs'].
      { apply task_live_enabled; [done | destruct t as [fd' []]; simpl in *; lia |].
        intros Hslot. pose proof (total_lookup_le task_in_slot _ _ _ Hj).
        unfold in_flight in Hsem. lia. }
      rewrite (HB _ _ _ _ Hi Hj) in Hs'. done.
  - apply Forall_lookup. intros k p Hk. specialize (HC _ _ Hk).
    destruct p; simpl in HC; rewrite ?Hmu in HC; try done. eauto.
Qed.

Lemma run_sched_step env n s :
  run_sched env (S n) s
  = match first_enabled (candidates env s) s with
    | Some s' => run_sched env n s'
    | None => s
    end.
Proof. reflexivity. Qed.

Lemma run_sched_steps env n s : steps s (run_sched env n s).
Proof.
  revert s. induction n as [|n IH]; intros s; [constructor|].
  rewrite run_sched_step.
  destruct (first_enabled _ _) as [s'|] eqn:H; [|constructor].
  apply first_enabled_Some in H as (l & _ & Hl). eapply steps_next; eauto.
Qed.

Lemma exec_steps ls s s' : exec ls s = Some s' → steps s s'.
Proof.
  revert s. induction ls as [|l ls IH]; simpl; intros s H.
  - simplify_eq. constructor.
  - destruct (step l s) as [s1|] eqn:H1; [|done]. eapply steps_next; eauto.
Qed.

(** The scheduler stops only when every invocation has returned, and it
    stops within the budget. *)
Lemma run_sched_finishes env n s :
  Inv s → budget env s ≤ n → finished (run_sched env n s).
Proof.
  revert s. induction n as [|n IH]; intros s HI Hle.
  - simpl. apply (stuck_finished env); [done|].
    intros l Hl. destruct (step l s) as [s'|] eqn:Hs; [|done]. exfalso.
    pose proof (step_budget env l s s' (candidates_uses_env _ _ _ Hl) Hs). lia.
  - rewrite run_sched_step.
    destruct (first_enabled _ _) as [s'|] eqn:H.
    + apply first_enabled_Some in H as (l & Hl & Hs).
      pose proof (step_budget env l s s' (candidates_uses_env _ _ _ Hl) Hs).
      apply IH; [by eapply Inv_step | lia].
    + apply (stuck_finished env); [done|]. by apply first_enabled_None.
Qed.

(** In a run where the store answers as in [env] and nobody cancels, each
    invocation knows the subscriptions of [env]. *)
Lemma loaded_step env l s s' :
  uses_env env l → step l s = Some s' →
  Forall (loaded_from env) (calls s) → Forall (loaded_from env) (calls s')
  ∧ length (calls s') = length (calls s).
Proof.
  intros Hl Hs Hall.
  destruct l as [i e|i j e|k|i]; simpl in Hl, Hs; [subst e|subst e| |done].
  - destruct (calls s !! i) as [c|] eqn:Hi; [|done].
    pose proof (Forall_lookup_1 _ _ _ _ Hall Hi) as (Hfail & Hdone & Hctx).
    assert (∃ c', calls s' = <[i := c']> (calls s) ∧ loaded_from env c')
      as (c' & -> & Hc').
    { clear Hall. destruct s as [F P m cs ps tr].
      destruct c as [pc ctx feeds wg sem ts]. unfold call_step in Hs. simpl in *.
      destruct pc; simpl in Hs;
        repeat match type of Hs with
               | context [if ?b then _ else _] => destruct b eqn:?
               | context [match ?x with _ => _ end] => destruct x eqn:?
               end; simplify_eq;
        unfold with_mu, with_progress, with_call, with_translator, emit, set_pc,
          set_counters, set_tasks; simpl;
        eexists; (split; [reflexivity|]); unfold loaded_from; simpl;
        repeat split; intros; try done; eauto. }
    split; [by apply Forall_insert | by rewrite length_insert].
  - destruct (calls s !! i) as [c|] eqn:Hi; [|done].
    destruct (c_tasks c !! j) as [t|] eqn:Hj; [|done].
    pose proof (Forall_lookup_1 _ _ _ _ Hall Hi) as (Hfail & Hdone & Hctx).
    destruct (task_step_shape _ _ _ _ _ _ _ Hs)
      as (c' & pc' & evs & -> & _ & Hctx' & Hpc & Hfeeds & _).
    split; [|by rewrite length_insert]. apply Forall_insert; [done|].
    unfold loaded_from. rewrite Hpc, Hfeeds, Hctx'. done.
  - destruct (polls s !! k) as [p|] eqn:Hk; [|done].
    destruct (poll_step_shape _ _ _ _ Hs) as (-> & _). done.
Qed.

Lemma loaded_run_sched env n s :
  Forall (loaded_from env) (calls s) →
  Forall (loaded_from env) (calls (run_sched env n s))
  ∧ length (calls (run_sched env n s)) = length (calls s).
Proof.
  revert s. induction n as [|n IH]; intros s Hall; [done|].
  rewrite run_sched_step.
  destruct (first_enabled _ _) as [s'|] eqn:H; [|done].
  apply first_enabled_Some in H as (l & Hl & Hs).
  destruct (loaded_step env l s s' (candidates_uses_env _ _ _ Hl) Hs Hall) as [H1 H2].
  destruct (IH s' H1) as [H3 H4]. split; [done | congruence].
Qed.

(** A finished run of a single invocation whose load succeeded and whose
    context was not cancelled: [FetchAll] has returned through [Finish] and
    the progress struct counts every subscription. *)
Lemma finished_single env F npolls feeds s :
  db_GetFeeds env = Ok feeds →
  reachable F [false] npolls s →
  finished s →
  Forall (loaded_from env) (calls s) →
  length (calls s) = 1 →
  ∃ c, calls s = [c]
       ∧ c_pc c = CReturned ExitBatch
       ∧ c_feeds c = feeds
       ∧ progress s
         = mkProgress (Z.of_nat (length feeds)) (Z.of_nat (length feeds)) false.
Proof.
  intros Hfeeds Hreach Hfin Hload Hlen.
  pose proof (reachable_Inv _ _ _ _ Hreach) as HI.
  destruct (calls s) as [|c [|c2 cs]] eqn:Hcalls; simpl in Hlen; try lia.
  assert (calls s !! 0 = Some c) as Hi by (by rewrite Hcalls).
  pose proof (Forall_lookup_1 _ _ _ _ (inv_calls _ HI) Hi) as Hc.
  rewrite Hcalls in Hc. simpl in Hc.
  destruct Hfin as [Hret _]. rewrite Hcalls in Hret.
  apply Forall_cons in Hret as [[k Hk] _].
  apply Forall_cons in Hload as [(Hfail & Hdone & Hctx) _].
  assert (k = ExitBatch) as ->.
  { destruct k; [| |done]; exfalso.
    - pose proof (ok_busy _ _ _ Hc (or_intror Hk)) as Hn.
      unfold call_gate_weight in Hn. rewrite Hk in Hn. simpl in Hn. lia.
    - rewrite Hk in Hfail. destruct (Hfail eq_refl) as [m Hm]. congruence. }
  assert (c_feeds c = feeds) as Hcf.
  { rewrite Hk in Hdone. specialize (Hdone eq_refl). congruence. }
  exists c. do 3 (split; [done|]).
  destruct (after_wait_counts s 0 c HI Hi) as (HC & HT).
  - by rewrite Hk.
  - done.
  - intros _ j c' Hne Hj. rewrite Hcalls in Hj. by destruct j as [|[|j]].
  - pose proof (inv_running _ HI) as Hrun. rewrite Hcalls in Hrun.
    unfold call_run_weight in Hrun. simpl in Hrun. rewrite Hk in Hrun. simpl in Hrun.
    destruct (progress s) as [T C R]. simpl in *. rewrite Hcf in HC, HT.
    destruct R; simpl in Hrun; [lia|]. by rewrite HC, HT.
Qed.

(** Total correctness of a batch under the scheduler [run_sched].  One
    invocation of [FetchAll] with a context that is never cancelled, any
    number of pollers, a store that delivers the subscriptions [feeds],
    and collaborators that answer each call as [env] says (success or
    failure): the run ends within the budget, [FetchAll] has returned
    through [Finish], and the progress struct reads
    [Total = Current = len(feeds)], not running. *)
Theorem FetchAll_completes env F npolls feeds :
  db_GetFeeds env = Ok feeds →
  let s0 := init F [false] npolls in
  let s := run_sched env (budget env s0) s0 in
  reachable F [false] npolls s
  ∧ finished s
  ∧ ∃ c, calls s = [c]
         ∧ c_pc c = CReturned ExitBatch
         ∧ c_feeds c = feeds
         ∧ progress s
           = mkProgress (Z.of_nat (length feeds)) (Z.of_nat (length feeds)) false.
Proof.
  intros Hfeeds s0 s.
  assert (reachable F [false] npolls s) as Hreach.
  { eapply reachable_steps; [apply reach_init | apply run_sched_steps]. }
  assert (finished s) as Hfin.
  { apply run_sched_finishes; [apply Inv_init | done]. }
  assert (Forall (loaded_from env) (calls s0)) as Hload0.
  { repeat constructor; simpl; done. }
  destruct (loaded_run_sched env (budget env s0) s0 Hload0) as [Hload Hlen].
  split; [done|]. split; [done|]. by eapply finished_single.
Qed.

(** The same under every schedule.  Take any run of the threads from the
    initial state in which the collaborators answer as in [env] and
    nobody cancels.  The run is no longer than the budget, and if it has
    come to a state where no thread can move, then [FetchAll] has returned
    through [Finish] and the progress struct counts every subscription. *)
Theorem every_run_completes env F npolls feeds ls s :
  db_GetFeeds env = Ok feeds →
  Forall (uses_env env) ls →
  exec ls (init F [false] npolls) = Some s →
  length ls + budget env s ≤ budget env (init F [false] npolls)
  ∧ ((∀ l, uses_env env l → step l s = None) →
     ∃ c, calls s = [c]
          ∧ c_pc c = CReturned ExitBatch
          ∧ c_feeds c = feeds
          ∧ progress s
            = mkProgress (Z.of_nat (length feeds)) (Z.of_nat (length feeds)) false).
Proof.
  intros Hfeeds Hls Hexec.
  assert (Hgen : ∀ ls s0 s,
             Forall (uses_env env) ls → exec ls s0 = Some s →
             Forall (loaded_from env) (calls s0) →
             length ls + budget env s ≤ budget env s0
             ∧ Forall (loaded_from env) (calls s)
             ∧ length (calls s) = length (calls s0)).
  { clear. induction ls as [|l ls IH]; intros s0 s Hall He Hload; simpl in He.
    - simplify_eq. simpl. done.
    - destruct (step l s0) as [s1|] eqn:H1; [|done].
      apply Forall_cons in Hall as [Hl Hall].
      destruct (loaded_step env l s0 s1 Hl H1 Hload) as [Hload1 Hlen1].
      destruct (IH s1 s Hall He Hload1) as (Hb & Hload' & Hlen').
      pose proof (step_budget env l s0 s1 Hl H1). simpl.
      split; [lia|]. split; [done | congruence]. }
  destruct (Hgen ls _ s Hls Hexec) as (Hb & Hload & Hlen).
  { repeat constructor; simpl; done. }
  split; [done|]. intros Hstuck.
  assert (reachable F [false] npolls s) as Hreach.
  { eapply reachable_exec; [apply reach_init | done]. }
  eapply finished_single; eauto.
  apply (stuck_finished env); [by eapply reachable_Inv|].
  intros l Hl. apply Hstuck. by eapply candidates_uses_env.
Qed.

(** ** The properties on the sample world *)

Lemma batch_done_reachable : reachable fetcher0 [false] 1 batch_done.
Proof.
  eapply reachable_steps; [apply reach_init | apply run_sched_steps].
Qed.

Lemma batch_done_calls :
  calls batch_done
  = [mkCall (CReturned ExitBatch) false sample_feeds 0 0
       (map (λ fd, mkTask fd (TExited false)) sample_feeds)].
Proof. vm_compute. reflexivity. Qed.

Lemma second_wait_reachable : reachable fetcher0 [false; false] 0 second_wait.
Proof.
  eapply reachable_steps; [apply reach_init | apply run_sched_steps].
Qed.

Lemma second_done_reachable : reachable fetcher0 [false; false] 0 second_done.
Proof.
  eapply reachable_steps; [apply second_wait_reachable | apply run_sched_steps].
Qed.

Lemma second_wait_calls :
  calls second_wait
  = [mkCall (CReturned ExitBatch) false sample_feeds 0 0
       (map (λ fd, mkTask fd (TExited false)) sample_feeds);
     mkCall CFinLock false sample_feeds 0 0
       (map (λ fd, mkTask fd (TExited false)) sample_feeds)].
Proof. vm_compute. reflexivity. Qed.

Lemma second_done_calls :
  calls second_done
  = [mkCall (CReturned ExitBatch) false sample_feeds 0 0
       (map (λ fd, mkTask fd (TExited false)) sample_feeds);
     mkCall (CReturned ExitBatch) false sample_feeds 0 0
       (map (λ fd, mkTask fd (TExited false)) sample_feeds)].
Proof. vm_compute. reflexivity. Qed.

(** The first invocation had run its batch before the second came out of
    [wg.Wait()]. *)
Lemma second_done_no_reset : no_reset_since 1 second_wait second_done.
Proof.
  intros j c0 c Hne Hj0 _. rewrite second_wait_calls in Hj0.
  destruct j as [|[|j]]; [|congruence|discriminate].
  injection Hj0 as <-. discriminate.
Qed.

(** The second of two batches of six subscriptions, three of which fail:
    when the second invocation has returned the counter reads six. *)
Lemma completed_reaches_total_witness : Current (progress second_done) = 6%Z.
Proof.
  assert (calls second_done !! 1
          = Some (mkCall (CReturned ExitBatch) false sample_feeds 0 0
                    (map (λ fd, mkTask fd (TExited false)) sample_feeds))) as Hi.
  { rewrite second_done_calls. reflexivity. }
  assert (calls second_wait !! 1
          = Some (mkCall CFinLock false sample_feeds 0 0
                    (map (λ fd, mkTask fd (TExited false)) sample_feeds))) as Hi0.
  { rewrite second_wait_calls. reflexivity. }
  exact (proj1 (proj2 (proj2
           (completed_reaches_total fetcher0 [false; false] 0 second_done 1 _
              second_done_reachable Hi eq_refl eq_refl))
           second_wait _ second_wait_reachable (run_sched_steps _ _ _) Hi0
           eq_refl eq_refl second_done_no_reset)).
Defined.

Lemma overlap_state_exec :
  exec overlap_labels (init fetcher0 [false; false] 0) = Some overlap_state.
Proof. vm_compute. reflexivity. Qed.

(** C1, counterexample.  Two invocations of [FetchAll], neither context
    ever cancelled, one subscription.  The first runs its batch and clears
    the running flag; before it writes the timestamp the second passes the
    gate and resets the counter.  At the moment the first invocation
    returns, its batch had one subscription and its goroutine has
    incremented the counter, yet [Current] reads zero. *)
Lemma completed_reset_by_next_batch :
  ∃ c, reachable fetcher0 [false; false] 0 overlap_state
       ∧ calls overlap_state !! 0 = Some c
       ∧ c_pc c = CReturned ExitBatch
       ∧ Forall (λ c', c_ctx_done c' = false) (calls overlap_state)
       ∧ length (c_feeds c) = 1
       ∧ Forall (λ t, t_pc t = TExited false) (c_tasks c)
       ∧ Current (progress overlap_state) = 0%Z
       ∧ Current (progress overlap_state) ≠ Z.of_nat (length (c_feeds c)).
Proof.
  exists (mkCall (CReturned ExitBatch) false [sample_feed 1] 0 0
            [mkTask (sample_feed 1) (TExited false)]).
  split.
  { eapply reachable_exec; [apply reach_init | apply overlap_state_exec]. }
  vm_compute. split; [reflexivity|]. split; [reflexivity|].
  split; [repeat constructor|]. split; [reflexivity|].
  split; [repeat constructor|]. split; [reflexivity | discriminate].
Qed.

Lemma batch_full_reachable : reachable fetcher0 [false] 0 batch_full.
Proof.
  eapply reachable_steps; [apply reach_init | apply run_sched_steps].
Qed.

(** With five goroutines started and none finished the channel is full. *)
Lemma pool_bound_witness :
  ∃ c, calls batch_full !! 0 = Some c ∧ c_sem c = 5 ∧ in_flight c ≤ 5.
Proof.
  destruct (calls batch_full !! 0) as [c|] eqn:Hi.
  - exists c. split; [reflexivity|].
    split; [|exact (proj1 (pool_bound fetcher0 [false] 0 batch_full 0 c
                             batch_full_reachable Hi))].
    revert Hi. vm_compute. intros Hi. injection Hi as <-. reflexivity.
  - exfalso. revert Hi. vm_compute. discriminate.
Defined.

Lemma gate_state_reachable s :
  exec gate_labels (init fetcher0 [false; false] 0) = Some s →
  reachable fetcher0 [false; false] 0 s.
Proof. apply reachable_exec, reach_init. Qed.

(** A second invocation arriving during the batch of the first returns
    in two steps and leaves the progress struct and the trace alone. *)
Lemma second_start_is_noop_witness :
  ∃ s s1 s2,
    exec gate_labels (init fetcher0 [false; false] 0) = Some s
    ∧ step (LCall 1 mixed_env) s = Some s1
    ∧ step (LCall 1 mixed_env) s1 = Some s2
    ∧ progress s2 = progress s
    ∧ trace s2 = trace s.
Proof.
  destruct (exec gate_labels (init fetcher0 [false; false] 0)) as [s|] eqn:He.
  - assert (calls s !! 1 = Some (mkCall CGate false [] 0 0 [])) as Hi.
    { revert He. vm_compute. intros He. injection He as <-. reflexivity. }
    assert (IsRunning (progress s) = true) as Hrun.
    { revert He. vm_compute. intros He. injection He as <-. reflexivity. }
    destruct (proj2 (proj2 (second_start_is_noop fetcher0 [false; false] 0 s
                              (gate_state_reachable s He)))
                1 _ mixed_env Hi eq_refl Hrun)
      as (s1 & s2 & H1 & H2 & _ & H4 & H5 & _).
    exists s, s1, s2. repeat split; assumption.
  - exfalso. revert He. vm_compute. discriminate.
Defined.

Lemma cancel_state_exec :
  exec cancel_labels (init fetcher0 [false] 0) = Some cancel_state.
Proof. vm_compute. reflexivity. Qed.


(** The completed batch has written its timestamp. *)
Lemma exit_clears_running_witness :
  ∃ v, call_events 0 batch_done = [EvSetSetting "last_article_update" v].
Proof.
  assert (calls batch_done !! 0
          = Some (mkCall (CReturned ExitBatch) false sample_feeds 0 0
                    (map (λ fd, mkTask fd (TExited false)) sample_feeds))) as Hi.
  { rewrite batch_done_calls. reflexivity. }
  exact (proj1 (proj2 (exit_clears_running fetcher0 [false] 1 batch_done 0 _
                         ExitBatch batch_done_reachable Hi eq_refl
                         ltac:(discriminate)))
           eq_refl).
Defined.

Lemma set_state_reachable : reachable fetcher0 [false] 0 set_state.
Proof.
  eapply reachable_steps; [apply reach_init | apply run_sched_steps].
Qed.

(** The write of the running flag happens with the mutex held. *)
Lemma progress_only_under_lock_witness : mu set_state = true.
Proof.
  destruct (step (LCall 0 mixed_env) set_state) as [s'|] eqn:Hs.
  - refine (proj1 (proj1 (progress_only_under_lock fetcher0 [false] 0 set_state
                            (LCall 0 mixed_env) s' set_state_reachable Hs) _)).
    revert Hs. vm_compute. intros Hs. injection Hs as <-. discriminate.
  - exfalso. revert Hs. vm_compute. discriminate.
Defined.
(** ** Orchestrator: what a poller can see *)

Lemma total_le_length {A} (w : A → nat) (l : list A) :
  (∀ x, w x ≤ 1) → total w l ≤ length l.
Proof.
  intros Hw. induction l as [|a l IH]; simpl; [lia|]. specialize (Hw a). lia.
Qed.

Lemma task_counted_le_1 (t : task) : task_counted t ≤ 1.
Proof. destruct t as [fd []]; simpl; try lia; destruct early; lia. Qed.

(** The goroutines of an invocation never outnumber its subscriptions. *)
Lemma tasks_le_feeds P n c : call_ok P n c → length (c_tasks c) ≤ length (c_feeds c).
Proof.
  intros Hc. destruct (undispatched (c_pc c)) as [r|] eqn:Hu.
  - pose proof (ok_loop _ _ _ Hc r Hu). lia.
  - destruct (after_loop (c_pc c)) eqn:Ha.
    + by destruct (ok_done _ _ _ Hc Ha).
    + rewrite (ok_none _ _ _ Hc Hu Ha). simpl. lia.
Qed.

(** An invocation that has a goroutine has published its total. *)
Lemma live_task_knows_total P n c j t :
  call_ok P n c → c_tasks c !! j = Some t → task_live t = 1 →
  knows_total (c_pc c) = true.
Proof.
  intros Hc Hj Hlive.
  destruct (live_task_running _ _ _ _ _ Hc Hj Hlive) as [Hcur Hclear].
  destruct (knows_total (c_pc c)) eqn:Hk; [done|]. exfalso.
  assert (c_tasks c = []) as Hnil.
  { apply (ok_none _ _ _ Hc); destruct (c_pc c) as [| | | | | | | | | | | | | | | | | | | | | | |[]]; done. }
  by rewrite Hnil in Hj.
Qed.

Lemma progress_in_range_step l s s' :
  Inv s → step l s = Some s' →
  progress_in_range (progress s) → progress_in_range (progress s').
Proof.
  intros HI Hs [H0 H1]. unfold progress_in_range.
  destruct l as [i env|i j env|k|i]; simpl in Hs.
  - destruct (calls s !! i) as [c|] eqn:Hi; [|done].
    pose proof (Forall_lookup_1 _ _ _ _ (inv_calls _ HI) Hi) as Hc.
    destruct s as [F P m cs ps tr]. destruct c as [pc ctx feeds wg sem ts].
    unfold call_step in Hs. simpl in *.
    destruct pc; simpl in Hs;
      repeat match type of Hs with
             | context [if ?b then _ else _] => destruct b eqn:?
             | context [match ?x with _ => _ end] => destruct x eqn:?
             end; simplify_eq; simpl; try done; try lia.
    pose proof (ok_current _ _ _ Hc eq_refl) as Hcur.
    pose proof (ok_none _ _ _ Hc eq_refl eq_refl) as Hnil. simpl in *.
    subst ts. simpl in Hcur. lia.
  - destruct (calls s !! i) as [c|] eqn:Hi; [|done].
    destruct (c_tasks c !! j) as [t|] eqn:Hj; [|done].
    pose proof (Forall_lookup_1 _ _ _ _ (inv_calls _ HI) Hi) as Hc.
    assert (progress s' = progress s
            ∨ (t_pc t = TInc
               ∧ Current (progress s') = (Current (progress s) + 1)%Z
               ∧ Total (progress s') = Total (progress s))) as [->|(Hpc & HC & HT)];
      [|done|].
    { clear Hc Hi Hj. destruct s as [F P m cs ps tr].
      destruct c as [pc ctx feeds wg sem ts]. destruct t as [fd tpc].
      unfold task_step in Hs. simpl in *.
      destruct tpc; simpl in Hs;
        repeat match type of Hs with
               | context [if ?b then _ else _] => destruct b eqn:?
               | context [match ?x with _ => _ end] => destruct x eqn:?
               end; simplify_eq; simpl; auto. }
    rewrite HC, HT.
    assert (task_live t = 1 ∧ task_counted t = 0) as [Hlive Hcnt].
    { destruct t as [fd tpc]; simpl in *; subst tpc; done. }
    pose proof (live_task_knows_total _ _ _ _ _ Hc Hj Hlive) as Hk.
    destruct (live_task_running _ _ _ _ _ Hc Hj Hlive) as [Hcur _].
    pose proof (ok_current _ _ _ Hc Hcur) as HCur.
    pose proof (ok_total _ _ _ Hc Hk) as HTot.
    pose proof (tasks_le_feeds _ _ _ Hc) as Hlen.
    pose proof (total_insert task_counted _ j t (mkTask (t_feed t) TIncUnlock) Hj) as Hins.
    pose proof (total_le_length task_counted
                  (<[j := mkTask (t_feed t) TIncUnlock]> (c_tasks c))
                  task_counted_le_1) as Hle.
    rewrite length_insert in Hle. simpl in Hins. lia.
  - destruct (polls s !! k) as [p|] eqn:Hk; [|done].
    by rewrite (poll_step_progress _ _ _ _ Hs).
  - destruct (calls s !! i) as [c|]; [|done]. by simplify_eq.
Qed.

Lemma progress_in_range_init F ctxs npolls :
  progress_in_range (progress (init F ctxs npolls)).
Proof. unfold progress_in_range. simpl. lia. Qed.

(** X1.  The progress counter stays within its range.  In every reachable
    state, whatever the number of invocations, pollers and cancellations,
    [0 <= Current <= Total] holds of the progress struct, and every
    snapshot that [GetProgress] holds or has returned satisfies it too: a
    poller never sees more completed sources than the total. *)
Theorem progress_within_total F ctxs npolls s :
  reachable F ctxs npolls s →
  progress_in_range (progress s)
  ∧ ∀ k snap, polls s !! k = Some (PUnlock snap) ∨ polls s !! k = Some (PReturned snap) →
              progress_in_range snap.
Proof.
  induction 1 as [|s l s' Hreach [IHP IHS] Hs].
  - split; [apply progress_in_range_init|].
    intros k snap [Hk|Hk]; simpl in Hk;
      apply lookup_replicate in Hk as [? _]; done.
  - pose proof (reachable_Inv _ _ _ _ Hreach) as HI.
    split; [by eapply progress_in_range_step|].
    intros k snap Hk.
    destruct l as [i env|i j env|k0|i]; simpl in Hs.
    + destruct (calls s !! i) as [c|]; [|done].
      destruct (call_step_shape _ _ _ _ _ Hs) as (c' & _ & Hp & _).
      rewrite Hp in Hk. eauto.
    + destruct (calls s !! i) as [c|]; [|done].
      destruct (c_tasks c !! j) as [t|]; [|done].
      destruct (task_step_shape _ _ _ _ _ _ _ Hs) as (c' & pc' & evs & _ & Hp & _).
      rewrite Hp in Hk. eauto.
    + destruct (polls s !! k0) as [p|] eqn:Hk0; [|done].
      pose proof (Forall_lookup_1 _ _ _ _ (inv_polls _ HI) Hk0) as Hp.
      destruct (decide (k = k0)) as [->|Hne].
      * assert (k0 < length (polls s)) by (by eapply lookup_lt_Some).
        destruct s as [F0 P m cs ps tr]. simpl in *.
        destruct p; simpl in Hs; try destruct m; simplify_eq; simpl in Hk;
          rewrite list_lookup_insert_eq in Hk by done;
          destruct Hk as [Hk|Hk]; simplify_eq; simpl in Hp; subst; try done.
        all: destruct Hp as [-> ->]; by destruct P.
      * assert (polls s' !! k = polls s !! k) as Heq.
        { destruct s as [F0 P m cs ps tr]. simpl in *.
          destruct p; simpl in Hs; try destruct m; simplify_eq; simpl;
            by rewrite list_lookup_insert_ne. }
        rewrite Heq in Hk. eauto.
    + destruct (calls s !! i) as [c|]; [|done]. simplify_eq. simpl in Hk. eauto.
Qed.

Lemma total_all_zero {A} (w : A → nat) (l : list A) :
  Forall (λ x, w x = 0) l → total w l = 0.
Proof. induction 1 as [|a l Ha _ IH]; simpl; [done | lia]. Qed.

(** An invocation outside its batch has no live goroutine, an empty pool
    and a wait group at zero. *)
Lemma not_running_idle P n c :
  call_ok P n c → call_running (c_pc c) = false →
  all_exited c ∧ c_wg c = 0 ∧ c_sem c = 0.
Proof.
  intros Hc Hrun.
  assert (all_exited c) as Hex.
  { apply Forall_lookup. intros j t Hj.
    destruct (t_pc t) eqn:Hpc; eauto; exfalso;
      (assert (task_live t = 1) as Hlive
         by (destruct t as [fd tpc]; simpl in *; by subst tpc));
      destruct (live_task_running _ _ _ _ _ Hc Hj Hlive) as [Hcur _];
      destruct (c_pc c); simpl in *; congruence. }
  split; [done|].
  assert (total task_live (c_tasks c) = 0) as Hlive.
  { apply total_all_zero. eapply Forall_impl; [exact Hex|].
    intros [fd tpc] [early Hpc]. simpl in *. by subst tpc. }
  assert (total task_in_slot (c_tasks c) = 0) as Hslot.
  { apply total_all_zero. eapply Forall_impl; [exact Hex|].
    intros [fd tpc] [early Hpc]. simpl in *. by subst tpc. }
  pose proof (ok_wg _ _ _ Hc) as Hwg. pose proof (ok_sem _ _ _ Hc) as Hsem.
  unfold in_flight in Hsem. rewrite Hlive in Hwg. rewrite Hslot in Hsem.
  destruct (c_pc c); simpl in *; try done; lia.
Qed.

Lemma idle_not_running s i c :
  Inv s → IsRunning (progress s) = false → calls s !! i = Some c →
  call_running (c_pc c) = false.
Proof.
  intros HI Hidle Hi. pose proof (inv_running _ HI) as Hrun.
  rewrite Hidle in Hrun. simpl in Hrun. symmetry in Hrun.
  pose proof (total_lookup_le call_run_weight _ _ _ Hi) as Hle.
  unfold call_run_weight at 1 in Hle.
  destruct (call_running (c_pc c)); [simpl in Hle; lia | done].
Qed.

(** X2.  No work outlives the batch.  Whenever the running flag reads
    false, no invocation of [FetchAll] is inside a batch, every goroutine
    ever started has run its deferred calls, every wait group is at zero
    and every pool is empty. *)
Theorem idle_means_no_work F ctxs npolls s i c :
  reachable F ctxs npolls s →
  IsRunning (progress s) = false →
  calls s !! i = Some c →
  call_running (c_pc c) = false ∧ all_exited c ∧ c_wg c = 0 ∧ c_sem c = 0.
Proof.
  intros Hreach Hidle Hi. pose proof (reachable_Inv _ _ _ _ Hreach) as HI.
  pose proof (idle_not_running _ _ _ HI Hidle Hi) as Hrun.
  split; [done|]. eapply not_running_idle; [|done].
  exact (Forall_lookup_1 _ _ _ _ (inv_calls _ HI) Hi).
Qed.

(** X3.  Freedom from deadlock, with the state the fetcher is left in.
    Take any reachable state (any number of invocations and pollers,
    contexts cancelled at any moment) in which no thread can take a step,
    whatever the collaborators would answer.  Then every invocation of
    [FetchAll] and of [GetProgress] has returned, the mutex is free, the
    running flag is clear and every goroutine has exited: no thread is
    left waiting on the mutex, the semaphore or the wait group. *)
Theorem no_deadlock env F ctxs npolls s :
  reachable F ctxs npolls s →
  (∀ l, uses_env env l → step l s = None) →
  finished s ∧ mu s = false ∧ IsRunning (progress s) = false
  ∧ ∀ i c, calls s !! i = Some c → all_exited c.
Proof.
  intros Hreach Hstuck. pose proof (reachable_Inv _ _ _ _ Hreach) as HI.
  assert (finished s) as Hfin.
  { apply (stuck_finished env); [done|].
    intros l Hl. apply Hstuck. by eapply candidates_uses_env. }
  destruct Hfin as [Hcalls Hpolls].
  assert (Hret : ∀ i c, calls s !! i = Some c → call_running (c_pc c) = false
                                               ∧ call_holds (c_pc c) = false).
  { intros i c Hi. destruct (Forall_lookup_1 _ _ _ _ Hcalls Hi) as [k Hk].
    by rewrite Hk. }
  assert (Hexit : ∀ i c, calls s !! i = Some c → all_exited c).
  { intros i c Hi. destruct (Hret _ _ Hi) as [Hrun _].
    eapply not_running_idle; [|done].
    exact (Forall_lookup_1 _ _ _ _ (inv_calls _ HI) Hi). }
  assert (total call_lock_weight (calls s) = 0) as Hlock.
  { apply total_all_zero, Forall_lookup. intros i c Hi.
    destruct (Hret _ _ Hi) as [_ Hh]. unfold call_lock_weight. rewrite Hh. simpl.
    apply total_all_zero. eapply Forall_impl; [exact (Hexit _ _ Hi)|].
    intros [fd tpc] [early Hpc]. simpl in *. by subst tpc. }
  assert (total poll_holds (polls s) = 0) as Hpoll.
  { apply total_all_zero. eapply Forall_impl; [exact Hpolls|].
    intros p [snap ->]. done. }
  assert (total call_run_weight (calls s) = 0) as Hrunning.
  { apply total_all_zero, Forall_lookup. intros i c Hi.
    destruct (Hret _ _ Hi) as [Hrun _]. unfold call_run_weight. by rewrite Hrun. }
  pose proof (inv_mu _ HI) as Hmu. pose proof (inv_running _ HI) as Hrun.
  rewrite Hlock, Hpoll in Hmu. rewrite Hrunning in Hrun.
  split; [done|]. split; [by destruct (mu s)|].
  split; [by destruct (IsRunning (progress s)) | done].
Qed.

Lemma cancel_budget env i s s' :
  step (LCancel i) s = Some s' → budget env s' = budget env s.
Proof.
  simpl. destruct (calls s !! i) as [c|] eqn:Hi; [|done].
  intros ?; simplify_eq. unfold budget. simpl.
  pose proof (total_insert (call_budget env) _ _ _
                (mkCall (c_pc c) true (c_feeds c) (c_wg c) (c_sem c) (c_tasks c)) Hi)
    as Hins.
  assert (call_budget env
            (mkCall (c_pc c) true (c_feeds c) (c_wg c) (c_sem c) (c_tasks c))
          = call_budget env c) as Heq by reflexivity.
  rewrite Heq in Hins. lia.
Qed.

Lemma budget_init env F ctxs npolls :
  budget env (init F ctxs npolls)
  = length ctxs * (16 + 14 * feeds_to_load env) + 5 * npolls.
Proof.
  unfold budget, init. simpl. f_equal.
  - induction ctxs as [|b ctxs IH]; simpl; [done|]. rewrite IH.
    unfold call_budget. simpl. lia.
  - induction npolls as [|n IH]; simpl; [done|]. rewrite IH. lia.
Qed.

(** X4.  Every run ends, cancelled or not.  In a run from the initial
    state in which the store answers the load as [env] does, however the
    threads are interleaved and whenever the contexts are cancelled, the
    threads take at most [16 + 14 * N] steps per invocation of [FetchAll]
    ([N] the number of subscriptions loaded) and five per invocation of
    [GetProgress]. *)
Theorem runs_are_bounded env F ctxs npolls ls s :
  Forall (in_world env) ls →
  exec ls (init F ctxs npolls) = Some s →
  length (List.filter is_thread_step ls) + budget env s
  ≤ length ctxs * (16 + 14 * feeds_to_load env) + 5 * npolls.
Proof.
  rewrite <- (budget_init env F ctxs npolls).
  generalize (init F ctxs npolls) as s0. intros s0 Hall. revert s0.
  induction Hall as [|l ls Hl _ IH]; intros s0 He; simpl in He.
  - simplify_eq. simpl. lia.
  - destruct (step l s0) as [s1|] eqn:H1; [|done].
    specialize (IH _ He).
    destruct l as [i e|i j e|k|i]; simpl in Hl; subst; simpl.
    + pose proof (step_budget env (LCall i env) s0 s1 eq_refl H1). lia.
    + pose proof (step_budget env (LTask i j env) s0 s1 eq_refl H1). lia.
    + pose proof (step_budget env (LPoll k) s0 s1 I H1). lia.
    + pose proof (cancel_budget env i s0 s1 H1). lia.
Qed.

(** ** Orchestrator: batches that dispatch nothing *)

Lemma invocation_events_emit_call i i0 tr evs :
  map snd (List.filter (is_by_invocation i) (tr ++ map (pair (ByCall i0)) evs))
  = map snd (List.filter (is_by_invocation i) tr) ++ (if i =? i0 then evs else []).
Proof.
  rewrite List.filter_app, map_app. f_equal.
  induction evs as [|e evs IH]; simpl; [by destruct (_ =? _)|].
  unfold is_by_invocation at 1. simpl.
  destruct (i =? i0); simpl; congruence.
Qed.

Lemma invocation_events_emit_task i i0 j0 tr evs :
  map snd (List.filter (is_by_invocation i) (tr ++ map (pair (ByTask i0 j0)) evs))
  = map snd (List.filter (is_by_invocation i) tr) ++ (if i =? i0 then evs else []).
Proof.
  rewrite List.filter_app, map_app. f_equal.
  induction evs as [|e evs IH]; simpl; [by destruct (_ =? _)|].
  unfold is_by_invocation at 1. simpl.
  destruct (i =? i0); simpl; congruence.
Qed.

Lemma invocation_events_snoc_call i i0 tr e :
  map snd (List.filter (is_by_invocation i) (tr ++ [(ByCall i0, e)]))
  = map snd (List.filter (is_by_invocation i) tr) ++ (if i =? i0 then [e] else []).
Proof. exact (invocation_events_emit_call i i0 tr [e]). Qed.

(** As long as an invocation has started no goroutine, the only effects
    on its account are its own. *)
Lemma no_task_no_task_events F ctxs npolls s :
  reachable F ctxs npolls s →
  ∀ i c, calls s !! i = Some c → c_tasks c = [] →
         invocation_events i s = call_events i s.
Proof.
  induction 1 as [|s l s' Hreach IH Hs]; [done|].
  intros i c' Hi' Hnil. unfold invocation_events, call_events.
  destruct l as [i0 env|i0 j0 env|k|i0]; simpl in Hs.
  - destruct (calls s !! i0) as [c0|] eqn:Hi0; [|done].
    destruct (call_step_shape _ _ _ _ _ Hs)
      as (c0' & Hcalls & _ & _ & _ & Htasks & Htrace).
    rewrite Hcalls in Hi'.
    assert (i0 < length (calls s)) by (by eapply lookup_lt_Some).
    assert (invocation_events i s = call_events i s) as Hprev.
    { destruct (decide (i = i0)) as [->|Hne].
      - rewrite list_lookup_insert_eq in Hi' by done. simplify_eq.
        apply (IH _ _ Hi0). destruct Htasks as [Ht|[fd Ht]]; [congruence|].
        rewrite Hnil in Ht. by destruct (c_tasks c0).
      - rewrite list_lookup_insert_ne in Hi' by done. by apply (IH _ _ Hi'). }
    unfold invocation_events, call_events in Hprev.
    destruct Htrace as [(_ & _ & ->) | (_ & _ & ->)]; [|done].
    rewrite call_events_snoc_call.
    rewrite invocation_events_snoc_call. by rewrite Hprev.
  - destruct (calls s !! i0) as [c0|] eqn:Hi0; [|done].
    destruct (c_tasks c0 !! j0) as [t0|] eqn:Hj0; [|done].
    destruct (task_step_shape _ _ _ _ _ _ _ Hs)
      as (c0' & pc' & evs & Hcalls & _ & _ & _ & _ & Htasks & Htrace & _).
    rewrite Hcalls in Hi'. rewrite Htrace, call_events_emit_task.
    assert (i0 < length (calls s)) by (by eapply lookup_lt_Some).
    destruct (decide (i = i0)) as [->|Hne].
    + rewrite list_lookup_insert_eq in Hi' by done. simplify_eq. exfalso.
      rewrite Hnil in Htasks. symmetry in Htasks.
      apply (f_equal length) in Htasks. rewrite length_insert in Htasks.
      apply lookup_lt_Some in Hj0. simpl in Htasks. lia.
    + rewrite list_lookup_insert_ne in Hi' by done.
      rewrite invocation_events_emit_task.
      assert ((i =? i0) = false) as -> by (by apply Nat.eqb_neq).
      rewrite app_nil_r. by apply (IH _ _ Hi').
  - destruct (polls s !! k) as [p|] eqn:Hk; [|done].
    destruct (poll_step_shape _ _ _ _ Hs) as (Hc & -> & _). rewrite Hc in Hi'.
    by apply (IH _ _ Hi').
  - destruct (calls s !! i0) as [c0|] eqn:Hi0; [|done]. simplify_eq. simpl in *.
    assert (i0 < length (calls s)) by (by eapply lookup_lt_Some).
    destruct (decide (i = i0)) as [->|Hne].
    + rewrite list_lookup_insert_eq in Hi' by done. simplify_eq. simpl in *.
      by apply (IH _ _ Hi0).
    + rewrite list_lookup_insert_ne in Hi' by done. by apply (IH _ _ Hi').
Qed.

(** X5.  A batch whose load failed dispatches nothing.  Once an invocation
    is on the path taken when [GetFeeds] fails, it has started no
    goroutine, its wait group and pool are empty, and neither it nor any
    goroutine of its own has performed any effect on the store, the script
    runner or the rule engine; while the flag is still set the counter
    reads zero. *)
Theorem failed_load_dispatches_nothing F ctxs npolls s i c :
  reachable F ctxs npolls s →
  calls s !! i = Some c →
  load_failed (c_pc c) = true →
  c_tasks c = [] ∧ c_wg c = 0 ∧ c_sem c = 0
  ∧ invocation_events i s = []
  ∧ (call_running (c_pc c) = true → Current (progress s) = 0%Z).
Proof.
  intros Hreach Hi Hpc. pose proof (reachable_Inv _ _ _ _ Hreach) as HI.
  pose proof (Forall_lookup_1 _ _ _ _ (inv_calls _ HI) Hi) as Hc.
  assert (c_tasks c = []) as Hnil.
  { apply (ok_none _ _ _ Hc);
      destruct (c_pc c) as [| | | | | | | | | | | | | | | | | | | | | | |[]]; done. }
  pose proof (ok_wg _ _ _ Hc) as Hwg. pose proof (ok_sem _ _ _ Hc) as Hsem.
  unfold in_flight in Hsem. rewrite Hnil in Hwg, Hsem.
  split; [done|].
  split; [destruct (c_pc c); simpl in *; try done; lia|].
  split; [destruct (c_pc c); simpl in *; try done; lia|].
  split.
  - rewrite (no_task_no_task_events _ _ _ _ Hreach _ _ Hi Hnil).
    destruct (reachable_stamp_ok _ _ _ _ Hreach _ _ Hi) as [_ Hnone].
    apply Hnone. intros Heq. by rewrite Heq in Hpc.
  - intros Hrun. rewrite (ok_current _ _ _ Hc), Hnil; [done|].
    destruct (c_pc c); simpl in *; congruence.
Qed.

(** An invocation whose context is cancelled from the outset never
    reaches the dispatch of a goroutine. *)
Lemma cancelled_from_start F ctxs npolls s i c :
  reachable F ctxs npolls s →
  ctxs !! i = Some true →
  calls s !! i = Some c →
  c_ctx_done c = true ∧ c_tasks c = []
  ∧ match c_pc c with CAdd _ _ | CSend _ _ | CGo _ _ => False | _ => True end.
Proof.
  intros Hreach Hctx. revert c.
  induction Hreach as [|s l s' Hreach IH Hs]; intros c' Hi'.
  - simpl in Hi'. rewrite list_lookup_fmap, Hctx in Hi'. simpl in Hi'.
    by simplify_eq.
  - destruct l as [i0 env|i0 j0 env|k|i0]; simpl in Hs.
    + destruct (calls s !! i0) as [c0|] eqn:Hi0; [|done].
      assert (i0 < length (calls s)) by (by eapply lookup_lt_Some).
      destruct (decide (i = i0)) as [->|Hne].
      * destruct (IH _ Hi0) as (Hdone & Hnil & Hpend). clear IH.
        destruct s as [F0 P m cs ps tr]. destruct c0 as [pc ctx feeds wg sem ts].
        unfold call_step in Hs. simpl in *. subst ctx ts.
        destruct pc; simpl in Hs, Hpend; try done;
          repeat match type of Hs with
                 | context [if ?b then _ else _] => destruct b eqn:?
                 | context [match ?x with _ => _ end] => destruct x eqn:?
                 end; simplify_eq; simpl in Hi';
          rewrite list_lookup_insert_eq in Hi' by done; by simplify_eq.
      * destruct (call_step_shape _ _ _ _ _ Hs) as (c0' & Hcalls & _).
        rewrite Hcalls, list_lookup_insert_ne in Hi' by done. by apply IH.
    + destruct (calls s !! i0) as [c0|] eqn:Hi0; [|done].
      destruct (c_tasks c0 !! j0) as [t0|] eqn:Hj0; [|done].
      assert (i0 < length (calls s)) by (by eapply lookup_lt_Some).
      destruct (task_step_shape _ _ _ _ _ _ _ Hs) as (c0' & pc' & evs & Hcalls & _).
      destruct (decide (i = i0)) as [->|Hne].
      * destruct (IH _ Hi0) as (_ & Hnil & _). by rewrite Hnil in Hj0.
      * rewrite Hcalls, list_lookup_insert_ne in Hi' by done. by apply IH.
    + destruct (polls s !! k) as [p|] eqn:Hk; [|done].
      destruct (poll_step_shape _ _ _ _ Hs) as (Hc & _). rewrite Hc in Hi'.
      by apply IH.
    + destruct (calls s !! i0) as [c0|] eqn:Hi0; [|done]. simplify_eq. simpl in *.
      assert (i0 < length (calls s)) by (by eapply lookup_lt_Some).
      destruct (decide (i = i0)) as [->|Hne].
      * rewrite list_lookup_insert_eq in Hi' by done. simplify_eq. simpl.
        destruct (IH _ Hi0) as (_ & Hnil & Hpend). done.
      * rewrite list_lookup_insert_ne in Hi' by done. by apply IH.
Qed.

(** X6.  A batch started with an already cancelled context.  The dispatch
    loop leaves at its first check: no goroutine is started, so no source
    is fetched and nothing is saved on the account of this invocation;
    its only effect, once it has returned through [Finish], is the
    timestamp.  While it is the running batch the counter stays at zero. *)
Theorem cancelled_batch_fetches_nothing F ctxs npolls s i c :
  reachable F ctxs npolls s →
  ctxs !! i = Some true →
  calls s !! i = Some c →
  c_tasks c = [] ∧ c_wg c = 0 ∧ c_sem c = 0
  ∧ (invocation_events i s = []
     ∨ ∃ v, c_pc c = CReturned ExitBatch
            ∧ invocation_events i s = [EvSetSetting "last_article_update" v])
  ∧ (counts_current (c_pc c) = true → Current (progress s) = 0%Z).
Proof.
  intros Hreach Hctx Hi. pose proof (reachable_Inv _ _ _ _ Hreach) as HI.
  pose proof (Forall_lookup_1 _ _ _ _ (inv_calls _ HI) Hi) as Hc.
  destruct (cancelled_from_start _ _ _ _ _ _ Hreach Hctx Hi) as (_ & Hnil & Hpend).
  pose proof (ok_wg _ _ _ Hc) as Hwg. pose proof (ok_sem _ _ _ Hc) as Hsem.
  unfold in_flight in Hsem. rewrite Hnil in Hwg, Hsem. simpl in Hwg, Hsem.
  split; [done|].
  split; [destruct (c_pc c); simpl in *; try done; lia|].
  split; [destruct (c_pc c); simpl in *; try done; lia|].
  split.
  - rewrite (no_task_no_task_events _ _ _ _ Hreach _ _ Hi Hnil).
    destruct (reachable_stamp_ok _ _ _ _ Hreach _ _ Hi) as [Hsome Hnone].
    destruct (c_pc c) as [| | | | | | | | | | | | | | | | | | | | | | |[]] eqn:Hpc;
      try (left; by apply Hnone).
    destruct (Hsome eq_refl) as [v Hv]. right. eauto.
  - intros Hcur. by rewrite (ok_current _ _ _ Hc Hcur), Hnil.
Qed.

(** ** The orchestrator properties on the sample world *)

Lemma batch_done_idle : IsRunning (progress batch_done) = false.
Proof. vm_compute. reflexivity. Qed.

Lemma batch_done_polls : ∃ snap, polls batch_done = [PReturned snap].
Proof. eexists. vm_compute. reflexivity. Qed.

(** At the end of the sample batch the counter is within its range. *)
Lemma progress_within_total_witness : progress_in_range (progress batch_done).
Proof.
  exact (proj1 (progress_within_total fetcher0 [false] 1 batch_done
                  batch_done_reachable)).
Defined.

(** At the end of the sample batch all six goroutines have exited. *)
Lemma idle_means_no_work_witness :
  ∃ c, calls batch_done !! 0 = Some c ∧ all_exited c ∧ c_wg c = 0 ∧ c_sem c = 0.
Proof.
  assert (calls batch_done !! 0
          = Some (mkCall (CReturned ExitBatch) false sample_feeds 0 0
                    (map (λ fd, mkTask fd (TExited false)) sample_feeds))) as Hi.
  { rewrite batch_done_calls. reflexivity. }
  eexists. split; [exact Hi|].
  exact (proj2 (idle_means_no_work fetcher0 [false] 1 batch_done 0 _
                  batch_done_reachable batch_done_idle Hi)).
Defined.

Lemma batch_done_stuck l : uses_env mixed_env l → step l batch_done = None.
Proof.
  intros Hl. destruct l as [i e|i j e|k|i]; [| | |destruct Hl]; unfold step.
  - rewrite batch_done_calls. destruct i as [|[|i]]; reflexivity.
  - rewrite batch_done_calls. destruct i as [|[|i]]; [|reflexivity|reflexivity].
    cbn [lookup list_lookup c_tasks]. rewrite list_lookup_fmap.
    destruct (sample_feeds !! j) as [fd|]; reflexivity.
  - destruct batch_done_polls as [snap ->]. destruct k as [|[|k]]; reflexivity.
Qed.

(** The finished sample batch has left the mutex free. *)
Lemma no_deadlock_witness : finished batch_done ∧ mu batch_done = false.
Proof.
  destruct (no_deadlock mixed_env fetcher0 [false] 1 batch_done
              batch_done_reachable batch_done_stuck) as (H1 & H2 & _).
  exact (conj H1 H2).
Defined.

Lemma cancel_labels_in_world : Forall (in_world single_env) cancel_labels.
Proof. unfold cancel_labels. repeat constructor. Qed.

(** The cancelled run of sixteen thread steps is within the budget of
    thirty steps of a batch of one subscription. *)
Lemma runs_are_bounded_witness :
  length (List.filter is_thread_step cancel_labels) + budget single_env cancel_state
  ≤ 1 * (16 + 14 * feeds_to_load single_env) + 5 * 0.
Proof.
  exact (runs_are_bounded single_env fetcher0 [false] 0 cancel_labels cancel_state
           cancel_labels_in_world cancel_state_exec).
Defined.

Lemma abort_state_reachable :
  reachable fetcher0 [false] 0 (run_sched failing_env 20 (init fetcher0 [false] 0)).
Proof.
  eapply reachable_steps; [apply reach_init | apply run_sched_steps].
Qed.

(** With the store down the invocation returns without any effect. *)
Lemma failed_load_dispatches_nothing_witness :
  invocation_events 0 (run_sched failing_env 20 (init fetcher0 [false] 0)) = [].
Proof.
  assert (calls (run_sched failing_env 20 (init fetcher0 [false] 0)) !! 0
          = Some (mkCall (CReturned ExitAbort) false [] 0 0 [])) as Hi.
  { vm_compute. reflexivity. }
  exact (proj1 (proj2 (proj2 (proj2
           (failed_load_dispatches_nothing fetcher0 [false] 0 _ 0 _
              abort_state_reachable Hi eq_refl))))).
Defined.

Lemma precancelled_state_reachable :
  reachable fetcher0 [true] 0 (run_sched mixed_env 40 (init fetcher0 [true] 0)).
Proof.
  eapply reachable_steps; [apply reach_init | apply run_sched_steps].
Qed.

(** Six subscriptions and a context cancelled beforehand: no goroutine. *)
Lemma cancelled_batch_fetches_nothing_witness :
  ∃ c, calls (run_sched mixed_env 40 (init fetcher0 [true] 0)) !! 0 = Some c
       ∧ c_feeds c = sample_feeds ∧ c_tasks c = [].
Proof.
  assert (calls (run_sched mixed_env 40 (init fetcher0 [true] 0)) !! 0
          = Some (mkCall (CReturned ExitBatch) true sample_feeds 0 0 [])) as Hi.
  { vm_compute. reflexivity. }
  eexists. split; [exact Hi|]. split; [reflexivity|].
  exact (proj1 (cancelled_batch_fetches_nothing fetcher0 [true] 0 _ 0 _
                  precancelled_state_reachable eq_refl Hi)).
Defined.

(** ** Per-source fetch: what it writes and what it leaves alone *)

Lemma ExecuteScript_only_runs env ex path :
  Forall (λ ev, is_run ev = true) (fst (ExecuteScript env ex path)).
Proof.
  unfold ExecuteScript. destruct (negb _); [constructor|].
  destruct (script_command _ _ _) as [[name args]|m]; [|constructor].
  destruct (os_Run _ _) as [out|err stderr].
  - destruct (fp_ParseString _ _); repeat constructor.
  - destruct (negb _); repeat constructor.
Qed.

Lemma FetchFeed_resolve_events env F feed :
  Forall (λ ev, is_run ev = true ∨ ∃ msg, ev = EvUpdateFeedError (fd_ID feed) msg)
    (fst (FetchFeed_resolve env F feed)).
Proof.
  unfold FetchFeed_resolve. destruct (negb _).
  - destruct (f_scriptExecutor F) as [ex|];
      [|constructor; [right; eauto | constructor]].
    pose proof (ExecuteScript_only_runs env ex (fd_ScriptPath feed)) as Hruns.
    destruct (ExecuteScript _ _ _) as [evs [pf|msg]]; simpl in *.
    + eapply Forall_impl; [exact Hruns|]. auto.
    + apply Forall_app. split; [|constructor; [right; eauto | constructor]].
      eapply Forall_impl; [exact Hruns|]. auto.
  - destruct (fp_ParseURLWithContext _ _);
      [constructor | constructor; [right; eauto | constructor]].
Qed.

Lemma make_article_FeedID env F feed en lang items :
  Forall (λ a, ar_FeedID a = fd_ID feed) (map (make_article env F feed en lang) items).
Proof. apply Forall_fmap, Forall_true. done. Qed.

(** [FetchFeed] as the sequence of its three stages. *)
Lemma FetchFeed_parts env F cancelled feed :
  FetchFeed env F cancelled feed
  = fst (FetchFeed_resolve env F feed)
    ++ match snd (FetchFeed_resolve env F feed) with
       | None => []
       | Some pf =>
           fst (FetchFeed_update env F feed pf)
           ++ (if cancelled then []
               else FetchFeed_persist env feed (snd (FetchFeed_update env F feed pf)))
       end.
Proof.
  unfold FetchFeed, FetchFeed_prepare.
  destruct (FetchFeed_resolve env F feed) as [evs [pf|]]; simpl;
    [|by rewrite app_nil_r].
  destruct (FetchFeed_update env F feed pf) as [evs' arts]. simpl.
  destruct cancelled; [by rewrite app_nil_r | by rewrite <- app_assoc].
Qed.

Lemma FetchFeed_stages (P : Event → Prop) env F cancelled feed :
  Forall P (fst (FetchFeed_resolve env F feed)) →
  (∀ pf, Forall P (fst (FetchFeed_update env F feed pf))) →
  (∀ pf, Forall P (FetchFeed_persist env feed (snd (FetchFeed_update env F feed pf)))) →
  Forall P (FetchFeed env F cancelled feed).
Proof.
  intros H1 H2 H3. rewrite FetchFeed_parts. apply Forall_app. split; [done|].
  destruct (snd _) as [pf|]; [|constructor].
  apply Forall_app. split; [done|]. destruct cancelled; [constructor | done].
Qed.

Lemma FetchFeed_persist_only_persists env feed arts :
  Forall (λ ev, is_persist ev = true) (FetchFeed_persist env feed arts).
Proof.
  unfold FetchFeed_persist. destruct (0 <? _); [|constructor].
  destruct (db_SaveArticles _ _); [|repeat constructor].
  constructor; [done|]. destruct (db_GetArticles _ _ _) as [saved|]; [|constructor].
  destruct (0 <? _); repeat constructor.
Qed.

(** X7.  [FetchFeed] writes to its own subscription only.  Every store
    update among its effects carries the identifier of the subscription it
    was called for, every article it saves belongs to that subscription,
    and it never writes a setting. *)
Theorem FetchFeed_touches_only_its_subscription env F cancelled feed :
  Forall (ev_targets (fd_ID feed)) (FetchFeed env F cancelled feed).
Proof.
  apply FetchFeed_stages.
  - eapply Forall_impl; [apply FetchFeed_resolve_events|].
    intros ev [Hrun|[msg ->]]; [by destruct ev | done].
  - intros pf. unfold FetchFeed_update. simpl. constructor; [done|].
    apply Forall_app. split.
    + destruct (pf_Image pf); [destruct (Str.is_empty _)|]; repeat constructor.
    + destruct (_ && _); repeat constructor.
  - intros pf. unfold FetchFeed_update. simpl.
    unfold FetchFeed_persist. destruct (0 <? _); [|constructor].
    destruct (db_SaveArticles _ _).
    + constructor; [apply make_article_FeedID|].
      destruct (db_GetArticles _ _ _) as [saved|]; [|constructor].
      destruct (0 <? _); repeat constructor.
    + repeat constructor. apply make_article_FeedID.
Qed.

(** X8.  [FetchFeed] never overwrites cached metadata.  A subscription
    that already has an image is never given another one, a subscription
    that already has a link keeps it, and the link written to a
    subscription without one is never the empty string. *)
Theorem FetchFeed_keeps_cached_metadata env F cancelled feed :
  (fd_ImageURL feed ≠ "" →
   Forall (λ ev, is_image_update ev = false) (FetchFeed env F cancelled feed))
  ∧ (fd_Link feed ≠ "" →
     Forall (λ ev, is_link_update ev = false) (FetchFeed env F cancelled feed))
  ∧ Forall (λ ev, ∀ id url, ev = EvUpdateFeedLink id url → url ≠ "")
      (FetchFeed env F cancelled feed).
Proof.
  assert (Hres : ∀ P : Event → Prop,
             (∀ ev, is_run ev = true → P ev) → (∀ id msg, P (EvUpdateFeedError id msg)) →
             Forall P (fst (FetchFeed_resolve env F feed))).
  { intros P H1 H2. eapply Forall_impl; [apply FetchFeed_resolve_events|].
    intros ev [Hrun|[msg ->]]; auto. }
  assert (Hper : ∀ P : Event → Prop,
             (∀ ev, is_persist ev = true → P ev) →
             ∀ arts, Forall P (FetchFeed_persist env feed arts)).
  { intros P H1 arts. eapply Forall_impl; [apply FetchFeed_persist_only_persists|].
    done. }
  split; [|split].
  - intros Himg%is_empty_false. apply FetchFeed_stages.
    + apply Hres; [by intros [] | done].
    + intros pf. unfold FetchFeed_update. simpl. rewrite Himg.
      constructor; [done|]. apply Forall_app. split; [by destruct (pf_Image pf)|].
      destruct (_ && _); repeat constructor.
    + intros pf. apply Hper. by intros [].
  - intros Hlink%is_empty_false. apply FetchFeed_stages.
    + apply Hres; [by intros [] | done].
    + intros pf. unfold FetchFeed_update. simpl. rewrite Hlink. simpl.
      constructor; [done|]. rewrite app_nil_r.
      destruct (pf_Image pf); [destruct (Str.is_empty (fd_ImageURL feed))|];
        repeat constructor.
    + intros pf. apply Hper. by intros [].
  - apply FetchFeed_stages.
    + apply Hres; [by intros [] | done].
    + intros pf. unfold FetchFeed_update. simpl.
      constructor; [done|]. apply Forall_app. split.
      * destruct (pf_Image pf); [destruct (Str.is_empty _)|]; repeat constructor; done.
      * destruct (Str.is_empty (fd_Link feed)); [|constructor].
        destruct (Str.is_empty (pf_Link pf)) eqn:He; [constructor|].
        simpl. constructor; [|constructor].
        intros id url ?; simplify_eq. by apply is_empty_false.
    + intros pf. apply Hper. by intros [].
Qed.

(** A subscription with a cached image and link keeps both. *)
Lemma FetchFeed_keeps_cached_metadata_witness :
  Forall (λ ev, is_image_update ev = false) (FetchFeed rich_env fetcher0 false cached_feed)
  ∧ Forall (λ ev, is_link_update ev = false) (FetchFeed rich_env fetcher0 false cached_feed).
Proof.
  split.
  - apply (proj1 (FetchFeed_keeps_cached_metadata rich_env fetcher0 false cached_feed)).
    discriminate.
  - apply (proj1 (proj2 (FetchFeed_keeps_cached_metadata rich_env fetcher0 false
                           cached_feed))).
    discriminate.
Defined.

(** X9.  [FetchFeed] saves at most once, and last.  Cancellation observed
    at the check before the save only cuts the effects short: the fetch
    that goes on performs the same effects followed by at most one bulk
    save and one run of the rule hook.  The save is attempted only for a
    non-empty batch, which holds one article per entry of the resolved
    feed, in order; the rules are applied only after the save succeeded,
    to the non-empty list of articles the store returns for this
    subscription, limited to the number just saved. *)
Theorem FetchFeed_saves_at_most_once env F feed :
  Forall (λ ev, is_persist ev = false) (FetchFeed env F true feed)
  ∧ ∃ post,
      FetchFeed env F false feed = FetchFeed env F true feed ++ post
      ∧ (post = []
         ∨ ∃ pf arts,
             snd (FetchFeed_resolve env F feed) = Some pf
             ∧ arts ≠ []
             ∧ map ar_URL arts = map it_Link (pf_Items pf)
             ∧ map ar_Title arts = map it_Title (pf_Items pf)
             ∧ match db_SaveArticles env arts with
               | Err _ => post = [EvSaveArticles arts false]
               | Ok _ =>
                   post = [EvSaveArticles arts true]
                   ∨ ∃ saved,
                       saved ≠ []
                       ∧ db_GetArticles env (fd_ID feed) (length arts) = Ok saved
                       ∧ post = [EvSaveArticles arts true; EvApplyRules saved]
               end).
Proof.
  split.
  - rewrite FetchFeed_parts. apply Forall_app. split.
    + eapply Forall_impl; [apply FetchFeed_resolve_events|].
      intros ev [Hrun|[msg ->]]; [by destruct ev | done].
    + destruct (snd _) as [pf|]; [|constructor]. rewrite app_nil_r.
      unfold FetchFeed_update. simpl. constructor; [done|].
      apply Forall_app. split.
      * destruct (pf_Image pf); [destruct (Str.is_empty _)|]; repeat constructor.
      * destruct (_ && _); repeat constructor.
  - rewrite !FetchFeed_parts.
    destruct (snd (FetchFeed_resolve env F feed)) as [pf|] eqn:Hres.
    + exists (FetchFeed_persist env feed (snd (FetchFeed_update env F feed pf))).
      split; [by rewrite !app_nil_r, <- !app_assoc|].
      unfold FetchFeed_update. simpl.
      set (arts := map _ (pf_Items pf)).
      unfold FetchFeed_persist.
      destruct (0 <? length arts) eqn:Hlen; [|by left]. right.
      exists pf, arts. split; [done|].
      split; [intros Hnil; by rewrite Hnil in Hlen|].
      split; [unfold arts; rewrite map_map; done|].
      split; [unfold arts; rewrite map_map; done|].
      destruct (db_SaveArticles env arts); [|done].
      destruct (db_GetArticles _ _ _) as [saved|]; [|by left].
      destruct (0 <? length saved) eqn:Hs; [|by left]. right.
      exists saved. split; [intros Hnil; by rewrite Hnil in Hs | done].
    + exists []. split; [by rewrite !app_nil_r | by left].
Qed.

(** ** Paths: [Clean] is a normal form *)

Lemma chars_pack (l : list ascii) : Str.chars (Str.pack l) = l.
Proof. apply String.list_ascii_of_string_of_list_ascii. Qed.

Lemma pack_chars (s : string) : Str.pack (Str.chars s) = s.
Proof. apply String.string_of_list_ascii_of_string. Qed.

Lemma chars_app (a b : string) : Str.chars (a +:+ b) = Str.chars a ++ Str.chars b.
Proof.
  induction a as [|c a IH]; [done|]. rewrite append_cons.
  unfold Str.chars in *. simpl. by rewrite IH.
Qed.

Lemma pack_app (l1 l2 : list ascii) : Str.pack (l1 ++ l2) = Str.pack l1 +:+ Str.pack l2.
Proof.
  induction l1 as [|c l1 IH]; [done|]. unfold Str.pack in *. simpl.
  by rewrite IH.
Qed.

Lemma chars_inj (a b : string) : Str.chars a = Str.chars b → a = b.
Proof. intros H. by rewrite <- (pack_chars a), <- (pack_chars b), H. Qed.

Lemma split_acc_no_slash (cur s : list ascii) :
  Forall (λ c, c ≠ filepath.Separator) s →
  filepath.split_acc cur s = [Str.pack (rev cur ++ s)].
Proof.
  intros Hs. revert cur. induction Hs as [|c s Hc _ IH]; intros cur; simpl.
  - by rewrite app_nil_r.
  - apply Ascii.eqb_neq in Hc. rewrite Hc, IH. simpl. by rewrite <- app_assoc.
Qed.

Lemma split_acc_slash (cur s1 s2 : list ascii) :
  Forall (λ c, c ≠ filepath.Separator) s1 →
  filepath.split_acc cur (s1 ++ filepath.Separator :: s2)
  = Str.pack (rev cur ++ s1) :: filepath.split_acc [] s2.
Proof.
  intros Hs. revert cur. induction Hs as [|c s Hc _ IH]; intros cur; simpl.
  - by rewrite app_nil_r.
  - apply Ascii.eqb_neq in Hc. rewrite Hc, IH. simpl. by rewrite <- app_assoc.
Qed.

Lemma split_acc_slash_free (cur s : list ascii) :
  Forall (λ c, c ≠ filepath.Separator) cur →
  Forall slash_free (filepath.split_acc cur s).
Proof.
  revert cur. induction s as [|c s IH]; intros cur Hcur; simpl.
  - constructor; [|constructor]. unfold slash_free. rewrite chars_pack.
    by apply Forall_rev.
  - destruct (Ascii.eqb c filepath.Separator) eqn:Hc.
    + constructor; [|by apply IH].
      unfold slash_free. rewrite chars_pack. by apply Forall_rev.
    + apply IH. constructor; [|done]. by apply Ascii.eqb_neq.
Qed.

Lemma elements_slash_free (path : string) : Forall slash_free (filepath.elements path).
Proof. apply split_acc_slash_free. constructor. Qed.

Lemma elements_name (s : string) : slash_free s → filepath.elements s = [s].
Proof.
  intros Hs. unfold filepath.elements. rewrite split_acc_no_slash by done.
  simpl. by rewrite pack_chars.
Qed.

Lemma elements_cons (s rest : string) :
  slash_free s → filepath.elements (s +:+ "/" +:+ rest) = s :: filepath.elements rest.
Proof.
  intros Hs. unfold filepath.elements. rewrite !chars_app.
  change (Str.chars "/") with [filepath.Separator]. simpl.
  rewrite split_acc_slash by done. simpl. by rewrite pack_chars.
Qed.

Lemma Join_cons (c c' : string) (cs : list string) :
  Str.Join (c :: c' :: cs) "/" = c +:+ "/" +:+ Str.Join (c' :: cs) "/".
Proof. reflexivity. Qed.

(** Splitting what was joined gives the elements back. *)
Lemma elements_Join (cs : list string) :
  cs ≠ [] → Forall slash_free cs → filepath.elements (Str.Join cs "/") = cs.
Proof.
  intros Hne Hall. induction Hall as [|c cs Hc Hcs IH]; [done|].
  destruct cs as [|c' cs]; [by apply elements_name|].
  rewrite Join_cons, elements_cons by done. f_equal. by apply IH.
Qed.

Lemma is_name_step (r : bool) (out : list string) (el : string) :
  is_name el → filepath.clean_step r out el = el :: out.
Proof.
  intros (H1 & H2 & H3 & _). unfold filepath.clean_step.
  apply String.eqb_neq in H1, H2, H3. by rewrite H1, H2, H3.
Qed.

Lemma clean_step_stack (r : bool) (out : list string) (el : string) :
  slash_free el → clean_stack r out → clean_stack r (filepath.clean_step r out el).
Proof.
  intros Hel (k & names & -> & Hnames & Hk). unfold filepath.clean_step.
  destruct (String.eqb_spec el ""); [by exists k, names|].
  destruct (String.eqb_spec el "."); [by exists k, names|].
  destruct (String.eqb_spec el "..") as [->|Hdd].
  - destruct names as [|x names]; simpl.
    + destruct k as [|k]; simpl.
      * destruct r; simpl; [by exists 0, []|].
        exists 1, []. by repeat split.
      * destruct r; simpl; [by exists (S k), []|].
        exists (S (S k)), []. repeat split; [constructor | done].
    + apply Forall_cons in Hnames as [(_ & _ & Hx & _) Hnames].
      apply String.eqb_neq in Hx. rewrite Hx. simpl. by exists k, names.
  - exists k, (el :: names). repeat split; [|done]. by constructor.
Qed.

Lemma fold_clean_stack (r : bool) (els out : list string) :
  Forall slash_free els → clean_stack r out →
  clean_stack r (fold_left (filepath.clean_step r) els out).
Proof.
  intros Hels. revert out. induction Hels as [|el els Hel _ IH]; intros out Hout;
    [done|]. simpl. apply IH. by apply clean_step_stack.
Qed.

Lemma fold_names (r : bool) (names acc : list string) :
  Forall is_name names →
  fold_left (filepath.clean_step r) names acc = rev names ++ acc.
Proof.
  intros H. revert acc. induction H as [|x names Hx _ IH]; intros acc; [done|].
  simpl. rewrite is_name_step, IH by done. by rewrite <- app_assoc.
Qed.

Lemma fold_dotdots (k j : nat) :
  fold_left (filepath.clean_step false) (replicate k "..") (replicate j "..")
  = replicate (k + j) "..".
Proof.
  revert j. induction k as [|k IH]; intros j; [done|]. simpl.
  replace (filepath.clean_step false (replicate j "..") "..")
    with (replicate (S j) "..").
  - rewrite IH. replace (k + S j) with (S (k + j)) by lia. done.
  - unfold filepath.clean_step. simpl. by destruct j.
Qed.

Lemma rev_replicate {A} (k : nat) (x : A) : rev (replicate k x) = replicate k x.
Proof.
  induction k as [|k IH]; [done|]. simpl. rewrite IH.
  clear IH. induction k as [|k IH]; [done|]. simpl. by rewrite IH.
Qed.

(** Cleaning the kept elements again keeps them all. *)
Lemma refold (r : bool) (out : list string) :
  clean_stack r out → fold_left (filepath.clean_step r) (rev out) [] = out.
Proof.
  intros (k & names & -> & Hnames & Hk).
  rewrite rev_app_distr, rev_replicate, fold_left_app.
  destruct r.
  - rewrite (Hk eq_refl). simpl. rewrite app_nil_r.
    rewrite fold_names by (by apply Forall_rev). by rewrite rev_involutive, app_nil_r.
  - pose proof (fold_dotdots k 0) as Hd. simpl in Hd. rewrite Hd.
    rewrite fold_names by (by apply Forall_rev).
    rewrite rev_involutive. f_equal. f_equal. lia.
Qed.

Lemma stack_slash_free (r : bool) (out : list string) :
  clean_stack r out → Forall slash_free out ∧ Forall (λ s, s ≠ "") out.
Proof.
  intros (k & names & -> & Hnames & _). split; apply Forall_app; split.
  - eapply Forall_impl; [exact Hnames|]. by intros s (_ & _ & _ & H).
  - apply Forall_replicate. repeat constructor; done.
  - eapply Forall_impl; [exact Hnames|]. by intros s (H & _).
  - by apply Forall_replicate.
Qed.

Lemma kept_stack (path : string) : clean_stack (filepath.rooted path) (rev (kept path)).
Proof.
  unfold kept. rewrite rev_involutive. apply fold_clean_stack.
  - apply elements_slash_free.
  - exists 0, []. by repeat split.
Qed.

Lemma filter_all {A} (P : A → Prop) `{∀ x, Decision (P x)} (l : list A) :
  Forall P l → filter P l = l.
Proof.
  induction 1 as [|x l Hx _ IH]; [done|]. by rewrite filter_cons_True, IH.
Qed.

Lemma rooted_not_empty (path : string) : filepath.rooted path = true → path ≠ "".
Proof. by destruct path. Qed.

Lemma Clean_rooted_form (path : string) :
  filepath.rooted path = true →
  filepath.Clean path = "/" +:+ Str.Join (kept path) "/".
Proof.
  intros Hr. unfold filepath.Clean, kept. rewrite Hr.
  by destruct path.
Qed.

Lemma Clean_relative_form (path : string) :
  path ≠ "" → filepath.rooted path = false →
  filepath.Clean path
  = if Str.is_empty (Str.Join (kept path) "/") then "." else Str.Join (kept path) "/".
Proof.
  intros Hne Hr. unfold filepath.Clean, kept. rewrite Hr.
  by destruct path.
Qed.

Lemma Join_nonempty (cs : list string) :
  cs ≠ [] → Forall (λ s, s ≠ "") cs → Str.Join cs "/" ≠ "".
Proof.
  intros Hne Hall. destruct Hall as [|c cs Hc Hcs]; [done|].
  destruct cs as [|c' cs]; [done|]. rewrite Join_cons.
  destruct c; [done|]. by rewrite append_cons.
Qed.

Lemma rooted_Join (cs : list string) :
  Forall slash_free cs → Forall (λ s, s ≠ "") cs →
  filepath.rooted (Str.Join cs "/") = false.
Proof.
  intros Hsf Hne. destruct Hsf as [|c cs Hc Hcs]; [done|].
  apply Forall_cons in Hne as [Hne _].
  assert (filepath.rooted c = false) as Hrc.
  { destruct c as [|a c]; [done|]. simpl.
    unfold slash_free, Str.chars in Hc. simpl in Hc.
    apply Forall_cons in Hc as [Ha _]. by apply Ascii.eqb_neq. }
  destruct cs as [|c' cs]; [done|]. rewrite Join_cons.
  destruct c; [done|]. by rewrite append_cons.
Qed.

Lemma elements_rooted (body : string) :
  filepath.elements ("/" +:+ body) = "" :: filepath.elements body.
Proof. reflexivity. Qed.

Lemma elements_empty : filepath.elements "" = [""].
Proof. reflexivity. Qed.

(** The elements kept for a cleaned path are those kept for the path. *)
Lemma kept_Clean_rooted (path : string) :
  filepath.rooted path = true → kept (filepath.Clean path) = kept path.
Proof.
  intros Hr. pose proof (kept_stack path) as Hst. rewrite Hr in Hst.
  destruct (stack_slash_free _ _ Hst) as [Hsf Hne].
  apply Forall_rev in Hsf, Hne. rewrite rev_involutive in Hsf, Hne.
  rewrite (Clean_rooted_form path Hr). unfold kept at 1.
  rewrite elements_rooted.
  change (filepath.rooted ("/" +:+ Str.Join (kept path) "/")) with true.
  assert (fold_left (filepath.clean_step true) (kept path) [] = rev (kept path))
    as Hfold.
  { rewrite <- (rev_involutive (kept path)) at 1. by rewrite refold. }
  destruct (decide (kept path = [])) as [Hk|Hk]; [by rewrite Hk|].
  rewrite elements_Join by done. cbn [fold_left].
  change (filepath.clean_step true [] "") with (@nil string).
  rewrite Hfold. apply rev_involutive.
Qed.

Lemma kept_Clean_relative (path : string) :
  filepath.rooted path = false → kept path ≠ [] →
  filepath.rooted (Str.Join (kept path) "/") = false
  ∧ kept (Str.Join (kept path) "/") = kept path.
Proof.
  intros Hr Hk. pose proof (kept_stack path) as Hst. rewrite Hr in Hst.
  destruct (stack_slash_free _ _ Hst) as [Hsf Hne].
  apply Forall_rev in Hsf, Hne. rewrite rev_involutive in Hsf, Hne.
  pose proof (rooted_Join _ Hsf Hne) as Hrj. split; [done|].
  assert (fold_left (filepath.clean_step false) (kept path) [] = rev (kept path))
    as Hfold.
  { rewrite <- (rev_involutive (kept path)) at 1. by rewrite refold. }
  unfold kept at 1. rewrite Hrj, elements_Join by done.
  rewrite Hfold. apply rev_involutive.
Qed.

(** [filepath.Clean] is idempotent: a cleaned path is its own normal form. *)
Lemma Clean_idempotent (path : string) :
  filepath.Clean (filepath.Clean path) = filepath.Clean path.
Proof.
  destruct (decide (path = "")) as [->|Hne]; [done|].
  destruct (filepath.rooted path) eqn:Hr.
  - assert (filepath.rooted (filepath.Clean path) = true) as Hr'.
    { by rewrite (Clean_rooted_form path Hr). }
    rewrite (Clean_rooted_form _ Hr'), kept_Clean_rooted by done.
    by rewrite <- Clean_rooted_form.
  - rewrite (Clean_relative_form path Hne Hr).
    destruct (kept path) as [|c cs] eqn:Hk; [done|].
    pose proof (kept_stack path) as Hst. rewrite Hr, Hk in Hst.
    destruct (stack_slash_free _ _ Hst) as [_ Hne'].
    apply Forall_rev in Hne'. rewrite rev_involutive in Hne'.
    pose proof (Join_nonempty (c :: cs) ltac:(done) Hne') as Hj.
    apply is_empty_false in Hj as Hj'. rewrite Hj'.
    destruct (kept_Clean_relative path Hr) as [Hrj Hkj]; [by rewrite Hk|].
    rewrite Hk in Hrj, Hkj.
    rewrite (Clean_relative_form _ Hj Hrj), Hkj. by rewrite Hj'.
Qed.

(** The components of a rooted path are the elements [Clean] keeps. *)
Lemma components_rooted (path : string) :
  filepath.rooted path = true → filepath.components path = kept path.
Proof.
  intros Hr. pose proof (kept_stack path) as Hst. rewrite Hr in Hst.
  destruct (stack_slash_free _ _ Hst) as [Hsf Hne].
  apply Forall_rev in Hsf, Hne. rewrite rev_involutive in Hsf, Hne.
  unfold filepath.components. rewrite (Clean_rooted_form path Hr), elements_rooted.
  rewrite filter_cons_False by (intros H; by apply H).
  destruct (kept path) as [|c cs] eqn:Hk; [done|].
  rewrite elements_Join by done. by apply filter_all.
Qed.

(** ** Paths: string prefixes against element prefixes *)

Lemma HasPrefix_chars (s pre : string) :
  Str.HasPrefix s pre = true ↔ Str.chars pre `prefix_of` Str.chars s.
Proof.
  unfold Str.HasPrefix, Str.chars. revert s.
  induction pre as [|a pre IH]; intros [|b s]; simpl.
  - done.
  - split; [intros _; apply prefix_nil | done].
  - split; [done|]. intros H. by apply prefix_nil_inv in H.
  - destruct (ascii_dec a b) as [->|Hne].
    + rewrite IH. split; [apply prefix_cons | apply prefix_cons_inv_2].
    + split; [done|]. intros H. by apply prefix_cons_inv_1 in H.
Qed.

Section SlashPrefix.
Let sep := filepath.Separator.
Let no_slash := Forall (λ c : ascii, c ≠ sep).

Lemma prefix_same_head (a b u v : list ascii) :
  no_slash a → no_slash b →
  (a ++ sep :: u) `prefix_of` (b ++ sep :: v) → a = b ∧ u `prefix_of` v.
Proof.
  intros Ha. revert b. induction Ha as [|x a Hx _ IH]; intros b Hb Hpre.
  - destruct Hb as [|y b Hy _]; simpl in *.
    + split; [done | by apply prefix_cons_inv_2 in Hpre].
    + apply prefix_cons_inv_1 in Hpre. by subst.
  - destruct Hb as [|y b Hy Hb]; simpl in *.
    + apply prefix_cons_inv_1 in Hpre. by subst.
    + pose proof (prefix_cons_inv_1 _ _ _ _ Hpre) as ->.
      apply prefix_cons_inv_2 in Hpre.
      destruct (IH b Hb Hpre) as [-> Huv]. done.
Qed.

Lemma prefix_no_slash (a b u : list ascii) :
  no_slash b → (a ++ sep :: u) `prefix_of` b → False.
Proof.
  revert b. induction a as [|x a IH]; intros b Hb Hpre; simpl in *.
  - destruct Hb as [|y b Hy _]; [by apply prefix_nil_inv in Hpre|].
    apply prefix_cons_inv_1 in Hpre. by subst.
  - destruct Hb as [|y b Hy Hb]; [by apply prefix_nil_inv in Hpre|].
    apply prefix_cons_inv_2 in Hpre. by apply (IH b).
Qed.

Lemma prefix_before_slash (a b v : list ascii) :
  no_slash a → a `prefix_of` (b ++ sep :: v) → a `prefix_of` b.
Proof.
  intros Ha. revert b. induction Ha as [|x a Hx _ IH]; intros b Hpre.
  - apply prefix_nil.
  - destruct b as [|y b]; simpl in *.
    + apply prefix_cons_inv_1 in Hpre. by subst.
    + pose proof (prefix_cons_inv_1 _ _ _ _ Hpre) as ->.
      apply prefix_cons_inv_2 in Hpre. apply prefix_cons. by apply IH.
Qed.

End SlashPrefix.

Lemma Join_chars_cons (c c' : string) (cs : list string) :
  Str.chars (Str.Join (c :: c' :: cs) "/")
  = Str.chars c ++ filepath.Separator :: Str.chars (Str.Join (c' :: cs) "/").
Proof. by rewrite Join_cons, !chars_app. Qed.

(** Joining more elements extends the string. *)
Lemma Join_prefix (a b : list string) :
  Str.chars (Str.Join a "/") `prefix_of` Str.chars (Str.Join (a ++ b) "/").
Proof.
  induction a as [|c a IH]; [apply prefix_nil|].
  destruct a as [|c' a].
  - destruct b as [|c' b]; [done|]. simpl app. rewrite Join_chars_cons.
    by apply prefix_app_r.
  - simpl app in *. rewrite !Join_chars_cons. apply prefix_app, prefix_cons, IH.
Qed.

(** A joined path that is a string prefix of another agrees with it
    element by element, except that its last element may be a proper
    prefix of the element at its place. *)
Lemma Join_prefix_inv (cr cp : list string) :
  cr ≠ [] →
  Forall slash_free cr → Forall (λ s, s ≠ "") cr → Forall slash_free cp →
  Str.chars (Str.Join cr "/") `prefix_of` Str.chars (Str.Join cp "/") →
  ∃ pre last x rest,
    cr = pre ++ [last] ∧ cp = pre ++ x :: rest ∧ Str.HasPrefix x last = true.
Proof.
  intros Hne Hsf. revert cp Hne.
  induction Hsf as [|c cr Hc Hcr IH]; intros cp Hne' Hnon Hcp Hpre; [done|].
  clear Hne'.
  apply Forall_cons in Hnon as [Hcne Hnon].
  destruct cr as [|c' cr].
  - destruct Hcp as [|x cp Hx Hcp].
    + apply prefix_nil_inv in Hpre. change (Str.chars c = Str.chars "") in Hpre.
      by apply chars_inj in Hpre.
    + exists [], c, x, cp. split; [done|]. split; [done|].
      apply HasPrefix_chars. destruct cp as [|x' cp]; [done|].
      rewrite Join_chars_cons in Hpre. by eapply prefix_before_slash.
  - rewrite Join_chars_cons in Hpre.
    destruct Hcp as [|x cp Hx Hcp]; [by apply prefix_nil_inv, app_nil in Hpre as [_ ?]|].
    destruct cp as [|x' cp]; [by eapply prefix_no_slash in Hpre|].
    rewrite Join_chars_cons in Hpre.
    apply prefix_same_head in Hpre as [Heq Hpre]; [|done..].
    apply chars_inj in Heq as ->.
    destruct (IH (x' :: cp)) as (pre & last & y & rest & H1 & H2 & H3); [done..|].
    exists (x :: pre), last, y, rest. simpl. by rewrite H1, H2.
Qed.

Lemma rooted_append (a b : string) :
  filepath.rooted a = true → filepath.rooted (a +:+ b) = true.
Proof. by destruct a. Qed.

(** What [ExecuteScript] compares, for an absolute scripts directory: two
    rooted joins of kept elements. *)
Lemma script_paths_rooted (e : ScriptExecutor) (scriptPath : string) :
  filepath.rooted (scriptsDir e) = true →
  let x := scriptsDir e +:+ "/" +:+ scriptPath in
  filepath.rooted x = true
  ∧ script_fullPath e scriptPath = "/" +:+ Str.Join (kept x) "/"
  ∧ filepath.Clean (scriptsDir e) = "/" +:+ Str.Join (kept (scriptsDir e)) "/"
  ∧ filepath.components (script_fullPath e scriptPath) = kept x
  ∧ filepath.components (scriptsDir e) = kept (scriptsDir e).
Proof.
  intros Hr x. assert (filepath.rooted x = true) as Hx by (by apply rooted_append).
  assert (script_fullPath e scriptPath = filepath.Clean x) as Hfull.
  { unfold script_fullPath, filepath.Join.
    apply rooted_not_empty, is_empty_false in Hr as ->. simpl.
    apply Clean_idempotent. }
  split; [done|]. split; [by rewrite Hfull, Clean_rooted_form|].
  split; [by rewrite Clean_rooted_form|]. split; [|by apply components_rooted].
  rewrite Hfull. rewrite components_rooted by (by rewrite Clean_rooted_form).
  by apply kept_Clean_rooted.
Qed.

Lemma kept_names (path : string) :
  Forall slash_free (kept path) ∧ Forall (λ s, s ≠ "") (kept path).
Proof.
  destruct (stack_slash_free _ _ (kept_stack path)) as [Hsf Hne].
  apply Forall_rev in Hsf, Hne. by rewrite rev_involutive in Hsf, Hne.
Qed.

(** X10.  The path check never turns away a script that is inside the
    scripts directory.  For an absolute scripts directory, every script
    path whose resolved form lies in the directory element by element
    passes the check of [ExecuteScript]; so the error "invalid script
    path" is never returned for it. *)
Theorem ExecuteScript_accepts_inside env e scriptPath :
  filepath.rooted (scriptsDir e) = true →
  filepath.within (scriptsDir e) (script_fullPath e scriptPath) = true →
  script_path_accepted e scriptPath = true
  ∧ snd (ExecuteScript env e scriptPath) ≠ Err invalid_script_path.
Proof.
  intros Hr Hin.
  destruct (script_paths_rooted e scriptPath Hr) as (_ & Hfull & Hroot & Hcf & Hcr).
  assert (script_path_accepted e scriptPath = true) as Hacc.
  { unfold script_path_accepted. rewrite Hfull, Hroot.
    apply HasPrefix_chars. rewrite !chars_app. apply prefix_app.
    apply bool_decide_eq_true in Hin. rewrite Hcf, Hcr in Hin.
    destruct Hin as [rest ->]. apply Join_prefix. }
  split; [done|]. unfold ExecuteScript. rewrite Hacc. simpl.
  destruct (script_command _ _ _) as [[name args]|m] eqn:Hcmd.
  - destruct (os_Run _ _) as [out|err stderr].
    + by destruct (fp_ParseString _ _).
    + by destruct (negb _).
  - unfold script_command in Hcmd.
    repeat match type of Hcmd with
           | context [if ?b then _ else _] => destruct b
           end; simplify_eq; done.
Qed.

(** X11.  How far an accepted path can stray.  For an absolute scripts
    directory, a script path that passes the check of [ExecuteScript]
    resolves either inside the directory or inside a sibling of it whose
    name begins with the directory's name: the resolved path shares all
    elements of the directory but the last, and the last is a string
    prefix of the element at its place. *)
Theorem ExecuteScript_accepted_stays_near e scriptPath :
  filepath.rooted (scriptsDir e) = true →
  script_path_accepted e scriptPath = true →
  filepath.components (scriptsDir e) = []
  ∨ ∃ parent name x rest,
      filepath.components (scriptsDir e) = parent ++ [name]
      ∧ filepath.components (script_fullPath e scriptPath) = parent ++ x :: rest
      ∧ Str.HasPrefix x name = true
      ∧ (x = name ↔ filepath.within (scriptsDir e) (script_fullPath e scriptPath) = true).
Proof.
  intros Hr Hacc.
  destruct (script_paths_rooted e scriptPath Hr) as (_ & Hfull & Hroot & Hcf & Hcr).
  unfold script_path_accepted in Hacc. rewrite Hfull, Hroot in Hacc.
  apply HasPrefix_chars in Hacc. rewrite !chars_app in Hacc.
  apply prefix_app_inv in Hacc.
  destruct (kept_names (scriptsDir e)) as [Hsr Hnr].
  destruct (kept_names (scriptsDir e +:+ "/" +:+ scriptPath)) as [Hsx _].
  unfold filepath.within. rewrite Hcf, Hcr.
  destruct (decide (kept (scriptsDir e) = [])) as [Hnil|Hne]; [by left|]. right.
  destruct (Join_prefix_inv _ _ Hne Hsr Hnr Hsx Hacc)
    as (pre & last & x & rest & H1 & H2 & H3).
  exists pre, last, x, rest. rewrite H1, H2. do 3 (split; [done|]).
  rewrite bool_decide_eq_true. split.
  - intros ->. exists rest. by rewrite <- app_assoc.
  - intros [k Hk]. rewrite <- app_assoc in Hk. apply app_inv_head in Hk.
    simpl in Hk. by simplify_eq.
Qed.

(** A script below the scripts directory passes the check. *)
Lemma ExecuteScript_accepts_inside_witness :
  script_path_accepted scripts_root "feeds/../daily/news.py" = true.
Proof.
  exact (proj1 (ExecuteScript_accepts_inside failing_env scripts_root
                  "feeds/../daily/news.py" eq_refl eq_refl)).
Defined.

(** The sibling [/data/scripts_evil] is as far as an accepted path gets. *)
Lemma ExecuteScript_accepted_stays_near_witness :
  filepath.components (scriptsDir scripts_root) = []
  ∨ ∃ parent name x rest,
      filepath.components (scriptsDir scripts_root) = parent ++ [name]
      ∧ filepath.components (script_fullPath scripts_root "../scripts_evil/run.py")
        = parent ++ x :: rest
      ∧ Str.HasPrefix x name = true
      ∧ (x = name ↔
         filepath.within (scriptsDir scripts_root)
           (script_fullPath scripts_root "../scripts_evil/run.py") = true).
Proof.
  exact (ExecuteScript_accepted_stays_near scripts_root "../scripts_evil/run.py"
           eq_refl eq_refl).
Defined.

(** ** The scripts directory of a fetcher *)

Lemma GetScriptsDir_clean dataDir mkdirAll dir :
  GetScriptsDir dataDir mkdirAll = Ok dir → filepath.Clean dir = dir.
Proof.
  unfold GetScriptsDir. destruct dataDir as [d|m]; [|done].
  destruct (mkdirAll _); [|done]. intros ?; simplify_eq.
  unfold filepath.Join. destruct (negb (Str.is_empty d)); simpl;
    apply Clean_idempotent.
Qed.

(** X12.  [ValidateScriptPath] and [ExecuteScript] draw the same line.
    When the scripts directory is available, it is a cleaned path, the
    fetcher built by [NewFetcher] runs scripts from it, and
    [ValidateScriptPath] accepts a script path exactly when the check of
    [ExecuteScript] does and [os.Stat] does not report that the path does
    not exist: a path for which [os.Stat] fails in another way is
    accepted, although no file was found.  Both functions resolve the
    path to the same absolute path. *)
Theorem ValidateScriptPath_agrees dataDir mkdirAll translator dir :
  GetScriptsDir dataDir mkdirAll = Ok dir →
  filepath.Clean dir = dir
  ∧ f_scriptExecutor (NewFetcher dataDir mkdirAll translator)
    = Some (NewScriptExecutor dir)
  ∧ ∀ stat scriptPath,
      ValidateScriptPath_in dataDir mkdirAll stat scriptPath
      = if script_path_accepted (NewScriptExecutor dir) scriptPath
        then match stat (script_fullPath (NewScriptExecutor dir) scriptPath) with
             | StatNotExist => Err "file does not exist"
             | StatFound | StatFailed _ =>
                 Ok (script_fullPath (NewScriptExecutor dir) scriptPath)
             end
        else Err "permission denied".
Proof.
  intros Hdir. pose proof (GetScriptsDir_clean _ _ _ Hdir) as Hclean.
  split; [done|]. split; [unfold NewFetcher; by rewrite Hdir|].
  intros stat scriptPath. unfold ValidateScriptPath_in. rewrite Hdir.
  unfold ValidateScriptPath, script_path_accepted, script_fullPath. simpl.
  rewrite Hclean. destruct (Str.HasPrefix _ _); simpl; [|done].
  by destruct (stat _).
Qed.

(** A script path that runs through a regular file: [os.Stat] fails, but
    not with an error of the not-exist kind, and the path is accepted. *)
Lemma ValidateScriptPath_agrees_witness :
  ValidateScriptPath_in (Ok "/data") (λ _, Ok tt)
    (λ _, StatFailed "not a directory") "feed.py/main"
  = Ok "/data/scripts/feed.py/main".
Proof.
  exact (proj2 (proj2 (ValidateScriptPath_agrees (Ok "/data") (λ _, Ok tt) None
                         "/data/scripts" eq_refl))
           (λ _, StatFailed "not a directory") "feed.py/main").
Defined.



(** ** Script runner: one process per call *)

Lemma script_command_last env ext fullPath name args :
  script_command env ext fullPath = Ok (name, args) →
  last_arg (mkCmd name args "") = fullPath.
Proof.
  unfold script_command.
  repeat match goal with
         | |- context [if ?b then _ else _] => destruct b
         end; intros ?; simplify_eq; reflexivity.
Qed.

(** X14.  [ExecuteScript] starts at most one process, and only for a path
    that passed the check.  Either nothing is run and the result is one of
    the two refusals (path outside the scripts directory, shell script on
    Windows), or exactly one command is run: its working directory is the
    scripts directory, its last argument (or the program itself, for a
    binary) is the resolved path, and a feed is returned only if the
    command succeeded and its standard output parsed as that feed. *)
Theorem ExecuteScript_runs_one_command env e scriptPath :
  (fst (ExecuteScript env e scriptPath) = []
   ∧ (snd (ExecuteScript env e scriptPath) = Err invalid_script_path
      ∨ snd (ExecuteScript env e scriptPath)
        = Err "shell scripts are not supported on Windows"))
  ∨ ∃ c, fst (ExecuteScript env e scriptPath) = [EvRun c]
         ∧ cmd_Dir c = scriptsDir e
         ∧ last_arg c = script_fullPath e scriptPath
         ∧ script_path_accepted e scriptPath = true
         ∧ ∀ pf, snd (ExecuteScript env e scriptPath) = Ok pf →
                 ∃ out, os_Run env c = RunOk out ∧ fp_ParseString env out = Ok pf.
Proof.
  unfold ExecuteScript.
  destruct (script_path_accepted e scriptPath) eqn:Hacc; simpl; [|by left; auto].
  destruct (script_command _ _ _) as [[name args]|m] eqn:Hcmd.
  - right. exists (mkCmd name args (scriptsDir e)).
    pose proof (script_command_last _ _ _ _ _ Hcmd) as Hlast.
    destruct (os_Run _ _) as [out|err stderr] eqn:Hrun.
    + destruct (fp_ParseString _ _) as [pf|m] eqn:Hparse; simpl;
        repeat split; try done.
      intros pf' ?; simplify_eq. eauto.
    + destruct (negb _); simpl; repeat split; done.
  - left. split; [done|]. right. unfold script_command in Hcmd.
    repeat match type of Hcmd with
           | context [if ?b then _ else _] => destruct b
           end; by simplify_eq.
Qed.

(** ** Adding subscriptions *)

(** A feed returned by [ExecuteScript] comes from one run of a command on
    a path that passed the check: the run succeeded and what it printed
    parsed as the feed. *)
Lemma ExecuteScript_ok_ran env ex scriptPath evs pf :
  ExecuteScript env ex scriptPath = (evs, Ok pf) →
  script_path_accepted ex scriptPath = true
  ∧ ∃ name args out,
      script_command env
        (Str.ToLower (filepath.Ext (script_fullPath ex scriptPath)))
        (script_fullPath ex scriptPath) = Ok (name, args)
      ∧ evs = [EvRun (mkCmd name args (scriptsDir ex))]
      ∧ os_Run env (mkCmd name args (scriptsDir ex)) = RunOk out
      ∧ fp_ParseString env out = Ok pf.
Proof.
  unfold ExecuteScript.
  destruct (script_path_accepted ex scriptPath); simpl; [|done].
  destruct (script_command _ _ _) as [[name args]|m]; [|done].
  destruct (os_Run _ _) as [out|err stderr] eqn:Hrun.
  - destruct (fp_ParseString _ _) eqn:Hparse; intros ?; simplify_eq.
    split; [done|]. by exists name, args, out.
  - by destruct (negb _).
Qed.

(** X15.  A script subscription is stored only once its script has
    printed a feed.  Either [AddScriptSubscription] stores nothing and
    returns an error, and then the fetcher has no executor or
    [ExecuteScript] failed with that error (path check, interpreter, run
    or parse); or it hands exactly one row to the store, and then the
    script passed the path check, was run exactly once, the run succeeded
    and its output parsed as the feed from which the row takes its title,
    link, description and image.  The row names the script and carries
    the placeholder address made of "script://" and the script path. *)
Theorem AddScriptSubscription_stores_after_run
    env F addFeed scriptPath category customTitle evs rows r :
  AddScriptSubscription env F addFeed scriptPath category customTitle = (evs, rows, r) →
  (rows = []
   ∧ ∃ m, r = Err m
          ∧ ((f_scriptExecutor F = None ∧ evs = []
              ∧ m = "script executor not initialized")
             ∨ ∃ ex, f_scriptExecutor F = Some ex
                     ∧ ExecuteScript env ex scriptPath = (evs, Err m)))
  ∨ ∃ ex name args out pf row,
      f_scriptExecutor F = Some ex
      ∧ script_path_accepted ex scriptPath = true
      ∧ script_command env
          (Str.ToLower (filepath.Ext (script_fullPath ex scriptPath)))
          (script_fullPath ex scriptPath) = Ok (name, args)
      ∧ evs = [EvRun (mkCmd name args (scriptsDir ex))]
      ∧ os_Run env (mkCmd name args (scriptsDir ex)) = RunOk out
      ∧ fp_ParseString env out = Ok pf
      ∧ rows = [row]
      ∧ row = mkNewFeed (subscription_title pf customTitle)
                ("script://" +:+ scriptPath) (pf_Link pf) (pf_Description pf)
                category (subscription_image pf) scriptPath None
      ∧ r = addFeed row.
Proof.
  unfold AddScriptSubscription. destruct (f_scriptExecutor F) as [ex|].
  - destruct (ExecuteScript env ex scriptPath) as [evs0 [pf|m]] eqn:Hex;
      intros ?; simplify_eq.
    + destruct (ExecuteScript_ok_ran _ _ _ _ _ Hex)
        as (Hacc & name & args & out & Hcmd & -> & Hrun & Hparse).
      right. eexists ex, name, args, out, pf, _. repeat split; done.
    + left. split; [done|]. exists m. split; [done|]. right. by exists ex.
  - intros ?; simplify_eq. left. split; [done|]. eexists. split; [done|].
    by left.
Qed.

(** Adding [feed.py] in a world where scripts print a feed: the
    interpreter ran, its output parsed, and the row was stored. *)
Lemma AddScriptSubscription_stores_after_run_witness :
  ∃ out pf,
    os_Run script_env (mkCmd "python3" ["/data/scripts/feed.py"] "/data/scripts")
    = RunOk out
    ∧ fp_ParseString script_env out = Ok pf
    ∧ snd (fst (AddScriptSubscription script_env fetcher0 (λ _, Ok tt)
                  "feed.py" "news" ""))
      = [mkNewFeed (subscription_title pf "") "script://feed.py" (pf_Link pf)
           (pf_Description pf) "news" (subscription_image pf) "feed.py" None].
Proof.
  destruct (AddScriptSubscription_stores_after_run script_env fetcher0
              (λ _, Ok tt) "feed.py" "news" "" _ _ _ eq_refl)
    as [[Hrows _]|(ex & name & args & out & pf & row & Hex & _ & Hcmd & _
                   & Hrun & Hparse & Hrows & Hrow & _)].
  - discriminate Hrows.
  - injection Hex as <-. injection Hcmd as <- <-.
    exists out, pf. split; [exact Hrun|]. split; [exact Hparse|].
    subst row. exact Hrows.
Defined.



Lemma FetchFeed_url_branch env F cancelled feed :
  fd_ScriptPath feed = "" →
  Forall (λ ev, is_run ev = false) (FetchFeed env F cancelled feed).
Proof.
  intros Hsp. apply FetchFeed_stages.
  - unfold FetchFeed_resolve. rewrite Hsp. simpl.
    destruct (fp_ParseURLWithContext _ _); repeat constructor.
  - intros pf. unfold FetchFeed_update. simpl. constructor; [done|].
    apply Forall_app. split.
    + destruct (pf_Image pf); [destruct (Str.is_empty _)|]; repeat constructor.
    + destruct (_ && _); repeat constructor.
  - intros pf. eapply Forall_impl; [apply FetchFeed_persist_only_persists|].
    by intros [].
Qed.

(** X17.  URL and imported subscriptions never run a command.
    [AddSubscription] stores nothing when the address cannot be fetched
    and parsed and returns that error; otherwise it hands one row to the
    store, built from the parsed feed, and returns the store's answer.
    [ImportSubscription] always hands one row to the store, without
    fetching anything.  Neither runs a command; the row keeps the given
    address and names no script, and read back from the store it is
    fetched over its address in every world: no fetch of it ever runs a
    command. *)
Theorem url_subscription_never_runs
    parseURL addFeed url title category customTitle :
  (∀ evs rows r,
     AddSubscription parseURL addFeed url category customTitle = (evs, rows, r) →
     evs = []
     ∧ ((∃ m, parseURL url = Err m ∧ rows = [] ∧ r = Err m)
        ∨ ∃ pf row,
            parseURL url = Ok pf ∧ rows = [row] ∧ r = addFeed row
            ∧ row = mkNewFeed (subscription_title pf customTitle) url
                      (pf_Link pf) (pf_Description pf) category
                      (subscription_image pf) "" None))
  ∧ (∃ row,
       ImportSubscription addFeed title url category = ([], [row], addFeed row)
       ∧ row = mkNewFeed title url "" "" category "" "" None)
  ∧ ∀ evs rows r row,
      AddSubscription parseURL addFeed url category customTitle = (evs, rows, r)
      ∨ ImportSubscription addFeed title url category = (evs, rows, r) →
      row ∈ rows →
      nf_URL row = url ∧ nf_ScriptPath row = ""
      ∧ ∀ env' F' cancelled id,
          Forall (λ ev, is_run ev = false) (FetchFeed env' F' cancelled (stored id row)).
Proof.
  unfold AddSubscription, ImportSubscription. split; [|split].
  - intros evs rows r H. destruct (parseURL url) as [pf|m]; simplify_eq.
    + split; [done|]. right. by eexists pf, _.
    + split; [done|]. left. by exists m.
  - by eexists.
  - intros evs rows r row [H|H] Hrow.
    + destruct (parseURL url) as [pf|m]; simplify_eq.
      * apply list_elem_of_singleton in Hrow as ->.
        do 2 (split; [done|]). intros. by apply FetchFeed_url_branch.
      * by apply elem_of_nil in Hrow.
    + simplify_eq. apply list_elem_of_singleton in Hrow as ->.
      do 2 (split; [done|]). intros. by apply FetchFeed_url_branch.
Qed.

(** A subscription added by address in the sample world never runs a
    command when fetched, even by a fetcher that has an executor. *)
Lemma url_subscription_never_runs_witness :
  Forall (λ ev, is_run ev = false)
    (FetchFeed failing_env fetcher0 false
       (stored 5 (mkNewFeed "Mine" "http://example.org/rss" "http://example.org"
                    "An example" "news" "" "" None))).
Proof.
  exact (proj2 (proj2 (proj2 (proj2
           (url_subscription_never_runs (λ _, Ok sample_parsed) (λ _, Ok tt)
              "http://example.org/rss" "" "news" "Mine"))
           [] _ (Ok tt) _ (or_introl eq_refl) (list_elem_of_here _ _)))
           failing_env fetcher0 false 5%Z).
Defined.

(** X18.  What [HandleAddFeed] answers.  The status is 400 exactly when
    the body cannot be decoded, and then nothing is run, fetched or
    stored; it is 200 exactly when one row was handed to the store and
    the store accepted it; otherwise it is 500.  A request that names a
    script is served by the script branch alone: a row it stores carries
    that script path. *)
Theorem HandleAddFeed_status env F parseURL addFeed decoded evs rows resp :
  HandleAddFeed env F parseURL addFeed decoded = (evs, rows, resp) →
  (rs_Status resp = 400 ↔ ∃ m, decoded = Err m)
  ∧ (rs_Status resp = 400 → evs = [] ∧ rows = [])
  ∧ (rs_Status resp = 200 ↔ ∃ row u, rows = [row] ∧ addFeed row = Ok u)
  ∧ (rs_Status resp = 200 ∨ rs_Status resp = 400 ∨ rs_Status resp = 500)
  ∧ ∀ req row, decoded = Ok req → row ∈ rows →
      nf_ScriptPath row = rq_ScriptPath req.
Proof.
  unfold HandleAddFeed. destruct decoded as [req|m].
  - destruct (negb (Str.is_empty (rq_ScriptPath req))) eqn:Hsp.
    + unfold AddScriptSubscription. destruct (f_scriptExecutor F) as [ex|].
      * destruct (ExecuteScript env ex _) as [evs0 [pf|m]].
        -- destruct (addFeed _) as [u|m] eqn:Hadd; intros ?; simplify_eq; simpl.
           ++ split; [split; [done | by intros [? ?]]|]. split; [done|].
              split; [split; [eauto | done]|]. split; [auto|].
              intros req' row ? ->%list_elem_of_singleton. by simplify_eq.
           ++ split; [split; [done | by intros [? ?]]|]. split; [done|].
              split; [split; [done|]|].
              { intros (row & u & ? & Hu). simplify_eq. congruence. }
              split; [auto|].
              intros req' row ? ->%list_elem_of_singleton. by simplify_eq.
        -- intros ?; simplify_eq; simpl.
           split; [split; [done | by intros [? ?]]|]. split; [done|].
           split; [split; [done | by intros (? & ? & ? & ?)]|]. split; [auto|].
           by intros req' row _ ?%elem_of_nil.
      * intros ?; simplify_eq; simpl.
        split; [split; [done | by intros [? ?]]|]. split; [done|].
        split; [split; [done | by intros (? & ? & ? & ?)]|]. split; [auto|].
        by intros req' row _ ?%elem_of_nil.
    + apply negb_false_iff, is_empty_true in Hsp.
      unfold AddSubscription. destruct (parseURL _) as [pf|m].
      * destruct (addFeed _) as [u|m] eqn:Hadd; intros ?; simplify_eq; simpl.
        -- split; [split; [done | by intros [? ?]]|]. split; [done|].
           split; [split; [eauto | done]|]. split; [auto|].
           intros req' row ? ->%list_elem_of_singleton. by simplify_eq.
        -- split; [split; [done | by intros [? ?]]|]. split; [done|].
           split; [split; [done|]|].
           { intros (row & u & ? & Hu). simplify_eq. congruence. }
           split; [auto|].
           intros req' row ? ->%list_elem_of_singleton. by simplify_eq.
      * intros ?; simplify_eq; simpl.
        split; [split; [done | by intros [? ?]]|]. split; [done|].
        split; [split; [done | by intros (? & ? & ? & ?)]|]. split; [auto|].
        by intros req' row _ ?%elem_of_nil.
  - intros ?; simplify_eq; simpl.
    split; [split; [eauto | done]|]. split; [done|].
    split; [split; [done | by intros (? & ? & ? & ?)]|]. split; [auto|].
    by intros req' row ? _.
Qed.

(** A request naming a script that prints a feed is answered 200. *)
Lemma HandleAddFeed_status_witness :
  200 = 200 ↔
  ∃ row u,
    [mkNewFeed "Example" "script://feed.py" "http://example.org" "An example"
       "news" "" "feed.py" None] = [row]
    ∧ (λ _ : NewFeed, Ok tt) row = Ok u.
Proof.
  exact (proj1 (proj2 (proj2
           (HandleAddFeed_status script_env fetcher0 (λ _, Err "not used") (λ _, Ok tt)
              (Ok (mkAddFeedRequest "http://ignored.example" "news" "" "feed.py"))
              _ _ (mkResponse 200 "") eq_refl)))).
Defined.

(** ** FreshRSS client: the base address and the login token *)

Lemma length_chars (s : string) : length (Str.chars s) = String.length s.
Proof. induction s as [|a s IH]; [done|]. unfold Str.chars in *. simpl. by rewrite IH. Qed.

Lemma length_append (a b : string) :
  String.length (a +:+ b) = String.length a + String.length b.
Proof. by rewrite <- !length_chars, chars_app, length_app. Qed.

Lemma HasSuffix_iff (s suffix : string) :
  Strings.HasSuffix s suffix = true ↔ ∃ a, s = a +:+ suffix.
Proof.
  unfold Strings.HasSuffix. rewrite andb_true_iff, Nat.leb_le, String.eqb_eq. split.
  - intros [Hlen Heq].
    set (n := String.length s - String.length suffix) in *.
    exists (Str.pack (take n (Str.chars s))).
    transitivity (Str.pack (take n (Str.chars s)) +:+ Str.pack (drop n (Str.chars s))).
    + by rewrite <- pack_app, take_drop, pack_chars.
    + by rewrite Heq.
  - intros [a ->]. rewrite length_append. split; [lia|].
    rewrite chars_app.
    replace (String.length a + String.length suffix - String.length suffix)
      with (length (Str.chars a)) by (rewrite length_chars; lia).
    by rewrite drop_app_length, pack_chars.
Qed.

Lemma TrimSuffix_app (a suffix : string) : Strings.TrimSuffix (a +:+ suffix) suffix = a.
Proof.
  unfold Strings.TrimSuffix.
  assert (Strings.HasSuffix (a +:+ suffix) suffix = true) as ->
    by (apply HasSuffix_iff; eauto).
  rewrite length_append, chars_app.
  replace (String.length a + String.length suffix - String.length suffix)
    with (length (Str.chars a)) by (rewrite length_chars; lia).
  by rewrite take_app_length, pack_chars.
Qed.

Lemma last_chars_app (a b : string) (c : ascii) :
  last (Str.chars b) = Some c → last (Str.chars (a +:+ b)) = Some c.
Proof.
  intros Hb. rewrite chars_app. destruct (Str.chars b) as [|x l] eqn:E; [done|].
  by rewrite last_app, Hb.
Qed.

Lemma NewClient_baseURL_suffix (serverURL : string) :
  Strings.HasSuffix (NewClient_baseURL serverURL) greader_suffix = true.
Proof.
  unfold NewClient_baseURL.
  destruct (Strings.HasSuffix serverURL greader_suffix) eqn:E; simpl; [done|].
  apply HasSuffix_iff. eauto.
Qed.

(** X19.  [NewClient] normalises the server address.  The base address
    always ends in [/api/greader.php] and normalising is idempotent.  An
    address that already ends in [/api/greader.php] is kept as it is; an
    address followed by a slash always yields the address followed by
    [/api/greader.php], one slash being dropped.  So an address that does
    not end in a slash yields the same base address with and without a
    trailing slash exactly when it does not already end in
    [/api/greader.php]: in that case the trailing slash makes the suffix
    appear twice. *)
Theorem NewClient_baseURL_normal (serverURL : string) :
  Strings.HasSuffix (NewClient_baseURL serverURL) greader_suffix = true
  ∧ NewClient_baseURL (NewClient_baseURL serverURL) = NewClient_baseURL serverURL
  ∧ NewClient_baseURL (serverURL +:+ "/") = serverURL +:+ greader_suffix
  ∧ (Strings.HasSuffix serverURL greader_suffix = true →
     NewClient_baseURL serverURL = serverURL)
  ∧ (Strings.HasSuffix serverURL "/" = false →
     (NewClient_baseURL serverURL = NewClient_baseURL (serverURL +:+ "/")
      ↔ Strings.HasSuffix serverURL greader_suffix = false)).
Proof.
  pose proof (NewClient_baseURL_suffix serverURL) as Hs.
  assert (NewClient_baseURL (serverURL +:+ "/") = serverURL +:+ greader_suffix)
    as Hslashed.
  { unfold NewClient_baseURL.
    assert (Strings.HasSuffix (serverURL +:+ "/") greader_suffix = false) as ->.
    { destruct (Strings.HasSuffix (serverURL +:+ "/") greader_suffix) eqn:E; [|done].
      exfalso.
      apply HasSuffix_iff in E as [a Ha].
      pose proof (last_chars_app serverURL "/" "/"%char eq_refl) as H1.
      pose proof (last_chars_app a greader_suffix "p"%char eq_refl) as H2.
      rewrite Ha in H1. congruence. }
    simpl. by rewrite TrimSuffix_app. }
  split; [done|]. split; [|split; [done|split]].
  - unfold NewClient_baseURL at 1. by rewrite Hs.
  - intros Hg. unfold NewClient_baseURL. by rewrite Hg.
  - intros Hslash. rewrite Hslashed. unfold NewClient_baseURL.
    destruct (Strings.HasSuffix serverURL greader_suffix) eqn:Hg; simpl.
    + split; [|done]. intros Heq. exfalso.
      apply (f_equal String.length) in Heq. rewrite length_append in Heq.
      simpl in Heq. lia.
    + split; [done|]. intros _. unfold Strings.TrimSuffix. by rewrite Hslash.
Qed.

Lemma NewClient_baseURL_normal_witness :
  NewClient_baseURL "https://rss.example.org"
  = NewClient_baseURL ("https://rss.example.org" +:+ "/").
Proof.
  exact (proj2 (proj2 (proj2 (proj2 (proj2
           (NewClient_baseURL_normal "https://rss.example.org")))) eq_refl)
           eq_refl).
Defined.

(** An address that already names the API, given with a trailing slash. *)
Example NewClient_baseURL_twice :
  NewClient_baseURL "https://rss.example.org/api/greader.php"
  = "https://rss.example.org/api/greader.php"
  ∧ NewClient_baseURL "https://rss.example.org/api/greader.php/"
    = "https://rss.example.org/api/greader.php/api/greader.php".
Proof. split; reflexivity. Qed.

Lemma HasPrefix_TrimPrefix (s pre : string) :
  Str.HasPrefix s pre = true → s = pre +:+ Strings.TrimPrefix s pre.
Proof.
  intros H. unfold Strings.TrimPrefix. rewrite H.
  apply HasPrefix_chars in H as [k Hk]. apply chars_inj.
  rewrite chars_app, chars_pack, Hk, <- length_chars.
  by rewrite drop_app_length.
Qed.

Lemma HasPrefix_app (pre t : string) : Str.HasPrefix (pre +:+ t) pre = true.
Proof. apply HasPrefix_chars. rewrite chars_app. by apply prefix_app_r. Qed.

Lemma TrimPrefix_app (pre t : string) : Strings.TrimPrefix (pre +:+ t) pre = t.
Proof.
  unfold Strings.TrimPrefix. rewrite HasPrefix_app, chars_app, <- length_chars.
  by rewrite drop_app_length, pack_chars.
Qed.

Lemma Split_sep_free (sep : ascii) (cur s : list ascii) :
  Forall (λ c, c ≠ sep) cur →
  Forall (λ l, Forall (λ c, c ≠ sep) (Str.chars l)) (Strings.split_on sep cur s).
Proof.
  revert cur. induction s as [|c s IH]; intros cur Hcur; simpl.
  - constructor; [|constructor]. rewrite chars_pack. by apply Forall_rev.
  - destruct (Ascii.eqb c sep) eqn:Hc.
    + constructor; [|by apply IH]. rewrite chars_pack. by apply Forall_rev.
    + apply IH. constructor; [|done]. by apply Ascii.eqb_neq.
Qed.

Lemma first_auth_Some (lines : list string) (token : string) :
  first_auth lines = Some token ↔
  ∃ before after,
    lines = before ++ ("Auth=" +:+ token) :: after
    ∧ Forall (λ l, Str.HasPrefix l "Auth=" = false) before.
Proof.
  induction lines as [|line rest IH]; simpl.
  - split; [done|]. intros (before & after & H & _). by destruct before.
  - destruct (Str.HasPrefix line "Auth=") eqn:Hp.
    + split.
      * intros ?; simplify_eq. exists [], rest. split; [|constructor].
        simpl. f_equal. by apply HasPrefix_TrimPrefix.
      * intros ([|b before] & after & H & Hb).
        -- injection H as -> ->. f_equal. exact (TrimPrefix_app "Auth=" token).
        -- injection H as -> ->. apply Forall_cons in Hb as [Hb _]. congruence.
    + rewrite IH. split.
      * intros (before & after & -> & Hb). exists (line :: before), after.
        split; [done | by constructor].
      * intros ([|b before] & after & H & Hb).
        -- injection H as -> ->.
           pose proof (HasPrefix_app "Auth=" token) as Ht. congruence.
        -- injection H as -> ->. apply Forall_cons in Hb as [_ Hb]. eauto.
Qed.

(** X20.  What [Login] takes for the token.  [Login] succeeds exactly when
    the request could be built, the server answered 200, the body was read
    in full and one of its lines starts with [Auth=]; the token is then
    what follows [Auth=] on the first such line.  It holds no line break,
    and it may be empty. *)
Theorem Login_takes_first_auth_line reqErr answer token :
  Login reqErr answer = Ok token ↔
  ∃ body before after,
    reqErr = None
    ∧ answer = HttpResponse 200 body None
    ∧ Strings.Split body newline_char = before ++ ("Auth=" +:+ token) :: after
    ∧ Forall (λ l, Str.HasPrefix l "Auth=" = false) before
    ∧ Forall (λ c, c ≠ newline_char) (Str.chars token).
Proof.
  split.
  - unfold Login. destruct reqErr; [done|]. destruct answer as [e|status body readErr];
      [done|].
    destruct (status =? 200) eqn:Hst; simpl; [|done]. apply Nat.eqb_eq in Hst as ->.
    destruct readErr; [done|].
    destruct (Login_token body) as [t|] eqn:Ht; [|done]. intros ?; simplify_eq.
    apply first_auth_Some in Ht as (before & after & Hsplit & Hb).
    exists body, before, after. do 4 (split; [done|]).
    pose proof (Split_sep_free newline_char [] (Str.chars body) (Forall_nil_2 _)) as Hfree.
    fold (Strings.Split body newline_char) in Hfree. rewrite Hsplit in Hfree.
    apply Forall_app in Hfree as [_ Hfree]. apply Forall_cons in Hfree as [Hfree _].
    rewrite chars_app in Hfree. by apply Forall_app in Hfree as [_ ?].
  - intros (body & before & after & -> & -> & Hsplit & Hb & _). unfold Login. simpl.
    assert (Login_token body = Some token) as ->; [|done].
    apply first_auth_Some. eauto.
Qed.

Lemma Login_takes_first_auth_line_witness :
  ∃ body before after,
    @None string = None
    ∧ HttpResponse 200 ("SID=abc" +:+ newline +:+ "Auth=tok/42" +:+ newline) None
      = HttpResponse 200 body None
    ∧ Strings.Split body newline_char = before ++ ("Auth=" +:+ "tok/42") :: after
    ∧ Forall (λ l, Str.HasPrefix l "Auth=" = false) before
    ∧ Forall (λ c, c ≠ newline_char) (Str.chars "tok/42").
Proof.
  exact (proj1 (Login_takes_first_auth_line None
                  (HttpResponse 200
                     ("SID=abc" +:+ newline +:+ "Auth=tok/42" +:+ newline) None)
                  "tok/42")
           eq_refl).
Defined.

(** ** FreshRSS synchronisation *)

Lemma foldl_feed_map_None (feeds : list Feed) (m : gmap string Z) (u : string) :
  foldl (λ m f, <[fd_URL f := fd_ID f]> m) m feeds !! u = None
  ↔ m !! u = None ∧ u ∉ map fd_URL feeds.
Proof.
  revert m. induction feeds as [|f feeds IH]; intros m; simpl.
  - split; [intros H; split; [done | apply not_elem_of_nil] | by intros [? _]].
  - rewrite IH, lookup_insert_None, not_elem_of_cons. split.
    + intros [[Hm Hne] Hnot]. repeat split; [done | congruence | done].
    + intros [Hm [Hne Hnot]]. repeat split; [done | congruence | done].
Qed.

Lemma local_feed_map_None (feeds : list Feed) (u : string) :
  local_feed_map feeds !! u = None ↔ u ∉ map fd_URL feeds.
Proof.
  unfold local_feed_map. rewrite foldl_feed_map_None, lookup_empty.
  split; [by intros [_ ?] | done].
Qed.

Lemma offered_rows_app (a b : list SyncWrite) :
  offered_rows (a ++ b) = offered_rows a ++ offered_rows b.
Proof. apply omap_app. Qed.


(** The loop offers one row per subscription whose address is not in the
    map, in order, whatever the store answers; it saves no article. *)
Lemma add_missing_rows {D} (db : SyncDB D) now m subs d :
  offered_rows (snd (add_missing db now m subs d))
  = map (subscription_row now) (filter (λ sub, m !! sub_URL sub = None) subs)
  ∧ saved_batches (snd (add_missing db now m subs d)) = [].
Proof.
  revert d. induction subs as [|sub rest IH]; intros d; simpl; [done|].
  destruct (m !! sub_URL sub) as [id|] eqn:Hm.
  - rewrite filter_cons_False by (by rewrite Hm). apply IH.
  - rewrite filter_cons_True by done.
    destruct (sdb_AddFeed db _ d) as [d1 r].
    specialize (IH d1). destruct (add_missing db now m rest d1) as [d2 ws].
    simpl in *. destruct IH as [-> ->]. done.
Qed.

Lemma getOrCreate_writes {D} (db : SyncDB D) now d :
  let ws := snd (fst (getOrCreateFreshRSSFeed db now d)) in
  (offered_rows ws = [] ∨ offered_rows ws = [synced_row now])
  ∧ saved_batches ws = [].
Proof.
  unfold getOrCreateFreshRSSFeed. destruct (sdb_GetFeeds db d) as [feeds|m]; simpl;
    [|auto].
  destruct (List.find _ feeds); simpl; [auto|].
  destruct (sdb_AddFeed db _ d) as [d1 r]. simpl. auto.
Qed.

(** X21.  [Sync] offers the store exactly the missing subscriptions.  Once
    the login, the subscription list and the load of the local
    subscriptions have succeeded, the rows handed to [AddFeed] are, in the
    order of the server's list, one for each subscription whose address is
    not among the local ones (each one, even when an address occurs twice
    in the list, and whether or not earlier inserts failed), followed by
    at most one row for the subscription that collects synced articles. *)
Theorem Sync_offers_missing_subscriptions {D} (db : SyncDB D) remote d
    token subs localFeeds d' ws r :
  rm_Login remote = Ok token →
  GetSubscriptions token (rm_Subscriptions remote) = Ok subs →
  sdb_GetFeeds db d = Ok localFeeds →
  Sync db remote d = (d', ws, r) →
  ∃ tail,
    offered_rows ws
    = map (subscription_row (rm_Now remote))
        (filter (λ sub, sub_URL sub ∉ map fd_URL localFeeds) subs)
      ++ tail
    ∧ (tail = [] ∨ tail = [synced_row (rm_Now remote)]).
Proof.
  intros Hlogin Hsubs Hfeeds. unfold Sync. rewrite Hlogin, Hsubs, Hfeeds.
  destruct (add_missing_rows db (rm_Now remote) (local_feed_map localFeeds) subs d)
    as [Hrows _].
  rewrite (list_filter_iff _ (λ sub, sub_URL sub ∉ map fd_URL localFeeds)) in Hrows
    by (intros sub; apply local_feed_map_None).
  destruct (add_missing _ _ _ _ _) as [d1 ws1]. simpl in Hrows.
  destruct (GetUnreadArticles _ _) as [fresh|m].
  - pose proof (getOrCreate_writes db (rm_Now remote) d1) as [Hcreate _].
    destruct (getOrCreateFreshRSSFeed _ _ _) as [[d2 ws2] [id|m]]; simpl in Hcreate.
    + destruct (0 <? _).
      * destruct (sdb_SaveArticles _ _ _) as [d3 [u|m]]; intros ?; simplify_eq;
          exists (offered_rows ws2);
          rewrite !offered_rows_app, Hrows; simpl; rewrite app_nil_r; done.
      * intros ?; simplify_eq. exists (offered_rows ws2).
        by rewrite offered_rows_app, Hrows.
    + intros ?; simplify_eq. exists (offered_rows ws2).
      by rewrite offered_rows_app, Hrows.
  - intros ?; simplify_eq. exists []. rewrite app_nil_r. auto.
Qed.

(** X22.  No store write without a session.  If [Sync] asks anything of
    the store, then the login had succeeded with a non-empty token, the
    subscription list had been obtained and the local subscriptions had
    been loaded.  In particular a login that yields the empty token makes
    [Sync] fail at its first request with "not authenticated", the store
    untouched. *)
Theorem Sync_writes_need_session {D} (db : SyncDB D) remote d d' ws r :
  Sync db remote d = (d', ws, r) →
  (ws ≠ [] →
   ∃ token subs localFeeds,
     rm_Login remote = Ok token ∧ token ≠ ""
     ∧ rm_Subscriptions remote = Ok subs
     ∧ sdb_GetFeeds db d = Ok localFeeds)
  ∧ (rm_Login remote = Ok "" →
     d' = d ∧ ws = [] ∧ r = Err "get subscriptions: not authenticated").
Proof.
  unfold Sync. destruct (rm_Login remote) as [token|m].
  - unfold GetSubscriptions. destruct (Str.is_empty token) eqn:Htok.
    + apply is_empty_true in Htok as ->. intros ?; simplify_eq. done.
    + apply is_empty_false in Htok.
      destruct (rm_Subscriptions remote) as [subs|m].
      * destruct (sdb_GetFeeds db d) as [localFeeds|m].
        -- intros _. split; [|intros ?; by simplify_eq].
           intros _. by exists token, subs, localFeeds.
        -- intros ?; simplify_eq. split; [done | intros ?; by simplify_eq].
      * intros ?; simplify_eq. split; [done | intros ?; by simplify_eq].
  - intros ?; simplify_eq. done.
Qed.



(** X24.  The subscription that collects synced articles is created once.
    [getOrCreateFreshRSSFeed] adds a row only when no local subscription
    has the address [freshrss://synced]; otherwise it returns the
    identifier of the first local subscription with that address and asks
    nothing of the store. *)
Theorem getOrCreateFreshRSSFeed_reuses {D} (db : SyncDB D) now d feeds d' ws r :
  sdb_GetFeeds db d = Ok feeds →
  getOrCreateFreshRSSFeed db now d = (d', ws, r) →
  (synced_url ∈ map fd_URL feeds →
   d' = d ∧ ws = []
   ∧ ∃ before f after,
       feeds = before ++ f :: after ∧ fd_URL f = synced_url
       ∧ (synced_url ∉ map fd_URL before) ∧ r = Ok (fd_ID f))
  ∧ (synced_url ∉ map fd_URL feeds →
     ws = [SwAddFeed (synced_row now) r]
     ∧ sdb_AddFeed db (synced_row now) d = (d', r)).
Proof.
  intros Hfeeds. unfold getOrCreateFreshRSSFeed. rewrite Hfeeds. clear Hfeeds.
  assert (Hfind : ∀ l,
            match List.find (λ f, String.eqb (fd_URL f) synced_url) l with
            | Some f => ∃ before after,
                          l = before ++ f :: after ∧ fd_URL f = synced_url
                          ∧ synced_url ∉ map fd_URL before
            | None => synced_url ∉ map fd_URL l
            end).
  { induction l as [|f l IH]; simpl; [apply not_elem_of_nil|].
    destruct (String.eqb_spec (fd_URL f) synced_url) as [Heq|Hne].
    - exists [], l. repeat split; [done|]. apply not_elem_of_nil.
    - destruct (List.find _ l) as [g|].
      + destruct IH as (before & after & -> & Hg & Hb).
        exists (f :: before), after. repeat split; [done|].
        simpl. apply not_elem_of_cons. split; [congruence | done].
      + apply not_elem_of_cons. split; [congruence | done]. }
  specialize (Hfind feeds).
  destruct (List.find _ feeds) as [f|].
  - intros ?; simplify_eq. destruct Hfind as (before & after & -> & Hf & Hb).
    split; [|intros Hnot; exfalso; apply Hnot].
    + intros _. do 2 (split; [done|]). by exists before, f, after.
    + rewrite map_app. apply elem_of_app. right. simpl. rewrite Hf. left.
  - destruct (sdb_AddFeed db _ d) as [d1 r1] eqn:Hadd. intros ?; simplify_eq.
    split; [done|]. done.
Qed.

(** ** The synchronisation on the sample store *)

Lemma Sync_offers_missing_subscriptions_witness :
  ∃ tail,
    offered_rows (snd (fst (Sync list_db sample_remote one_feed_store)))
    = map (subscription_row (rm_Now sample_remote))
        (filter (λ sub, sub_URL sub ∉ map fd_URL [url_feed])
           [mkSubscription "feed/1" "Plain" "http://example.org/rss" [];
            mkSubscription "feed/2" "News" "http://news.example/rss"
              [mkCategory "user/-/label/Daily" "Daily"]])
      ++ tail
    ∧ (tail = [] ∨ tail = [synced_row (rm_Now sample_remote)]).
Proof.
  destruct (Sync list_db sample_remote one_feed_store) as [[d' ws] r] eqn:HS.
  exact (Sync_offers_missing_subscriptions list_db sample_remote one_feed_store
           "tok/42" _ [url_feed] d' ws r eq_refl eq_refl eq_refl HS).
Defined.

Lemma Sync_writes_need_session_witness :
  snd (Sync list_db tokenless_remote one_feed_store)
  = Err "get subscriptions: not authenticated".
Proof.
  destruct (Sync list_db tokenless_remote one_feed_store) as [[d' ws] r] eqn:HS.
  exact (proj2 (proj2 (proj2 (Sync_writes_need_session list_db tokenless_remote
                                one_feed_store d' ws r HS) eq_refl))).
Defined.


Lemma getOrCreateFreshRSSFeed_reuses_witness :
  fst (getOrCreateFreshRSSFeed list_db 1700000100 synced_store) = (synced_store, []).
Proof.
  destruct (getOrCreateFreshRSSFeed list_db 1700000100 synced_store)
    as [[d' ws] r] eqn:HG.
  destruct (proj1 (getOrCreateFreshRSSFeed_reuses list_db 1700000100 synced_store
                     (fst synced_store) d' ws r eq_refl HG))
    as (-> & -> & _); [|reflexivity].
  apply list_elem_of_further, list_elem_of_here.
Defined.

(** ** The FreshRSS handlers *)

(** X25.  [HandleSync] starts a synchronisation only when it is
    configured.  The sync service is started exactly for a POST request
    with the setting [freshrss_enabled] readable and equal to "true" and
    the server address, user name and password all non-empty; its client
    then talks to an address ending in [/api/greader.php] with these
    credentials.  Every refusal carries status 405, 500 or 400. *)
Theorem HandleSync_starts_when_configured method enabled serverURL username password :
  ((∃ b u p, HandleSync method enabled serverURL username password = SyncStarted b u p)
   ↔ method = "POST" ∧ enabled = Ok "true"
     ∧ serverURL ≠ "" ∧ username ≠ "" ∧ password ≠ "")
  ∧ (∀ b u p,
       HandleSync method enabled serverURL username password = SyncStarted b u p →
       Strings.HasSuffix b greader_suffix = true ∧ u = username ∧ p = password)
  ∧ (∀ msg code,
       HandleSync method enabled serverURL username password = SyncRefused msg code →
       (code = 405 ↔ method ≠ "POST") ∧ (code = 405 ∨ code = 500 ∨ code = 400)).
Proof.
  unfold HandleSync.
  destruct (String.eqb_spec method "POST") as [->|Hm]; simpl.
  - destruct enabled as [e|m].
    + destruct (String.eqb_spec e "true") as [->|He]; simpl.
      * destruct (Str.is_empty serverURL) eqn:H1; simpl.
        { apply is_empty_true in H1 as ->. split; [|split].
          - split; [by intros (? & ? & ? & ?) | by intros (_ & _ & ? & _)].
          - done.
          - intros ? ? ?; simplify_eq. split; [done | auto]. }
        destruct (Str.is_empty username) eqn:H2; simpl.
        { apply is_empty_true in H2 as ->. split; [|split].
          - split; [by intros (? & ? & ? & ?) | by intros (_ & _ & _ & ? & _)].
          - done.
          - intros ? ? ?; simplify_eq. split; [done | auto]. }
        destruct (Str.is_empty password) eqn:H3; simpl.
        { apply is_empty_true in H3 as ->. split; [|split].
          - split; [by intros (? & ? & ? & ?) | by intros (_ & _ & _ & _ & ?)].
          - done.
          - intros ? ? ?; simplify_eq. split; [done | auto]. }
        apply is_empty_false in H1, H2, H3. split; [|split].
        -- split; [done | eauto].
        -- intros b u p ?; simplify_eq. split; [apply NewClient_baseURL_suffix | done].
        -- done.
      * split; [|split].
        -- split; [by intros (? & ? & ? & ?) | intros (_ & ? & _); congruence].
        -- done.
        -- intros ? ? ?; simplify_eq. split; [done | auto].
    + split; [|split].
      * split; [by intros (? & ? & ? & ?) | by intros (_ & ? & _)].
      * done.
      * intros ? ? ?; simplify_eq. split; [done | auto].
  - split; [|split].
    + split; [by intros (? & ? & ? & ?) | by intros (? & _)].
    + done.
    + intros ? ? ?; simplify_eq. split; [done | auto].
Qed.

(** X26.  What [HandleTestConnection] reports.  It reports success exactly
    for a POST request whose body decodes to three non-empty fields and
    for which [Login], against the normalised address, succeeds.  The
    subscription count it reports is the length of the server's list
    whenever [Login] left a non-empty token in the client; it is zero
    when the list cannot be obtained, which includes the case of an empty
    token, where no request is made: a failing subscription request is
    still reported as success.  Only a request that is not a POST is
    refused with an HTTP error status; every other failure is reported in
    the body. *)
Theorem HandleTestConnection_reports method decoded login subscriptions :
  ((∃ n, HandleTestConnection method decoded login subscriptions = TestSuccess n)
   ↔ method = "POST"
     ∧ ∃ req token,
         decoded = Ok req
         ∧ tq_ServerURL req ≠ "" ∧ tq_Username req ≠ "" ∧ tq_APIPassword req ≠ ""
         ∧ login (NewClient_baseURL (tq_ServerURL req)) (tq_Username req)
             (tq_APIPassword req) = Ok token)
  ∧ (∀ n, HandleTestConnection method decoded login subscriptions = TestSuccess n →
          ∃ req token,
            decoded = Ok req
            ∧ login (NewClient_baseURL (tq_ServerURL req)) (tq_Username req)
                (tq_APIPassword req) = Ok token
            ∧ (token ≠ "" → ∀ subs, subscriptions = Ok subs → n = length subs)
            ∧ (token = "" → n = 0)
            ∧ (∀ m, subscriptions = Err m → n = 0))
  ∧ (HandleTestConnection method decoded login subscriptions = TestMethodNotAllowed
     ↔ method ≠ "POST").
Proof.
  unfold HandleTestConnection.
  destruct (String.eqb_spec method "POST") as [->|Hm]; simpl.
  2:{ split; [|split].
      - split; [by intros [? ?] | by intros [? _]].
      - done.
      - done. }
  destruct decoded as [req|m].
  2:{ split; [|split].
      - split; [by intros [? ?] | by intros (_ & ? & ? & ? & _)].
      - done.
      - split; [done | by intros ?]. }
  destruct (Str.is_empty (tq_ServerURL req)) eqn:H1; simpl.
  { apply is_empty_true in H1. split; [|split].
    - split; [by intros [? ?]|]. intros (_ & ? & ? & ? & ? & _). by simplify_eq.
    - done.
    - split; [done | by intros ?]. }
  destruct (Str.is_empty (tq_Username req)) eqn:H2; simpl.
  { apply is_empty_true in H2. split; [|split].
    - split; [by intros [? ?]|]. intros (_ & ? & ? & ? & ? & ? & _). by simplify_eq.
    - done.
    - split; [done | by intros ?]. }
  destruct (Str.is_empty (tq_APIPassword req)) eqn:H3; simpl.
  { apply is_empty_true in H3. split; [|split].
    - split; [by intros [? ?]|]. intros (_ & ? & ? & ? & ? & ? & ? & _).
      by simplify_eq.
    - done.
    - split; [done | by intros ?]. }
  apply is_empty_false in H1, H2, H3.
  destruct (login _ _ _) as [token|m] eqn:Hlogin.
  - split; [|split].
    + split; [|eauto]. intros _. split; [done|]. by exists req, token.
    + intros n ?; simplify_eq. exists req, token. do 2 (split; [done|]).
      unfold GetSubscriptions. split; [|split].
      * intros Htok subs ->. apply is_empty_false in Htok. by rewrite Htok.
      * by intros ->.
      * intros m ->. by destruct (Str.is_empty token).
    + split; [done | by intros ?].
  - split; [|split].
    + split; [by intros [? ?]|]. intros (_ & req' & token & ? & _ & _ & _ & Hl).
      simplify_eq. congruence.
    + done.
    + split; [done | by intros ?].
Qed.

(** ** HTML clean-up *)

Example CleanHTML_fixes_tags :
  CleanHTML " <p-->Hi</p> <img src=x -->  " = "<p>Hi</p> <img src=x >".
Proof. vm_compute. reflexivity. Qed.

Example CleanHTML_first_pattern_wins :
  CleanHTML "<div  ---><br   -->a--b<input a-- --><imgx-->"
  = "<div><br>a--b<input a-- ><imgx>".
Proof. vm_compute. reflexivity. Qed.

Example CleanHTML_keeps_comments :
  CleanHTML "<!-- c --><a href=x-->" = "<!-- c --><a href=x-->".
Proof. vm_compute. reflexivity. Qed.

Example TrimSpace_unicode :
  TrimSpace (Str.pack (utf8 [194; 160; 32; 97; 32; 226; 128; 168; 9])) = "a".
Proof. vm_compute. reflexivity. Qed.

Lemma star_sound {R} (p : ascii → bool) (s : list ascii)
    (k : list ascii → option R) (r : R) :
  rx.star p s k = Some r →
  ∃ run rest, s = run ++ rest ∧ k rest = Some r.
Proof.
  revert r. induction s as [|c s IH]; simpl; intros r H.
  - by exists [], [].
  - destruct (p c); [|by exists [], (c :: s)].
    destruct (rx.star p s k) as [r'|] eqn:Hrec; [|by exists [], (c :: s)].
    simplify_eq. destruct (IH r eq_refl) as (run & rest & -> & Hk).
    by exists (c :: run), rest.
Qed.

Lemma lazy_star_sound {R} (p : ascii → bool) (s : list ascii)
    (k : list ascii → option R) (r : R) :
  rx.lazy_star p s k = Some r →
  ∃ run rest, s = run ++ rest ∧ k rest = Some r.
Proof.
  revert r. induction s as [|c s IH]; simpl; intros r H.
  - destruct (k []) eqn:Hk; [|done]. simplify_eq. by exists [], [].
  - destruct (k (c :: s)) eqn:Hk; [simplify_eq; by exists [], (c :: s)|].
    destruct (p c); [|done].
    destruct (IH r H) as (run & rest & -> & Hk'). by exists (c :: run), rest.
Qed.

Lemma alt_sound {R} (alts : list string) (s : list ascii)
    (k : list ascii → option R) (r : R) :
  rx.alt alts s k = Some r →
  ∃ a rest, s = Str.chars a ++ rest ∧ k rest = Some r.
Proof.
  induction alts as [|a alts IH]; simpl; [done|].
  destruct (regexp.strip (Str.chars a) s) as [s'|] eqn:Hs; [|done].
  destruct (k s') eqn:Hk; [|done]. intros ?; simplify_eq.
  apply strip_sound in Hs. eauto.
Qed.

Lemma is_dash_eq (c : ascii) : rx.is_dash c = true → c = "-"%char.
Proof. apply Ascii.eqb_eq. Qed.

(** A dash followed by a non-empty run of dashes ends in two dashes. *)
Lemma dashes_end (l : list ascii) :
  l ≠ [] → Forall (λ c, rx.is_dash c = true) l →
  ∃ front, "-"%char :: l = front ++ Str.chars "--".
Proof.
  intros Hne Hall. induction Hall as [|d l Hd Hl IH]; [done|].
  apply is_dash_eq in Hd as ->. destruct l as [|d' l]; [by exists []|].
  destruct IH as [front Hf]; [done|]. exists ("-"%char :: front).
  simpl. by rewrite Hf.
Qed.

Lemma has_sub_app_l {A} (sub l l' : list A) : has_sub sub l → has_sub sub (l ++ l').
Proof.
  intros (pre & post & ->). exists pre, (post ++ l'). by rewrite <- !app_assoc.
Qed.

Lemma has_sub_cons {A} (sub l : list A) (x : A) : has_sub sub l → has_sub sub (x :: l).
Proof. intros (pre & post & ->). by exists (x :: pre), post. Qed.

Lemma tail_has_dashes_gt (front dashes : list ascii) :
  dashes ≠ [] → Forall (λ c, rx.is_dash c = true) dashes →
  has_sub dashes_gt (front ++ "-"%char :: dashes ++ [">"%char]).
Proof.
  intros Hne Hall. destruct (dashes_end dashes Hne Hall) as [f Hf].
  exists (front ++ f), []. rewrite app_nil_r.
  change ("-"%char :: dashes ++ [">"%char]) with (("-"%char :: dashes) ++ [">"%char]).
  rewrite Hf. by rewrite <- !app_assoc.
Qed.

Ltac list_eq := repeat (progress (simpl; rewrite <- ?app_assoc)); reflexivity.

Lemma malformedTag_consumes (s rest : list ascii) (caps : list string) :
  rx.match_here malformedTagRegex s = Some (rest, caps) →
  consumes malformedTagTemplate s rest caps.
Proof.
  unfold rx.match_here, malformedTagRegex. cbn [rx.run].
  destruct (regexp.strip (Str.chars "<") s) as [s1|] eqn:H1; [|done].
  apply strip_sound in H1 as ->.
  destruct s1 as [|c s2]; [done|]. destruct (rx.is_alpha c); [|done].
  intros (name & s3 & -> & H)%star_sound.
  apply star_sound in H as (ws & s4 & -> & H).
  destruct (regexp.strip (Str.chars "-") s4) as [s5|] eqn:H5; [|done].
  apply strip_sound in H5 as ->.
  apply plus_class_sound in H as (dashes & s6 & -> & Hne & Hall & H).
  destruct (regexp.strip (Str.chars ">") s6) as [s7|] eqn:H7; [|done].
  apply strip_sound in H7 as ->. simplify_eq.
  exists (("<"%char :: c :: name ++ ws) ++ "-"%char :: dashes ++ [">"%char]).
  split; [list_eq|]. split; [simpl; lia|]. split.
  - unfold rx.expand, malformedTagTemplate. cbn [map concat nth list_insert].
    change (c :: name ++ ws ++ Str.chars "-" ++ dashes ++ Str.chars ">" ++ rest)
      with ((c :: name) ++ ws ++ Str.chars "-" ++ dashes ++ Str.chars ">" ++ rest).
    rewrite take_app_length_diff.
    simpl. rewrite chars_pack, !length_app. simpl. rewrite !length_app. simpl. lia.
  - by apply tail_has_dashes_gt.
Qed.

Lemma malformedSelfClosing_consumes (s rest : list ascii) (caps : list string) :
  rx.match_here malformedSelfClosingRegex s = Some (rest, caps) →
  consumes malformedSelfClosingTemplate s rest caps.
Proof.
  unfold rx.match_here, malformedSelfClosingRegex. cbn [rx.run].
  destruct (regexp.strip (Str.chars "<") s) as [s1|] eqn:H1; [|done].
  apply strip_sound in H1 as ->.
  intros (tag & s2 & -> & H)%alt_sound.
  apply plus_class_sound in H as (ws & s3 & -> & Hws & _ & H).
  apply lazy_star_sound in H as (attrs & s4 & -> & H).
  destruct (regexp.strip (Str.chars "-") s4) as [s5|] eqn:H5; [|done].
  apply strip_sound in H5 as ->.
  apply plus_class_sound in H as (dashes & s6 & -> & Hne & Hall & H).
  destruct (regexp.strip (Str.chars ">") s6) as [s7|] eqn:H7; [|done].
  apply strip_sound in H7 as ->. simplify_eq.
  exists ((Str.chars "<" ++ Str.chars tag ++ ws ++ attrs)
          ++ "-"%char :: dashes ++ [">"%char]).
  split; [list_eq|].
  split; [rewrite !length_app; simpl; lia|]. split.
  - unfold rx.expand, malformedSelfClosingTemplate.
    cbn [map concat nth list_insert].
    rewrite !take_app_length_diff, pack_chars.
    change (nth 1 (<[2:=Str.pack attrs]> (<[1:=tag]> [""; ""; ""])) "") with tag.
    change (nth 2 (<[2:=Str.pack attrs]> (<[1:=tag]> [""; ""; ""])) "")
      with (Str.pack attrs).
    rewrite chars_pack, !length_app. simpl. rewrite !length_app. simpl.
    destruct ws; [done|]. simpl. lia.
  - by apply tail_has_dashes_gt.
Qed.

(** ** The scan of [ReplaceAllString] *)

Section Replace.
Variable r : rx.re.
Variable template : list rx.piece.
Hypothesis matches_consume :
  ∀ s rest caps, rx.match_here r s = Some (rest, caps) →
                 consumes template s rest caps.

Lemma replace_from_length (skip : nat) (s : list ascii) :
  length (rx.replace_from r template skip s) + skip `min` length s ≤ length s.
Proof.
  revert skip. induction s as [|c s IH]; intros skip; simpl; [lia|].
  destruct skip as [|k]; [|specialize (IH k); lia].
  destruct (rx.match_here r (c :: s)) as [[rest caps]|] eqn:Hm.
  - destruct (matches_consume _ _ _ Hm) as (mid & Hs & Hmid & Hout & _).
    apply (f_equal length) in Hs. rewrite length_app in Hs. simpl in Hs.
    specialize (IH (length s - length rest)). rewrite length_app. lia.
  - specialize (IH 0). simpl. lia.
Qed.

Lemma replace_from_id (s : list ascii) :
  ¬ has_sub dashes_gt s → rx.replace_from r template 0 s = s.
Proof.
  induction s as [|c s IH]; intros Hno; simpl; [done|].
  destruct (rx.match_here r (c :: s)) as [[rest caps]|] eqn:Hm.
  - exfalso. destruct (matches_consume _ _ _ Hm) as (mid & Hs & _ & _ & Hsub).
    apply Hno. rewrite Hs. by apply has_sub_app_l.
  - f_equal. apply IH. intros Hsub. apply Hno. by apply has_sub_cons.
Qed.

End Replace.

Lemma ReplaceAllString_length r template src :
  (∀ s rest caps, rx.match_here r s = Some (rest, caps) →
                  consumes template s rest caps) →
  String.length (rx.ReplaceAllString r template src) ≤ String.length src.
Proof.
  intros Hm. unfold rx.ReplaceAllString.
  rewrite <- !length_chars, chars_pack.
  pose proof (replace_from_length r template Hm 0 (Str.chars src)). lia.
Qed.

Lemma ReplaceAllString_id r template src :
  (∀ s rest caps, rx.match_here r s = Some (rest, caps) →
                  consumes template s rest caps) →
  ¬ has_sub dashes_gt (Str.chars src) →
  rx.ReplaceAllString r template src = src.
Proof.
  intros Hm Hno. unfold rx.ReplaceAllString.
  by rewrite (replace_from_id r template Hm), pack_chars.
Qed.

Lemma trim_left_length encs skip s : length (trim_left encs skip s) ≤ length s.
Proof.
  revert skip. induction s as [|c s IH]; intros skip; simpl; [lia|].
  destruct skip as [|k]; [|specialize (IH k); lia].
  destruct (strip_any encs (c :: s)); [|simpl; lia].
  specialize (IH (length s - length l)). lia.
Qed.

Lemma TrimSpace_length (s : string) : String.length (TrimSpace s) ≤ String.length s.
Proof.
  unfold TrimSpace. rewrite <- !length_chars, chars_pack, length_rev.
  etransitivity; [apply trim_left_length|]. rewrite length_rev.
  apply trim_left_length.
Qed.

Lemma strip_app (sub post : list ascii) : regexp.strip sub (sub ++ post) = Some post.
Proof.
  induction sub as [|a sub IH]; simpl; [done|]. by rewrite Ascii.eqb_refl.
Qed.

Lemma contains_from_false (sub s : list ascii) :
  contains_from sub s = false → ¬ has_sub sub s.
Proof.
  induction s as [|c s IH]; simpl.
  - destruct (regexp.strip sub []) eqn:Hs; [done|]. intros _ (pre & post & H).
    symmetry in H. apply app_eq_nil in H as [-> H]. apply app_eq_nil in H as [-> ->].
    done.
  - destruct (regexp.strip sub (c :: s)) eqn:Hs; [done|]. intros Hrec (pre & post & H).
    destruct pre as [|x pre]; simpl in H.
    + rewrite H, strip_app in Hs. done.
    + injection H as -> ->. apply (IH Hrec). by exists pre, post.
Qed.

(** X27.  [CleanHTML] leaves text without a malformed tag alone.  A text
    in which two dashes are nowhere followed by a closing bracket is only
    trimmed: none of the two replacements applies to it. *)
Theorem CleanHTML_without_dashes (html : string) :
  Contains html "-->" = false → CleanHTML html = TrimSpace html.
Proof.
  intros Hno%contains_from_false. unfold CleanHTML.
  destruct (Str.is_empty html) eqn:He; [by apply is_empty_true in He as ->|].
  cbv zeta.
  rewrite (ReplaceAllString_id _ _ html malformedTag_consumes Hno).
  by rewrite (ReplaceAllString_id _ _ html malformedSelfClosing_consumes Hno).
Qed.

Lemma CleanHTML_without_dashes_witness :
  CleanHTML "  <p>a -- b</p> <!-- note -- > " = TrimSpace "  <p>a -- b</p> <!-- note -- > ".
Proof.
  exact (CleanHTML_without_dashes "  <p>a -- b</p> <!-- note -- > " eq_refl).
Defined.

(** X28.  [CleanHTML] never makes the text longer: each replacement puts
    the tag without its dashes (and with one space for the run of white
    space) in place of the malformed tag, and trimming only removes
    bytes. *)
Theorem CleanHTML_never_longer (html : string) :
  String.length (CleanHTML html) ≤ String.length html.
Proof.
  unfold CleanHTML. destruct (Str.is_empty html); [done|]. cbv zeta.
  etransitivity; [apply TrimSpace_length|].
  etransitivity; [apply ReplaceAllString_length, malformedSelfClosing_consumes|].
  apply ReplaceAllString_length, malformedTag_consumes.
Qed.

(** ** FreshRSS client: marking articles as read *)




